(** * A game-hosting platform: central directory, game lobbies, room servers

    A shallow embedding of the server side of the platform:
    - [Db]      : the JSON metadata store        (server/app/db_server.py)
    - [Central] : the central directory server   (server/app/central_lobby_server.py)
    - [Lobby]   : the per-game lobby server      (server/app/game_lobby_server.py)
    - [TTT]     : the grid-game room server      (client/dev/TTT_GUI/v1/run_room_server.py)

    [Py] holds the Python conventions the code relies on (truthiness,
    [or], [int]), [Fs] the storage area on disk, [Spec] the vocabulary
    of the statements and [Scenario] the concrete histories of the
    examples.  [DbView], [LobbyTable], [RoomTable] and [Seating] state
    the invariants of the store, of the lobby table of the central
    server, of the room table of a lobby and of a grid-game room.

    Python dictionaries whose iteration order is observable are ordered
    association lists; the others are [gmap]s.  Requests are the decoded
    JSON objects, one constructor per action.  Paths are lists of
    components, a game name and a file name being one component each:
    this is what the code's path arithmetic makes of the names that
    [Py.plain_name] accepts, and the statements about the storage area
    are about such names.  The outside world (bind checks, child
    processes, the zip library, the memory a read needs) enters through
    explicit oracle arguments, and a loop that Python writes as
    [while True] takes a bound on its rounds.

    A handler is a function on the state, run from its start to its
    end.  The servers run one thread per connection; where a handler
    gives up its lock on the way and a property hangs on it ([login],
    [handle_create_room]), its critical sections are steps of their own
    and a schedule interleaves them ([Central.turns], [Lobby.play]).
    The room server's sends succeed or fail by a pattern that an event
    brings with it ([TTT.play]). *)

From Stdlib Require Import ZArith Ascii String Strings.Byte.
From stdpp Require Import gmap strings list fin_maps pretty.

Local Open Scope string_scope.
Local Open Scope list_scope.
Local Open Scope Z_scope.

(** ** Python values *)

Module Py.

(** Truthiness of an [Optional[str]]: [None] and the empty string are falsy. *)
Definition truthy_str (o : option string) : bool :=
  match o with
  | Some s => negb (bool_decide (s = ""))
  | None => false
  end.

(** Truthiness of an [Optional[int]]: [None] and [0] are falsy. *)
Definition truthy_int (o : option Z) : bool :=
  match o with
  | Some z => negb (bool_decide (z = 0))
  | None => false
  end.

(** [a or b] on optional strings. *)
Definition or_str (a b : option string) : option string :=
  if truthy_str a then a else b.

(** [a or b] on optional paths; an empty path string is falsy. *)
Definition or_path (a b : option (list string)) : option (list string) :=
  match a with
  | Some (_ :: _) => a
  | _ => b
  end.

(** [a or b] on optional integers. *)
Definition or_int (a b : option Z) : option Z :=
  if truthy_int a then a else b.

(** A file-system path, as its components. *)
Abbreviation path := (list string).

(** A [bytes] object. *)
Abbreviation bytes := (list Byte.byte).

#[global] Instance byte_eq_dec : EqDecision Byte.byte.
Proof.
  intros x y. destruct (Byte.eqb x y) eqn:E.
  - left. by apply Byte.byte_dec_bl.
  - right. by apply Byte.eqb_false.
Defined.

(** Python's [statistics.mean] and [round] produce floats; they are kept
    uninterpreted, as the terms that compute the number. *)
Inductive pynum :=
| Mean (xs : list Z)
| Round (x : pynum) (ndigits : Z).

Definition mean (xs : list Z) : pynum := Mean xs.
Definition round (x : pynum) (ndigits : Z) : pynum := Round x ndigits.

(** An optional string that is truthy. *)
Definition given (o : option string) : option string :=
  if truthy_str o then o else None.

Definition given_pair (a b : option string) : option (string * string) :=
  match given a, given b with
  | Some x, Some y => Some (x, y)
  | _, _ => None
  end.

(** The argument of an [int(...)] conversion of a JSON value: [None]
    (the key is absent, or holds null where the caller tests [is None]
    first), a value that converts to the integer [z], a value on which
    [int] raises [TypeError] or [ValueError] (a string that is no
    numeral, a list, an object, NaN; null where the caller does not test
    for it), or a value on which [int] raises [OverflowError] (the
    floats [Infinity] and [-Infinity], which [json.loads] accepts). *)
Inductive IntArg :=
| ArgNone
| ArgInt (z : Z)
| ArgBad
| ArgOverflow.

(** [int(x)] with [dflt] for [None]; no value when [int] raises. *)
Definition int_or_default (x : IntArg) (dflt : Z) : option Z :=
  match x with
  | ArgNone => Some dflt
  | ArgInt z => Some z
  | ArgBad => None
  | ArgOverflow => None
  end.

(** [int(x)] raises an exception that [except (TypeError, ValueError)] lets through. *)
Definition int_overflows (x : IntArg) : bool :=
  match x with
  | ArgOverflow => true
  | _ => false
  end.

(** [sum(xs)] and [len(xs)] of [statistics.mean]. *)
Definition total (xs : list Z) : Z := foldr Z.add 0 xs.

(** [statistics.mean] of a non-empty list of integers raises
    [OverflowError] when the mean is no integer and its conversion to
    a float, rounded to nearest, does not fit: the quotient reaches
    [2^1024 - 2^970], the midpoint above the largest double.  An
    integral mean is returned as an [int] and [round] keeps it. *)
Definition mean_raises (xs : list Z) : bool :=
  let n := Z.of_nat (length xs) in
  negb (total xs mod n =? 0) && ((2 ^ 1024 - 2 ^ 970) * n <=? Z.abs (total xs)).

(** A string that names one entry of a directory: not empty, not [.]
    or [..], without [/] and NUL, at most 255 bytes.  [STORAGE_DIR / s]
    for such an [s] is the child [s] of the storage area; for any
    other string it is some other path (or [open] and [mkdir] raise),
    and the path arithmetic of this development does not apply. *)
Definition plain_name (s : string) : bool :=
  negb (bool_decide (s = "")) && negb (bool_decide (s = "."))
  && negb (bool_decide (s = ".."))
  && forallb (λ ch, negb (bool_decide (ch = "/"%char))
                    && negb (bool_decide (ch = Ascii.zero)))
       (String.list_ascii_of_string s)
  && (String.length s <=? 255)%nat.

End Py.

(** ** The storage area on disk *)

Module Fs.
Import Py.

(** Regular files with their contents, and directories. *)
Record t := mkFs {
  files : gmap path bytes;
  dirs : gset path;
}.

Definition empty : t := mkFs ∅ ∅.

Definition is_file (p : path) (fs : t) : bool := bool_decide (is_Some (files fs !! p)).

(** A directory exists when it, or a directory below it, was made, or
    when a file lies below it. *)
Definition is_dir (p : path) (fs : t) : bool :=
  bool_decide (set_Exists (λ q, p `prefix_of` q) (dirs fs))
  || bool_decide (set_Exists (λ q, p `prefix_of` q ∧ p ≠ q) (dom (files fs))).

(** [os.path.exists] / [Path.exists]. *)
Definition exists_ (p : path) (fs : t) : bool := is_file p fs || is_dir p fs.

(** [p], or a directory on the way to it, is a regular file:
    [Path.mkdir(parents=True, exist_ok=True)] then raises
    [FileExistsError] or [NotADirectoryError]. *)
Definition blocked (p : path) (fs : t) : bool :=
  existsb (λ n, is_file (take n p) fs) (seq 0 (S (length p))).

(** [Path.mkdir(parents=True, exist_ok=True)] on a path that is not blocked. *)
Definition mkdir (p : path) (fs : t) : t := mkFs (files fs) ({[p]} ∪ dirs fs).

(** [open(p, "wb").write(data)]. *)
Definition write_file (p : path) (data : bytes) (fs : t) : t :=
  mkFs (<[p := data]> (files fs)) (dirs fs).

(** [shutil.rmtree(d, ignore_errors=True)] on a directory: everything at or below [d]. *)
Definition rmtree (d : path) (fs : t) : t :=
  mkFs (filter (λ kv, ¬ d `prefix_of` kv.1) (files fs))
       (filter (λ p, ¬ d `prefix_of` p) (dirs fs)).

(** [if d.exists(): shutil.rmtree(d, ignore_errors=True)] followed by
    [d.mkdir(parents=True, exist_ok=True)], for [d] not a regular file. *)
Definition fresh_dir (d : path) (fs : t) : t :=
  mkdir d (if exists_ d fs then rmtree d fs else fs).

(** The members written by [ZipFile.extractall(d)], in order. *)
Definition write_tree (d : path) (entries : list (path * bytes)) (fs : t) : t :=
  foldl (λ acc e, write_file (d ++ e.1) e.2 acc) fs entries.

End Fs.

(** ** The metadata store (db_server.py) *)

Module Db.
Import Py.

Record User := mkUser {
  u_username : string;
  u_password : string;
  u_games : list string;
  u_games_own : list string;
}.

(** A game record.  The [rating] key of the JSON object is written as
    [None] on creation and never read or updated, so it is left out. *)
Record Game := mkGame {
  g_game_name : string;
  g_version : string;
  g_filename : string;
  g_storage_path : path;
  g_description : string;
  g_author : option string;
  g_extracted_path : option path;
  g_min_players : Z;
  g_max_players : Z;
}.

Record Comment := mkComment {
  c_game_name : string;
  c_username : string;
  c_score : Z;
  c_comment : string;
}.

(** The three JSON files, each a list of objects. *)
Record t := mkDb {
  users : list User;
  games : list Game;
  comments : list Comment;
}.

Definition empty : t := mkDb [] [] [].

Definition STORAGE_DIR : path := ["db"; "storage"].

Definition set_users (f : list User → list User) (db : t) : t :=
  mkDb (f (users db)) (games db) (comments db).
Definition set_games (f : list Game → list Game) (db : t) : t :=
  mkDb (users db) (f (games db)) (comments db).
Definition set_comments (f : list Comment → list Comment) (db : t) : t :=
  mkDb (users db) (games db) (f (comments db)).

(** *** Users *)

Definition get_user (username : string) (db : t) : option User :=
  find (λ u, bool_decide (u_username u = username)) (users db).

Definition invalid_chars : list Ascii.ascii :=
  ["<"; ">"; ":"; "."; Ascii.ascii_of_nat 34; "/"; "\"; "|"; "?"; "*"]%char.

Definition has_invalid_char (username : string) : bool :=
  existsb (λ ch, bool_decide (ch ∈ invalid_chars)) (String.list_ascii_of_string username).

(** [register_user]: [(success, code)] and the new store. *)
Definition register_user (username password : string) (db : t)
  : (bool * option string) * t :=
  if has_invalid_char username then ((false, Some "INVALID_USERNAME"), db)
  else if existsb (λ u, bool_decide (u_username u = username)) (users db)
  then ((false, Some "USERNAME_EXISTS"), db)
  else ((true, None),
        set_users (λ us, us ++ [mkUser username password [] []]) db).

Definition authenticate_user (username password : string) (db : t) : bool :=
  match get_user username db with
  | Some u => bool_decide (u_password u = password)
  | None => false
  end.

Definition add_game (game_name : string) (u : User) : User :=
  if bool_decide (game_name ∈ u_games u) then u
  else mkUser (u_username u) (u_password u) (u_games u ++ [game_name]) (u_games_own u).

Definition add_own (game_name : string) (u : User) : User :=
  if bool_decide (game_name ∈ u_games_own u) then u
  else mkUser (u_username u) (u_password u) (u_games u) (u_games_own u ++ [game_name]).

Definition record_download (username : option string) (game_name : string) (db : t) : t :=
  if truthy_str username then
    set_users (map (λ u, if bool_decide (Some (u_username u) = username)
                         then add_game game_name u else u)) db
  else db.

Definition _add_owned_game (username : option string) (game_name : string) (db : t) : t :=
  if truthy_str username then
    set_users (map (λ u, if bool_decide (Some (u_username u) = username)
                         then add_own game_name u else u)) db
  else db.

(** *** Games *)

Definition list_games (db : t) : list Game := games db.

Definition get_game (game_name : string) (db : t) : option Game :=
  find (λ g, bool_decide (g_game_name g = game_name)) (games db).

(** [existing.update({...})] of [upsert_game]. *)
Definition update_game (version filename : string) (stored_path : path)
    (author : option string) (description : string)
    (extracted_path : option path) (min_players max_players : option Z)
    (existing : Game) : Game :=
  {| g_game_name := g_game_name existing;
     g_version := version;
     g_filename := filename;
     g_storage_path := stored_path;
     g_description :=
       if bool_decide (description = "") then g_description existing else description;
     g_author := or_str (g_author existing) author;
     g_extracted_path := or_path extracted_path (g_extracted_path existing);
     g_min_players :=
       default 1 (or_int (or_int min_players (Some (g_min_players existing))) (Some 1));
     g_max_players :=
       default 4 (or_int (or_int max_players (Some (g_max_players existing))) (Some 4));
  |}.

(** Update in place the first element that satisfies [p]. *)
Fixpoint update_first {A} (p : A → bool) (f : A → A) (l : list A) : list A :=
  match l with
  | [] => []
  | x :: l' => if p x then f x :: l' else x :: update_first p f l'
  end.

(** [upsert_game]: the stored object and the new store. *)
Definition upsert_game (game_name version filename : string)
    (author : option string) (description : string)
    (extracted_path : option path) (min_players max_players : option Z)
    (db : t) : Game * t :=
  let stored_path := STORAGE_DIR ++ [game_name; filename] in
  let same := λ g, bool_decide (g_game_name g = game_name) in
  let existing :=
    match find same (games db) with
    | Some old =>
        update_game version filename stored_path author description
          extracted_path min_players max_players old
    | None =>
        {| g_game_name := game_name;
           g_version := version;
           g_filename := filename;
           g_storage_path := stored_path;
           g_description := description;
           g_author := author;
           g_extracted_path := extracted_path;
           g_min_players := default 1 (or_int min_players (Some 1));
           g_max_players := default 4 (or_int max_players (Some 4)) |}
    end in
  let games' :=
    match find same (games db) with
    | Some _ =>
        update_first same
          (update_game version filename stored_path author description
             extracted_path min_players max_players) (games db)
    | None => games db ++ [existing]
    end in
  (existing, _add_owned_game author game_name (set_games (λ _, games') db)).

(** *** Comments *)

Definition list_comments (game_name : string) (db : t) : list Comment :=
  filter (λ c, c_game_name c = game_name) (comments db).

Definition add_comment (game_name username : string) (score : Z) (comment : string)
    (db : t) : t :=
  set_comments
    (λ cs, filter (λ c, ¬ (c_game_name c = game_name ∧ c_username c = username)) cs
           ++ [mkComment game_name username score comment]) db.

(** The [with _lock] block of [remove_game]: the record, the users'
    lists and the comments. *)
Definition remove_records (game_name : string) (author : option string) (db : t)
  : (bool * option string) * t :=
  match get_game game_name db with
  | None => ((false, Some "GAME_NOT_FOUND"), db)
  | Some target =>
      if truthy_str author && truthy_str (g_author target)
         && negb (bool_decide (g_author target = author))
      then ((false, Some "NOT_OWNER"), db)
      else
        let db1 := set_games (filter (λ g, g_game_name g ≠ game_name)) db in
        let db2 := set_users (map (λ u,
                     mkUser (u_username u) (u_password u)
                       (filter (λ g, g ≠ game_name) (u_games u))
                       (filter (λ g, g ≠ game_name) (u_games_own u)))) db1 in
        let db3 := set_comments (filter (λ c, c_game_name c ≠ game_name)) db2 in
        ((true, None), db3)
  end.

(** [shutil.rmtree(STORAGE_DIR / game_name, ignore_errors=True)]: a
    regular file of that name stays, the error being ignored.  The
    name is taken as a single entry of the storage area (see
    [plain_name]). *)
Definition remove_storage (game_name : string) (fs : Fs.t) : Fs.t :=
  let d := STORAGE_DIR ++ [game_name] in
  if Fs.is_file d fs then fs else Fs.rmtree d fs.

(** [remove_game]: the records under the lock and then, unless it has
    returned, the storage directory of the game. *)
Definition remove_game (game_name : string) (author : option string) (db : t) (fs : Fs.t)
  : (bool * option string) * t * Fs.t :=
  let '((success, err), db') := remove_records game_name author db in
  if success then ((true, None), db', remove_storage game_name fs)
  else ((false, err), db, fs).

End Db.

(** ** The central directory server (central_lobby_server.py) *)

Module Central.
Import Py.

Abbreviation conn := nat.

(** [HOST], [LOBBY_BASE_PORT] and [ROOM_BASE_PORT], as set by [main]. *)
Record Config := mkConfig {
  HOST : string;
  LOBBY_BASE_PORT : Z;
  ROOM_BASE_PORT : Z;
}.

Definition default_config : Config := mkConfig "linux2.cs.nycu.edu.tw" 11000 12000.

(** What the server observes of the outside world during one call. *)
Record World := mkWorld {
  (** [ZipFile(...).extractall]: the members written and whether it completed *)
  zip_extract : bytes → list (path * bytes) * bool;
  (** [json.loads(text).get("description", "")], [None] when it raises *)
  config_description : bytes → option string;
  (** [_port_available]: the transient bind succeeds *)
  port_available : Z → bool;
  (** [process.poll() is None] *)
  alive : nat → bool;
  (** [subprocess.Popen] does not raise [OSError] *)
  popen_ok : bool;
  (** [os.path.getsize] of a directory *)
  dir_size : path → Z;
  (** [reader.read(n)] can allocate its result of [n] bytes *)
  read_ok : Z → bool;
}.

(** A child lobby process by its command line; its handle is its
    position in the list of children started so far. *)
Record Child := mkChild {
  ch_host : string;
  ch_port : Z;
  ch_room_port_start : Z;
  ch_game_dir : path;
  ch_game_name : string;
}.

Record LobbyProcess := mkLobby {
  lp_game_name : string;
  lp_process : nat;
  lp_host : string;
  lp_port : Z;
}.

#[global] Instance LobbyProcess_eq_dec : EqDecision LobbyProcess.
Proof. solve_decision. Defined.

Record State := mkState {
  db : Db.t;
  fs : Fs.t;
  clients : gmap conn (option string);
  active_usernames : gset string;
  lobbies : gmap string LobbyProcess;
  children : list Child;
}.

Definition init : State := mkState Db.empty Fs.empty ∅ ∅ ∅ [].

Definition set_db (f : Db.t → Db.t) (st : State) : State :=
  mkState (f (db st)) (fs st) (clients st) (active_usernames st) (lobbies st) (children st).
Definition set_fs (f : Fs.t → Fs.t) (st : State) : State :=
  mkState (db st) (f (fs st)) (clients st) (active_usernames st) (lobbies st) (children st).
Definition set_clients (f : gmap conn (option string) → gmap conn (option string))
    (st : State) : State :=
  mkState (db st) (fs st) (f (clients st)) (active_usernames st) (lobbies st) (children st).
Definition set_active (f : gset string → gset string) (st : State) : State :=
  mkState (db st) (fs st) (clients st) (f (active_usernames st)) (lobbies st) (children st).
Definition set_lobbies (f : gmap string LobbyProcess → gmap string LobbyProcess)
    (st : State) : State :=
  mkState (db st) (fs st) (clients st) (active_usernames st) (f (lobbies st)) (children st).
Definition set_children (f : list Child → list Child) (st : State) : State :=
  mkState (db st) (fs st) (clients st) (active_usernames st) (lobbies st) (f (children st)).

(** *** Wire messages *)

Inductive Data :=
| DUsername (username : string)
| DGames (games : list (Db.Game * option (string * Z)))
| DGameDetail (game : Db.Game) (lobby : option (string * Z))
    (comments : list Db.Comment) (rating : option pynum)
| DDownload (game_name filename : string) (filesize : Z) (version : string)
| DComments (game_name : string) (comments : list Db.Comment) (rating : option pynum)
| DGameName (game_name : string)
| DUploaded (game_name version : string) (stored_path extracted_path : path)
| DLaunched (game_name lobby_host : string) (lobby_port : Z)
| DStopped (game_name : string)
| DDeleted (game_name : string).

(** [make_ok] and [make_error]; the free-text message is left out. *)
Inductive Response :=
| make_ok (req_type action : string) (data : Data)
| make_error (req_type action code : string).

(** What is written to the connection: a JSON line or raw bytes. *)
Inductive Sent :=
| send_json (payload : Response)
| sendall (chunk : bytes).

Inductive AuthReq :=
| Register (username password : option string)
| Login (username password : option string)
| Logout
| AuthOther (action : option string).

Inductive StoreReq :=
| ListGames
| GetGameDetail (game_name : option string)
| DownloadGameFile (game_name : option string)
| AddComment (game_name : option string) (score : IntArg) (comment : string)
| MarkOwned (game_name : option string)
| StoreOther (action : option string).

(** [filesize] is [None] unless [isinstance(filesize, int)]. *)
Inductive DevReq :=
| UploadGameFile (game_name version filename : option string) (filesize : option Z)
    (min_players max_players : IntArg)
| LaunchGameServer (game_name : option string)
| StopGameServer (game_name : option string)
| DeleteGame (game_name : option string)
| DevOther (action : option string).

Inductive Message :=
| MAuth (req : AuthReq)
| MStore (req : StoreReq)
| MDev (req : DevReq)
| MOther (msg_type action : option string).

(** *** Sessions *)

(** [reader] holds the bytes that follow the current request line. *)
Record ClientContext := mkCtx {
  ctx_conn : conn;
  ctx_reader : bytes;
  ctx_username : option string;
}.

(** The effect of one handler call; [r_raised] tells that an exception
    left the handler, which ends [handle_client]'s loop. *)
Record Result := mkResult {
  r_ctx : ClientContext;
  r_state : State;
  r_out : list Sent;
  r_raised : bool;
}.

Definition reply (ctx : ClientContext) (st : State) (out : list Sent) : Result :=
  mkResult ctx st out false.

Definition raise (ctx : ClientContext) (st : State) (out : list Sent) : Result :=
  mkResult ctx st out true.

(** [reader.read(n)] on a buffered reader: [n] bytes, fewer only at end of file. *)
Definition reader_read (reader : bytes) (n : nat) : bytes * bytes :=
  (take n reader, drop n reader).

(** [reader.read(n)] allocates the [n] bytes of its result before it
    reads: from [2^63] on the size is refused with [OverflowError],
    below that the allocation may fail with [MemoryError]. *)
Definition read_fits (w : World) (n : Z) : bool := (n <? 2 ^ 63) && read_ok w n.

(** How [_read_exact] ends: with the bytes, with [None], or with the
    exception of a [read]. *)
Inductive Read :=
| ReadSome (payload : bytes)
| ReadNone
| ReadRaised.

(** The loop of [_read_exact]; every round but the last consumes a byte
    of the reader, so one round more than its length suffices. *)
Fixpoint _read_exact_loop (fuel : nat) (w : World) (reader : bytes) (remaining : Z)
    (chunks : list bytes) : Read * bytes :=
  if bool_decide (remaining > 0) then
    match fuel with
    | O => (ReadNone, reader)
    | S fuel' =>
        if negb (read_fits w remaining) then (ReadRaised, reader)
        else
          let '(data, reader') := reader_read reader (Z.to_nat remaining) in
          match data with
          | [] => (ReadNone, reader')
          | _ => _read_exact_loop fuel' w reader' (remaining - Z.of_nat (length data))
                   (chunks ++ [data])
          end
    end
  else (ReadSome (concat chunks), reader).

Definition _read_exact (w : World) (reader : bytes) (size : Z) : Read * bytes :=
  _read_exact_loop (S (length reader)) w reader size [].

Definition or_unknown (action : option string) : string :=
  default "unknown" (or_str action (Some "unknown")).

(** The first critical section of [login]: the name is active. *)
Definition login_check (u : string) (st : State) : bool :=
  bool_decide (u ∈ active_usernames st).

(** The rest of [login]: [authenticate_user] and, under [clients_lock]
    again, the entry of the session. *)
Definition login_commit (ctx : ClientContext) (u p : string) (st : State) : Result :=
  if Db.authenticate_user u p (db st) then
    reply (mkCtx (ctx_conn ctx) (ctx_reader ctx) (Some u))
      (set_active (λ a, {[u]} ∪ a)
         (set_clients (λ c, <[ctx_conn ctx := Some u]> c) st))
      [send_json (make_ok "auth" "login" (DUsername u))]
  else
    reply ctx st [send_json (make_error "auth" "login" "INVALID_CREDENTIALS")].

#[global] Arguments login_check _ _ /.
#[global] Arguments login_commit _ _ _ _ /.

(** [handle_auth], run without a step of another thread inside it. *)
Definition handle_auth (ctx : ClientContext) (req : AuthReq) (st : State) : Result :=
  match req with
  | Register username password =>
      match given username, given password with
      | Some u, Some p =>
          let '((success, code), db') := Db.register_user u p (db st) in
          if success then
            reply ctx (set_db (λ _, db') st)
              [send_json (make_ok "auth" "register" (DUsername u))]
          else
            reply ctx (set_db (λ _, db') st)
              [send_json (make_error "auth" "register"
                            (default "REGISTER_FAILED" (or_str code (Some "REGISTER_FAILED"))))]
      | _, _ =>
          reply ctx st [send_json (make_error "auth" "register" "INVALID_REQUEST")]
      end
  | Login username password =>
      match given username, given password with
      | Some u, Some p =>
          if login_check u st then
            reply ctx st [send_json (make_error "auth" "login" "USER_ALREADY_LOGGED_IN")]
          else login_commit ctx u p st
      | _, _ =>
          reply ctx st [send_json (make_error "auth" "login" "INVALID_REQUEST")]
      end
  | Logout =>
      match given (ctx_username ctx) with
      | Some u =>
          reply (mkCtx (ctx_conn ctx) (ctx_reader ctx) None)
            (set_active (λ a, a ∖ {[u]})
               (set_clients (λ c, delete (ctx_conn ctx) c) st))
            [send_json (make_ok "auth" "logout" (DUsername u))]
      | None =>
          reply ctx st [send_json (make_error "auth" "logout" "NOT_LOGGED_IN")]
      end
  | AuthOther action =>
      reply ctx st [send_json (make_error "auth" (or_unknown action) "UNSUPPORTED")]
  end.

(** *** Store requests *)

Definition lobby_info (game_name : string) (st : State) : option (string * Z) :=
  (λ l, (lp_host l, lp_port l)) <$> lobbies st !! game_name.

(** [round(mean([c.get("score", 0) for c in comments]), 1)]; [None] on
    an empty list and, by [except Exception], when [mean] raises. *)
Definition rating_val (comments : list Db.Comment) : option pynum :=
  match comments with
  | [] => None
  | _ =>
      if mean_raises (map Db.c_score comments) then None
      else Some (round (mean (map Db.c_score comments)) 1)
  end.

Definition with_description (d : string) (g : Db.Game) : Db.Game :=
  Db.mkGame (Db.g_game_name g) (Db.g_version g) (Db.g_filename g) (Db.g_storage_path g)
    d (Db.g_author g) (Db.g_extracted_path g) (Db.g_min_players g) (Db.g_max_players g).

(** The description of [get_game_detail], taken from the extracted
    [game_config.json] when the record has none. *)
Definition detail_description (w : World) (st : State) (game : Db.Game) : Db.Game :=
  if bool_decide (Db.g_description game = "") then
    match Db.g_extracted_path game with
    | Some extracted =>
        match Fs.files (fs st) !! (extracted ++ ["game_config.json"]) with
        | Some text =>
            match config_description w text with
            | Some d => with_description d game
            | None => game
            end
        | None => game
        end
    | None => game
    end
  else game.

(** The loop [while True: chunk = fh.read(4096) ...]; one round per
    chunk, so [length data] rounds reach the empty read. *)
Fixpoint read_chunks (fuel : nat) (data : bytes) : list bytes :=
  match fuel with
  | O => []
  | S fuel' =>
      match take 4096 data with
      | [] => []
      | chunk => chunk :: read_chunks fuel' (drop 4096 data)
      end
  end.

Definition basename (p : path) : string := List.last p "".

Definition handle_store (w : World) (ctx : ClientContext) (req : StoreReq) (st : State)
  : Result :=
  match given (ctx_username ctx) with
  | None =>
      let action :=
        match req with
        | ListGames => "list_games"
        | GetGameDetail _ => "get_game_detail"
        | DownloadGameFile _ => "download_game_file"
        | AddComment _ _ _ => "add_comment"
        | MarkOwned _ => "mark_owned"
        | StoreOther a => or_unknown a
        end in
      reply ctx st [send_json (make_error "store" action "NOT_AUTHENTICATED")]
  | Some user =>
      match req with
      | ListGames =>
          let games := map (λ g, (g, lobby_info (Db.g_game_name g) st))
                           (Db.list_games (db st)) in
          reply ctx st [send_json (make_ok "store" "list_games" (DGames games))]
      | GetGameDetail game_name =>
          match given game_name ≫= λ n, (λ g, (n, g)) <$> Db.get_game n (db st) with
          | None =>
              reply ctx st
                [send_json (make_error "store" "get_game_detail" "GAME_NOT_FOUND")]
          | Some (name, game) =>
              let comments := Db.list_comments name (db st) in
              reply ctx st
                [send_json (make_ok "store" "get_game_detail"
                   (DGameDetail (detail_description w st game) (lobby_info name st)
                      comments (rating_val comments)))]
          end
      | DownloadGameFile game_name =>
          match given game_name with
          | None =>
              reply ctx st
                [send_json (make_error "store" "download_game_file" "INVALID_REQUEST")]
          | Some name =>
              match Db.get_game name (db st) with
              | None =>
                  reply ctx st
                    [send_json (make_error "store" "download_game_file"
                                  "GAME_OR_VERSION_NOT_FOUND")]
              | Some game =>
                  let storage_path := Db.g_storage_path game in
                  if bool_decide (storage_path = []) || negb (Fs.exists_ storage_path (fs st))
                  then
                    reply ctx st
                      [send_json (make_error "store" "download_game_file"
                                    "GAME_OR_VERSION_NOT_FOUND")]
                  else
                    match Fs.files (fs st) !! storage_path with
                    | Some data =>
                        let header :=
                          make_ok "store" "download_game_file"
                            (DDownload name (basename storage_path)
                               (Z.of_nat (length data)) (Db.g_version game)) in
                        reply ctx (set_db (Db.record_download (Some user) name) st)
                          (send_json header :: map sendall (read_chunks (length data) data))
                    | None =>
                        (* a directory: the header goes out, then [open] raises *)
                        raise ctx st
                          [send_json (make_ok "store" "download_game_file"
                             (DDownload name (basename storage_path)
                                (dir_size w storage_path) (Db.g_version game)))]
                    end
              end
          end
      | AddComment game_name score comment_text =>
          match given game_name, score with
          | None, _ | Some _, ArgNone =>
              reply ctx st [send_json (make_error "store" "add_comment" "INVALID_REQUEST")]
          | Some _, ArgBad =>
              reply ctx st [send_json (make_error "store" "add_comment" "INVALID_SCORE")]
          | Some _, ArgOverflow =>
              (* [OverflowError] passes [except (TypeError, ValueError)] *)
              raise ctx st []
          | Some name, ArgInt score_int =>
              let db' := Db.add_comment name user score_int comment_text (db st) in
              let updated := Db.list_comments name db' in
              reply ctx (set_db (λ _, db') st)
                [send_json (make_ok "store" "add_comment"
                   (DComments name updated (rating_val updated)))]
          end
      | MarkOwned game_name =>
          match given game_name with
          | None =>
              reply ctx st [send_json (make_error "store" "mark_owned" "INVALID_REQUEST")]
          | Some name =>
              reply ctx (set_db (Db.record_download (Some user) name) st)
                [send_json (make_ok "store" "mark_owned" (DGameName name))]
          end
      | StoreOther action =>
          reply ctx st [send_json (make_error "store" (or_unknown action) "UNSUPPORTED")]
      end
  end.

(** *** Lobby processes and the port allocator *)

(** [_find_free_port]: [fuel] bounds the rounds of [while True]; [None]
    when the loop has not returned within them. *)
Fixpoint _find_free_port (fuel : nat) (w : World) (port : Z) (taken : gset Z) : option Z :=
  match fuel with
  | O => None
  | S fuel' =>
      if bool_decide (port ∉ taken) && port_available w port then Some port
      else _find_free_port fuel' w (port + 1) taken
  end.

(** How [_ensure_extracted_package] ends: with a path, with [None], or
    with an exception ([mkdir] over a regular file). *)
Inductive Ensured :=
| EnsuredPath (p : path)
| EnsuredNone
| EnsuredRaised.

Definition _ensure_extracted_package (w : World) (game_obj : option Db.Game) (st : State)
  : Ensured * State :=
  match game_obj with
  | None => (EnsuredNone, st)
  | Some g =>
      let found :=
        match Db.g_extracted_path g with
        | Some p =>
            if negb (bool_decide (p = [])) && Fs.exists_ p (fs st) then Some p else None
        | None => None
        end in
      match found with
      | Some p => (EnsuredPath p, st)
      | None =>
          let storage_path := Db.g_storage_path g in
          if bool_decide (storage_path = []) || negb (Fs.exists_ storage_path (fs st))
          then (EnsuredNone, st)
          else
            let extract_dir := removelast storage_path ++ ["extracted"] in
            if Fs.is_file extract_dir (fs st) then (EnsuredRaised, st)
            else
              let st1 := set_fs (Fs.fresh_dir extract_dir) st in
              match Fs.files (fs st1) !! storage_path with
              | None => (EnsuredNone, st1)
              | Some archive =>
                  let '(entries, ok) := zip_extract w archive in
                  let st2 := set_fs (Fs.write_tree extract_dir entries) st1 in
                  if ok then
                    (EnsuredPath extract_dir,
                     set_db (λ d, (Db.upsert_game (Db.g_game_name g) (Db.g_version g)
                                     (Db.g_filename g) (Db.g_author g) (Db.g_description g)
                                     (Some extract_dir) None None d).2) st2)
                  else (EnsuredNone, st2)
              end
      end
  end.

(** How [start_lobby_if_needed] returns. *)
Inductive Started :=
| StartedOk (host : string) (port : Z)
| StartedFailed
| StartedRaised.

Definition taken_ports (st : State) : gset Z :=
  list_to_set (map (λ kv, lp_port kv.2) (map_to_list (lobbies st))).

(** [start_lobby_if_needed]; [None] when the port search has not returned. *)
Definition start_lobby_if_needed (fuel : nat) (cfg : Config) (w : World)
    (game_name : string) (game_obj : option Db.Game) (st : State)
  : option (Started * State) :=
  let game_obj :=
    match game_obj with
    | None => Db.get_game game_name (db st)
    | Some g => Some g
    end in
  let running :=
    match lobbies st !! game_name with
    | Some existing =>
        if alive w (lp_process existing)
        then Some (lp_host existing, lp_port existing) else None
    | None => None
    end in
  match running with
  | Some (host, port) => Some (StartedOk host port, st)
  | None =>
      match _ensure_extracted_package w game_obj st with
      | (EnsuredRaised, st1) => Some (StartedRaised, st1)
      | (EnsuredNone, st1) => Some (StartedFailed, st1)
      | (EnsuredPath extracted_path, st1) =>
          match _find_free_port fuel w (LOBBY_BASE_PORT cfg) (taken_ports st1) with
          | None => None
          | Some port =>
              if popen_ok w then
                let proc := length (children st1) in
                let lobby := mkLobby game_name proc (HOST cfg) port in
                Some (StartedOk (HOST cfg) port,
                      set_lobbies (λ l, <[game_name := lobby]> l)
                        (set_children
                           (λ c, c ++ [mkChild (HOST cfg) port (ROOM_BASE_PORT cfg)
                                         extracted_path game_name]) st1))
              else Some (StartedFailed, st1)
          end
      end
  end.

(** [stop_lobby]: the child is terminated and its entry popped. *)
Definition stop_lobby (game_name : string) (st : State) : bool * State :=
  match lobbies st !! game_name with
  | None => (false, st)
  | Some _ => (true, set_lobbies (λ l, delete game_name l) st)
  end.

(** [_monitor_lobby], once the child has exited. *)
Definition _monitor_lobby (lobby : LobbyProcess) (st : State) : State :=
  if bool_decide (lobbies st !! lp_game_name lobby = Some lobby)
  then set_lobbies (λ l, delete (lp_game_name lobby) l) st
  else st.

(** *** Developer requests *)

(** [existing and existing.get("author") and existing.get("author") != ctx.username]. *)
Definition other_author (user game_name : string) (st : State) : bool :=
  match Db.get_game game_name (db st) with
  | Some existing =>
      truthy_str (Db.g_author existing)
      && negb (bool_decide (Db.g_author existing = Some user))
  | None => false
  end.

(** [upload_game_file] once the header has been accepted.  The names
    are taken as single entries of their directories (see [plain_name]);
    [ensure_game_storage_dir], [read], [open] and [mkdir] raise past the
    handler. *)
Definition upload_game_file (w : World) (ctx : ClientContext) (user : string)
    (game_name version filename : string) (filesize : Z)
    (min_players_int max_players_int : Z) (st : State) : Result :=
  let storage_dir := Db.STORAGE_DIR ++ [game_name] in
  if Fs.blocked storage_dir (fs st) then raise ctx st [] else
  let st := set_fs (Fs.mkdir storage_dir) st in
  let dest_path := storage_dir ++ [filename] in
  let extract_dir := storage_dir ++ ["extracted"] in
  let '(payload, reader') := _read_exact w (ctx_reader ctx) filesize in
  let ctx := mkCtx (ctx_conn ctx) reader' (ctx_username ctx) in
  match payload with
  | ReadRaised => raise ctx st []
  | ReadNone => reply ctx st [send_json (make_error "dev" "upload_game_file" "UPLOAD_FAILED")]
  | ReadSome payload =>
      if negb (bool_decide (Z.of_nat (length payload) = filesize)) then
        reply ctx st [send_json (make_error "dev" "upload_game_file" "UPLOAD_FAILED")]
      else if Fs.is_dir dest_path (fs st) then raise ctx st []
      else
        let st := set_fs (Fs.write_file dest_path payload) st in
        if Fs.is_file extract_dir (fs st) then raise ctx st []
        else
          let st := set_fs (Fs.fresh_dir extract_dir) st in
          let '(entries, ok) :=
            match Fs.files (fs st) !! dest_path with
            | Some archive => zip_extract w archive
            | None => ([], false)
            end in
          let st := set_fs (Fs.write_tree extract_dir entries) st in
          if negb ok then
            reply ctx st [send_json (make_error "dev" "upload_game_file" "UNZIP_FAILED")]
          else
            let description :=
              match Fs.files (fs st) !! (extract_dir ++ ["game_config.json"]) with
              | Some text => default "" (config_description w text)
              | None => ""
              end in
            let st :=
              set_db (λ d, (Db.upsert_game game_name version filename (Some user)
                              description (Some extract_dir)
                              (Some min_players_int) (Some max_players_int) d).2) st in
            reply ctx st
              [send_json (make_ok "dev" "upload_game_file"
                            (DUploaded game_name version dest_path extract_dir))]
  end.

(** [delete_game]; the name is taken as a single entry of the storage
    area (see [plain_name]). *)
Definition delete_game (ctx : ClientContext) (user : string) (game_name : option string)
    (st : State) : Result :=
  match given game_name with
  | None => reply ctx st [send_json (make_error "dev" "delete_game" "INVALID_REQUEST")]
  | Some name =>
      match Db.get_game name (db st) with
      | None => reply ctx st [send_json (make_error "dev" "delete_game" "GAME_NOT_FOUND")]
      | Some existing =>
          if truthy_str (Db.g_author existing)
             && negb (bool_decide (Db.g_author existing = Some user))
          then reply ctx st [send_json (make_error "dev" "delete_game" "NOT_OWNER")]
          else
            let '((success, err), db', fs') :=
              Db.remove_game name (Some user) (db st) (fs st) in
            if success then
              let st := set_fs (λ _, fs') (set_db (λ _, db') st) in
              reply ctx (stop_lobby name st).2
                [send_json (make_ok "dev" "delete_game" (DDeleted name))]
            else
              reply ctx st
                [send_json (make_error "dev" "delete_game"
                              (default "DELETE_FAILED" (or_str err (Some "DELETE_FAILED"))))]
      end
  end.

(** [handle_dev]; [None] when [launch_game_server] has not returned within [fuel]. *)
Definition handle_dev (fuel : nat) (cfg : Config) (w : World) (ctx : ClientContext)
    (req : DevReq) (st : State) : option Result :=
  match given (ctx_username ctx) with
  | None =>
      let action :=
        match req with
        | UploadGameFile _ _ _ _ _ _ => "upload_game_file"
        | LaunchGameServer _ => "launch_game_server"
        | StopGameServer _ => "stop_game_server"
        | DeleteGame _ => "delete_game"
        | DevOther a => or_unknown a
        end in
      Some (reply ctx st [send_json (make_error "dev" action "NOT_AUTHENTICATED")])
  | Some user =>
      match req with
      | UploadGameFile game_name version filename filesize min_players max_players =>
          match given game_name, given version, given filename, filesize with
          | Some game_name, Some version, Some filename, Some filesize =>
              if int_overflows min_players then Some (raise ctx st []) else
              match int_or_default min_players 1 with
              | None =>
                  Some (reply ctx st
                          [send_json (make_error "dev" "upload_game_file" "INVALID_PLAYERS")])
              | Some min_players_int =>
                  if int_overflows max_players then Some (raise ctx st []) else
                  match int_or_default max_players (Z.max min_players_int 4) with
                  | None =>
                      Some (reply ctx st
                              [send_json (make_error "dev" "upload_game_file"
                                            "INVALID_PLAYERS")])
                  | Some max_players_int =>
                      if bool_decide (min_players_int < 1)
                         || bool_decide (max_players_int < min_players_int)
                      then
                        Some (reply ctx st
                                [send_json (make_error "dev" "upload_game_file"
                                              "INVALID_PLAYERS")])
                      else
                        if other_author user game_name st then
                          Some (reply ctx st
                                  [send_json (make_error "dev" "upload_game_file"
                                                "GAME_EXISTS_OTHER_AUTHOR")])
                        else
                          Some (upload_game_file w ctx user game_name version filename
                                  filesize min_players_int max_players_int st)
                  end
              end
          | _, _, _, _ =>
              Some (reply ctx st
                      [send_json (make_error "dev" "upload_game_file" "INVALID_REQUEST")])
          end
      | LaunchGameServer game_name =>
          match given game_name with
          | None =>
              Some (reply ctx st
                      [send_json (make_error "dev" "launch_game_server" "INVALID_REQUEST")])
          | Some name =>
              match Db.get_game name (db st) with
              | None =>
                  Some (reply ctx st
                          [send_json (make_error "dev" "launch_game_server" "GAME_NOT_FOUND")])
              | Some game =>
                  match start_lobby_if_needed fuel cfg w name (Some game) st with
                  | None => None
                  | Some (StartedOk host port, st') =>
                      Some (reply ctx st'
                              [send_json (make_ok "dev" "launch_game_server"
                                            (DLaunched name host port))])
                  | Some (StartedFailed, st') =>
                      Some (reply ctx st'
                              [send_json (make_error "dev" "launch_game_server"
                                            "LAUNCH_FAILED")])
                  | Some (StartedRaised, st') => Some (raise ctx st' [])
                  end
              end
          end
      | StopGameServer game_name =>
          match given game_name with
          | None =>
              Some (reply ctx st
                      [send_json (make_error "dev" "stop_game_server" "INVALID_REQUEST")])
          | Some name =>
              let '(success, st') := stop_lobby name st in
              if success then
                Some (reply ctx st'
                        [send_json (make_ok "dev" "stop_game_server" (DStopped name))])
              else
                Some (reply ctx st'
                        [send_json (make_error "dev" "stop_game_server" "STOP_FAILED")])
          end
      | DeleteGame game_name => Some (delete_game ctx user game_name st)
      | DevOther action =>
          Some (reply ctx st [send_json (make_error "dev" (or_unknown action) "UNSUPPORTED")])
      end
  end.

(** *** Dispatch and the connection loop *)

Definition dispatch (fuel : nat) (cfg : Config) (w : World) (ctx : ClientContext)
    (message : Message) (st : State) : option Result :=
  match message with
  | MAuth req => Some (handle_auth ctx req st)
  | MStore req => Some (handle_store w ctx req st)
  | MDev req => handle_dev fuel cfg w ctx req st
  | MOther msg_type action =>
      Some (reply ctx st
              [send_json (make_error (or_unknown msg_type) (or_unknown action) "UNKNOWN_TYPE")])
  end.

(** The server with its live [handle_client] threads, one context each. *)
Record System := mkSystem {
  sys_state : State;
  sessions : gmap conn ClientContext;
}.

Definition boot : System := mkSystem init ∅.

(** What happens on a socket: it is accepted, a request line arrives
    (followed on the wire by [rest]), or it reaches end of file. *)
Inductive Event :=
| Accept (c : conn)
| Recv (c : conn) (message : Message) (rest : bytes)
| Eof (c : conn).

(** The [finally] block of [handle_client]. *)
Definition handle_client_finally (ctx : ClientContext) (sys : System) : System :=
  mkSystem (set_clients (λ cl, delete (ctx_conn ctx) cl) (sys_state sys))
           (delete (ctx_conn ctx) (sessions sys)).

(** One event of [handle_client], with what is sent back on the socket. *)
Definition step (fuel : nat) (cfg : Config) (w : World) (ev : Event) (sys : System)
  : System * list Sent :=
  match ev with
  | Accept c =>
      match sessions sys !! c with
      | Some _ => (sys, [])
      | None =>
          (mkSystem (set_clients (λ cl, <[c := None]> cl) (sys_state sys))
                    (<[c := mkCtx c [] None]> (sessions sys)), [])
      end
  | Recv c message rest =>
      match sessions sys !! c with
      | None => (sys, [])
      | Some ctx =>
          match dispatch fuel cfg w (mkCtx c rest (ctx_username ctx)) message (sys_state sys) with
          | None => (sys, [])
          | Some r =>
              let sys' := mkSystem (r_state r) (<[c := r_ctx r]> (sessions sys)) in
              if r_raised r then (handle_client_finally (r_ctx r) sys', r_out r)
              else (sys', r_out r)
          end
      end
  | Eof c =>
      match sessions sys !! c with
      | None => (sys, [])
      | Some ctx => (handle_client_finally ctx sys, [])
      end
  end.

(** A history of events, each under its own view of the outside world. *)
Fixpoint run (fuel : nat) (cfg : Config) (evs : list (World * Event)) (sys : System)
  : System :=
  match evs with
  | [] => sys
  | (w, ev) :: evs' => run fuel cfg evs' (step fuel cfg w ev sys).1
  end.

(** *** Logins that overlap *)

(** [login] gives up [clients_lock] between its check of
    [active_usernames] and the entry of the session.  A login in
    progress on a connection: the name, the password and the bytes
    that follow the request. *)
Record Threads := mkThreads {
  system : System;
  logins : gmap conn (string * string * bytes);
}.

Definition start : Threads := mkThreads boot ∅.

(** What the scheduler lets happen next: an event handled from its
    start to its end, or one of the two halves of a [login] request on
    [c]: up to the end of the first critical section, and from
    [authenticate_user] on. *)
Inductive Turn :=
| Whole (w : World) (ev : Event)
| LoginCheck (c : conn) (username password : option string) (rest : bytes)
| LoginCommit (c : conn).

Definition turn (fuel : nat) (cfg : Config) (t : Turn) (th : Threads)
  : Threads * list Sent :=
  match t with
  | Whole w ev =>
      let '(sys, out) := step fuel cfg w ev (system th) in
      (mkThreads sys (logins th), out)
  | LoginCheck c username password rest =>
      match sessions (system th) !! c, logins th !! c with
      | Some ctx, None =>
          let ctx := mkCtx c rest (ctx_username ctx) in
          let returned :=
            mkThreads (mkSystem (sys_state (system th)) (<[c := ctx]> (sessions (system th))))
              (logins th) in
          match given username, given password with
          | Some u, Some p =>
              if login_check u (sys_state (system th)) then
                (returned, [send_json (make_error "auth" "login" "USER_ALREADY_LOGGED_IN")])
              else (mkThreads (system th) (<[c := (u, p, rest)]> (logins th)), [])
          | _, _ => (returned, [send_json (make_error "auth" "login" "INVALID_REQUEST")])
          end
      | _, _ => (th, [])
      end
  | LoginCommit c =>
      match sessions (system th) !! c, logins th !! c with
      | Some ctx, Some (u, p, rest) =>
          let r := login_commit (mkCtx c rest (ctx_username ctx)) u p
                     (sys_state (system th)) in
          (mkThreads (mkSystem (r_state r) (<[c := r_ctx r]> (sessions (system th))))
             (delete c (logins th)),
           r_out r)
      | _, _ => (th, [])
      end
  end.

Definition turns (fuel : nat) (cfg : Config) (ts : list Turn) (th : Threads) : Threads :=
  foldl (λ acc t, (turn fuel cfg t acc).1) th ts.

(** No login overlaps another event: each check is followed at once by
    its commit. *)
Fixpoint serial (ts : list Turn) : bool :=
  match ts with
  | [] => true
  | Whole _ _ :: ts' => serial ts'
  | LoginCheck c _ _ _ :: ts' =>
      match ts' with
      | LoginCommit c' :: ts'' => bool_decide (c' = c) && serial ts''
      | _ => false
      end
  | LoginCommit _ :: _ => false
  end.

End Central.

(** ** The game lobby server (game_lobby_server.py) *)

Module Lobby.
Import Py.

Inductive Status := waiting | closed.

#[global] Instance Status_eq_dec : EqDecision Status.
Proof. solve_decision. Defined.

Record Room := mkRoom {
  room_id : string;
  game_name : string;
  version : string;
  host_username : string;
  max_players : Z;
  room_server_host : string;
  room_server_port : Z;
  process : nat;
  players : list string;
  status : Status;
}.

(** A room-server child by its command line; its handle is its position
    in the list of children started so far. *)
Record Child := mkChild {
  ch_script : path;
  ch_host : string;
  ch_port : Z;
  ch_max_players : Z;
  ch_game_name : string;
  ch_room_id : string;
}.

(** The command line of the lobby: [--host], [--room-port-start],
    [--game-name], and the game directory with its entry name. *)
Record Config := mkConfig {
  lobby_host : string;
  room_port_start : Z;
  lobby_game_name : string;
  game_dir : path;
  entry_room_server : string;
}.

Definition ROOM_SERVER_SCRIPT : path := ["server"; "app"; "room_server.py"].

(** What the lobby observes of the outside world during one call. *)
Record World := mkWorld {
  port_available : string → Z → bool;
  script_exists : path → bool;
  popen_ok : bool;
}.

Record State := mkState {
  rooms : gmap string Room;
  room_counter : nat;
  children : list Child;
}.

Definition init : State := mkState ∅ 0 [].

Inductive Data :=
| DRoom (room_id game_name version room_server_host : string) (room_server_port : Z)
| DLeft (room_id : string).

Inductive Response :=
| make_ok (action : string) (data : Data)
| make_error (action code : string).

(** [_find_free_port]: [fuel] bounds the rounds of [while True]. *)
Fixpoint _find_free_port (fuel : nat) (w : World) (host : string) (port : Z)
    (taken : list Z) : option Z :=
  match fuel with
  | O => None
  | S fuel' =>
      if bool_decide (port ∉ taken) && port_available w host port then Some port
      else _find_free_port fuel' w host (port + 1) taken
  end.

(** [f"R{room_counter}"] after the increment. *)
Definition _next_room_id (st : State) : string * State :=
  let n := S (room_counter st) in
  ("R" +:+ pretty n, mkState (rooms st) n (children st)).

Definition values (st : State) : list Room := (map_to_list (rooms st)).*2.

(** [username] is in some waiting room other than [except]. *)
Definition in_waiting_room (username : string) (except : option string) (st : State) : bool :=
  existsb (λ existing,
             bool_decide (status existing = waiting)
             && negb (bool_decide (Some (room_id existing) = except))
             && bool_decide (username ∈ players existing))
          (values st).

Definition set_players (ps : list string) (r : Room) : Room :=
  mkRoom (room_id r) (game_name r) (version r) (host_username r) (max_players r)
    (room_server_host r) (room_server_port r) (process r) ps (status r).

Definition set_status (s : Status) (r : Room) : Room :=
  mkRoom (room_id r) (game_name r) (version r) (host_username r) (max_players r)
    (room_server_host r) (room_server_port r) (process r) (players r) s.

Definition set_rooms (f : gmap string Room → gmap string Room) (st : State) : State :=
  mkState (f (rooms st)) (room_counter st) (children st).

(** The entry script: the configured one, the default name, the shared fallback. *)
Definition resolve_entry (cfg : Config) (w : World) : option path :=
  let entry_script := game_dir cfg ++ [entry_room_server cfg] in
  let entry_script :=
    if script_exists w entry_script then entry_script
    else game_dir cfg ++ ["run_room_server.py"] in
  let entry_script :=
    if negb (script_exists w entry_script) && script_exists w ROOM_SERVER_SCRIPT
    then ROOM_SERVER_SCRIPT else entry_script in
  if script_exists w entry_script then Some entry_script else None.

(** How a handler ends: a reply, an exception that leaves the handler,
    or no return within the fuel. *)
Inductive Outcome :=
| Replied (resp : Response)
| Raised
| Running.

(** The first [with rooms_lock] block of [handle_create_room]: the
    refusal ([None]), or the ports that the rooms have at that moment. *)
Definition create_room_check (username : string) (st : State) : option (list Z) :=
  if in_waiting_room username None st then None
  else Some (map room_server_port (values st)).

(** What follows outside the lock: the port search, the choice of the
    entry script and [Popen]. *)
Inductive Spawn :=
| Spawned (room : Room)
| Failed (code : string)
| Searching.

Definition create_room_spawn (fuel : nat) (cfg : Config) (w : World)
    (room_id username : string) (max_players : Z) (version : string)
    (taken_ports : list Z) (st : State) : Spawn * State :=
  match _find_free_port fuel w (lobby_host cfg) (room_port_start cfg) taken_ports with
  | None => (Searching, st)
  | Some port =>
      match resolve_entry cfg w with
      | None => (Failed "ROOM_SERVER_MISSING", st)
      | Some entry_script =>
          if negb (popen_ok w) then (Failed "ROOM_SERVER_FAILED", st)
          else
            let proc := length (children st) in
            let room :=
              mkRoom room_id (lobby_game_name cfg) version username max_players
                (lobby_host cfg) port proc [username] waiting in
            (Spawned room,
             mkState (rooms st) (room_counter st)
               (children st ++
                  [mkChild entry_script (lobby_host cfg) port max_players
                     (lobby_game_name cfg) room_id]))
      end
  end.

(** The second [with rooms_lock] block, [rooms[room_id] = room], and the reply. *)
Definition create_room_insert (room : Room) (st : State) : Response * State :=
  (make_ok "create_room"
     (DRoom (room_id room) (game_name room) (version room)
        (room_server_host room) (room_server_port room)),
   set_rooms (λ rs, <[room_id room := room]> rs) st).

(** The body of [handle_create_room] once its arguments are read, run
    without a step of another thread between its critical sections. *)
Definition create_room_body (fuel : nat) (cfg : Config) (w : World)
    (username : string) (max_players : Z) (version : string) (st : State)
  : Outcome * State :=
  let '(room_id, st) := _next_room_id st in
  match create_room_check username st with
  | None => (Replied (make_error "create_room" "ALREADY_IN_ROOM"), st)
  | Some taken_ports =>
      match create_room_spawn fuel cfg w room_id username max_players version
              taken_ports st with
      | (Searching, st) => (Running, st)
      | (Failed code, st) => (Replied (make_error "create_room" code), st)
      | (Spawned room, st) =>
          let '(resp, st) := create_room_insert room st in
          (Replied resp, st)
      end
  end.

(** [handle_create_room].  [max_players] is [ArgNone] for a falsy value,
    which [or 2] replaces before [int] is applied; [int] raising leaves
    the handler before a room id is drawn. *)
Definition handle_create_room (fuel : nat) (cfg : Config) (w : World)
    (username : option string) (max_players : IntArg) (version : option string)
    (st : State) : Outcome * State :=
  let username := default "host" (or_str username (Some "host")) in
  let version := default "latest" (or_str version (Some "latest")) in
  match max_players with
  | ArgBad | ArgOverflow => (Raised, st)
  | ArgNone => create_room_body fuel cfg w username 2 version st
  | ArgInt z => create_room_body fuel cfg w username z version st
  end.

Definition handle_join_room (room_id username : option string) (st : State)
  : Response * State :=
  match given_pair room_id username with
  | None => (make_error "join_room" "INVALID_REQUEST", st)
  | Some (rid, user) =>
      if in_waiting_room user (Some rid) st then
        (make_error "join_room" "ALREADY_IN_ROOM", st)
      else
        match rooms st !! rid with
        | None => (make_error "join_room" "ROOM_NOT_FOUND", st)
        | Some room =>
            if negb (bool_decide (status room = waiting)) then
              (make_error "join_room" "ROOM_NOT_JOINABLE", st)
            else if bool_decide (Z.of_nat (length (players room)) >= max_players room)
                    && negb (bool_decide (user ∈ players room)) then
              (make_error "join_room" "ROOM_FULL", st)
            else
              let room' :=
                if bool_decide (user ∈ players room) then room
                else set_players (players room ++ [user]) room in
              (make_ok "join_room"
                 (DRoom (Lobby.room_id room') (game_name room') (version room')
                    (room_server_host room') (room_server_port room')),
               set_rooms (λ rs, <[rid := room']> rs) st)
        end
  end.

(** [room.players = [p for p in room.players if p != username]] when the user is listed. *)
Definition drop_player (username : string) (r : Room) : Room :=
  if bool_decide (username ∈ players r)
  then set_players (filter (λ p, p ≠ username) (players r)) r
  else r.

Definition handle_leave_room (username room_id : option string) (st : State)
  : Response * State :=
  match given username with
  | None => (make_error "leave_room" "INVALID_REQUEST", st)
  | Some user =>
      let '(removed, st') :=
        match given room_id with
        | Some rid =>
            match rooms st !! rid with
            | Some room =>
                (bool_decide (user ∈ players room),
                 set_rooms (λ rs, <[rid := drop_player user room]> rs) st)
            | None => (false, st)
            end
        | None =>
            (existsb (λ room, bool_decide (user ∈ players room)) (values st),
             set_rooms (λ rs, drop_player user <$> rs) st)
        end in
      if removed then
        (make_ok "leave_room" (DLeft (default "" (or_str room_id (Some "")))), st')
      else (make_error "leave_room" "NOT_IN_ROOM", st')
  end.

(** [_monitor_room], once the child [proc] of room [rid] has exited. *)
Definition _monitor_room (rid : string) (proc : nat) (st : State) : State :=
  match rooms st !! rid with
  | Some room =>
      if bool_decide (process room = proc)
      then set_rooms (λ rs, <[rid := set_status closed room]> rs) st
      else st
  | None => st
  end.

(** The operations of the lobby, each under its own view of the world
    and run from its start to its end. *)
Inductive Op :=
| create_room (w : World) (username : option string) (max_players : IntArg)
    (version : option string)
| join_room (room_id username : option string)
| leave_room (username room_id : option string)
| room_exited (rid : string) (proc : nat).

Definition apply (fuel : nat) (cfg : Config) (op : Op) (st : State) : State :=
  match op with
  | create_room w username max_players version =>
      (handle_create_room fuel cfg w username max_players version st).2
  | join_room room_id username => (handle_join_room room_id username st).2
  | leave_room username room_id => (handle_leave_room username room_id st).2
  | room_exited rid proc => _monitor_room rid proc st
  end.

Definition run (fuel : nat) (cfg : Config) (ops : list Op) (st : State) : State :=
  foldl (λ acc op, apply fuel cfg op acc) st ops.

(** *** Calls that overlap *)

(** The lobby serves every connection on a thread of its own, and
    [handle_create_room] gives up [rooms_lock] three times on its way.
    A call in progress, by what it has done: drawn its room id; passed
    the check and copied the ports; started the child and built the
    room. *)
Inductive Pending :=
| Drawn (room_id username : string) (max_players : Z) (version : string)
| Checked (room_id username : string) (max_players : Z) (version : string)
    (taken_ports : list Z)
| Built (room : Room).

(** The table with the [handle_create_room] calls in progress, by thread. *)
Record Threads := mkThreads {
  table : State;
  pending : gmap nat Pending;
}.

Definition start : Threads := mkThreads init ∅.

(** What the scheduler lets happen next: a call from its start to its
    end, or the next critical section (or unlocked stretch) of the
    [handle_create_room] call of thread [t]. *)
Inductive Act :=
| whole (op : Op)
| begin_create (t : nat) (username : option string) (max_players : IntArg)
    (version : option string)
| check_create (t : nat)
| spawn_create (t : nat) (w : World)
| insert_create (t : nat).

Definition act (fuel : nat) (cfg : Config) (a : Act) (th : Threads) : Threads :=
  match a with
  | whole op => mkThreads (apply fuel cfg op (table th)) (pending th)
  | begin_create t username max_players version =>
      let username := default "host" (or_str username (Some "host")) in
      let version := default "latest" (or_str version (Some "latest")) in
      match pending th !! t, int_or_default max_players 2 with
      | None, Some max_players =>
          let '(room_id, st) := _next_room_id (table th) in
          mkThreads st (<[t := Drawn room_id username max_players version]> (pending th))
      | _, _ => th
      end
  | check_create t =>
      match pending th !! t with
      | Some (Drawn room_id username max_players version) =>
          match create_room_check username (table th) with
          | None => mkThreads (table th) (delete t (pending th))
          | Some taken_ports =>
              mkThreads (table th)
                (<[t := Checked room_id username max_players version taken_ports]>
                   (pending th))
          end
      | _ => th
      end
  | spawn_create t w =>
      match pending th !! t with
      | Some (Checked room_id username max_players version taken_ports) =>
          match create_room_spawn fuel cfg w room_id username max_players version
                  taken_ports (table th) with
          | (Searching, st) => mkThreads st (pending th)
          | (Failed _, st) => mkThreads st (delete t (pending th))
          | (Spawned room, st) => mkThreads st (<[t := Built room]> (pending th))
          end
      | _ => th
      end
  | insert_create t =>
      match pending th !! t with
      | Some (Built room) =>
          mkThreads (create_room_insert room (table th)).2 (delete t (pending th))
      | _ => th
      end
  end.

Definition play (fuel : nat) (cfg : Config) (acts : list Act) (th : Threads) : Threads :=
  foldl (λ acc a, act fuel cfg a acc) th acts.

End Lobby.

(** ** The grid-game room server (TTT_GUI/v1/run_room_server.py) *)

Module TTT.
Import Py.

Abbreviation conn := nat.

(** *** Insertion-ordered dictionaries keyed by user name *)

Abbreviation dict V := (list (string * V)).

Definition get {V} (k : string) (d : dict V) : option V :=
  (λ kv, kv.2) <$> find (λ kv, bool_decide (kv.1 = k)) d.

(** [d[k] = v]: in place when the key exists, at the end otherwise. *)
Fixpoint set {V} (k : string) (v : V) (d : dict V) : dict V :=
  match d with
  | [] => [(k, v)]
  | (k', v') :: d' => if bool_decide (k' = k) then (k, v) :: d' else (k', v') :: set k v d'
  end.

(** [d.pop(k, None)]. *)
Definition pop {V} (k : string) (d : dict V) : dict V :=
  filter (λ kv, kv.1 ≠ k) d.

Definition keys {V} (d : dict V) : list string := d.*1.
Definition vals {V} (d : dict V) : list V := d.*2.

(** *** The shared game state *)

Record GameState := mkGame {
  board : list string;
  players : dict string;
  connections : dict conn;
  turn : option string;
  winner : option string;
  active : bool;
  play_again_votes : dict bool;
}.

Definition empty_board : list string := replicate 9 "".

Definition init : GameState := mkGame empty_board [] [] None None true [].

Definition add_player (username : string) (c : conn) (s : GameState)
  : option string * GameState :=
  if bool_decide (2 ≤ length (players s))%nat then (None, s)
  else
    let symbol := if bool_decide ("X" ∉ vals (players s)) then "X" else "O" in
    let players' := set username symbol (players s) in
    let turn' :=
      if bool_decide (length players' = 2%nat) && negb (truthy_str (turn s))
      then head (keys players') else turn s in
    (Some symbol,
     mkGame (board s) players' (set username c (connections s)) turn' (winner s)
       (active s) (play_again_votes s)).

Definition remove_player (username : string) (s : GameState) : GameState :=
  mkGame (board s) (pop username (players s)) (pop username (connections s))
    (if bool_decide (turn s = Some username) then None else turn s)
    (winner s) (active s) (pop username (play_again_votes s)).

Definition reset (s : GameState) : GameState :=
  let turn_candidate :=
    (λ kv, kv.1) <$> find (λ kv : string * string, bool_decide (kv.2 = "X")) (players s) in
  let turn_candidate :=
    if negb (truthy_str turn_candidate) then
      match players s with
      | [] => turn_candidate
      | _ => head (keys (players s))
      end
    else turn_candidate in
  mkGame empty_board (players s) (connections s) turn_candidate None (active s) [].

Definition cell (board : list string) (i : nat) : string := default "" (board !! i).

Definition lines : list (nat * nat * nat) :=
  [(0, 1, 2); (3, 4, 5); (6, 7, 8); (0, 3, 6); (1, 4, 7); (2, 5, 8); (0, 4, 8); (2, 4, 6)]%nat.

Definition check_winner (board : list string) : option string :=
  (λ l : nat * nat * nat, cell board l.1.1) <$>
  find (λ l : nat * nat * nat,
          negb (bool_decide (cell board l.1.1 = ""))
          && bool_decide (cell board l.1.1 = cell board l.1.2)
          && bool_decide (cell board l.1.2 = cell board l.2))
       lines.

(** The [state] message, a snapshot taken when it is serialized. *)
Record Snapshot := mkSnapshot {
  s_board : list string;
  s_turn : option string;
  s_winner : option string;
  s_players : dict string;
  s_players_needed : Z;
  s_play_again_waiting : bool;
}.

Inductive Payload :=
| State (data : Snapshot)
| JoinOk (symbol username : string)
| JoinError.

Definition board_full (board : list string) : bool :=
  forallb (λ c, negb (bool_decide (c = ""))) board.

(** [broadcast]; [send_ok] tells on which connections [sendall] succeeds.
    The result lists the messages delivered. *)
Definition broadcast (send_ok : conn → bool) (payload : Payload) (s : GameState)
  : GameState * list (conn * Payload) :=
  let delivered :=
    omap (λ uc : string * conn, if send_ok uc.2 then Some (uc.2, payload) else None)
         (connections s) in
  let dead :=
    omap (λ uc : string * conn, if send_ok uc.2 then None else Some uc.1) (connections s) in
  let s1 :=
    foldl (λ acc user,
             remove_player user
               (mkGame (board acc) (players acc) (pop user (connections acc)) (turn acc)
                  (winner acc) (active acc) (play_again_votes acc)))
          s dead in
  let s2 :=
    match dead with
    | [] => s1
    | _ =>
        if bool_decide (length (players s1) < 2)%nat
        then mkGame empty_board (players s1) (connections s1) None None (active s1) []
        else s1
    end in
  (s2, delivered).

Definition snapshot (s : GameState) : Snapshot :=
  mkSnapshot (board s) (turn s) (winner s) (players s)
    (Z.max 0 (2 - Z.of_nat (length (players s))))
    (truthy_str (winner s) || board_full (board s)).

Definition send_state (send_ok : conn → bool) (s : GameState)
  : GameState * list (conn * Payload) :=
  broadcast send_ok (State (snapshot s)) s.

(** *** One client connection *)

(** The local variables of [handle_client]. *)
Record Client := mkClient {
  cl_conn : conn;
  cl_username : option string;
}.

(** The [cell] of a [move] is [ArgNone] when the key is absent, which
    [data.get("cell", -1)] replaces; null is one of the values on which
    [int] raises. *)
Inductive Request :=
| join (username : option string)
| move (cell : IntArg)
| play_again (again : bool)
| other.

(** How one round of the loop ends. *)
Inductive Next := continue | break | raised.

Definition set_board (b : list string) (s : GameState) : GameState :=
  mkGame b (players s) (connections s) (turn s) (winner s) (active s) (play_again_votes s).
Definition set_turn (t : option string) (s : GameState) : GameState :=
  mkGame (board s) (players s) (connections s) t (winner s) (active s) (play_again_votes s).
Definition set_winner (x : option string) (s : GameState) : GameState :=
  mkGame (board s) (players s) (connections s) (turn s) x (active s) (play_again_votes s).
Definition set_votes (v : dict bool) (s : GameState) : GameState :=
  mkGame (board s) (players s) (connections s) (turn s) (winner s) (active s) v.
Definition set_active (a : bool) (s : GameState) : GameState :=
  mkGame (board s) (players s) (connections s) (turn s) (winner s) a (play_again_votes s).

(** The body of the [move] branch once its guards have passed. *)
Definition apply_move (username : string) (idx : nat) (s : GameState) : GameState :=
  let s := set_board (<[idx := default "" (get username (players s))]> (board s)) s in
  let others := filter (λ u, u ≠ username) (keys (players s)) in
  let s := set_turn (head others) s in
  match check_winner (board s) with
  | Some win_symbol =>
      match find (λ kv : string * string, bool_decide (kv.2 = win_symbol)) (players s) with
      | Some kv => set_winner (Some kv.1) s
      | None => s
      end
  | None => if board_full (board s) then set_winner (Some "") s else s
  end.

(** One message of [handle_client]'s loop; the direct replies go to the
    client's own connection when [send_ok] allows. *)
Definition handle_message (send_ok : conn → bool) (cl : Client) (req : Request)
    (s : GameState) : Client * GameState * list (conn * Payload) * Next :=
  match req with
  | join username =>
      let username :=
        default "" (or_str username
                      (Some ("player_" +:+ pretty (S (length (players s)))))) in
      let cl := mkClient (cl_conn cl) (Some username) in
      match add_player username (cl_conn cl) s with
      | (None, s) =>
          if send_ok (cl_conn cl) then (cl, s, [(cl_conn cl, JoinError)], break)
          else (cl, s, [], raised)
      | (Some symbol, s) =>
          if send_ok (cl_conn cl) then
            let '(s', out) := send_state send_ok s in
            (cl, s', (cl_conn cl, JoinOk symbol username) :: out, continue)
          else (cl, s, [], raised)
      end
  | move c =>
      match given (cl_username cl) with
      | None => (cl, s, [], continue)
      | Some username =>
          match int_or_default c (-1) with
          | None => (cl, s, [], raised)
          | Some idx =>
              if bool_decide (length (players s) < 2)%nat then (cl, s, [], continue)
              else if truthy_str (winner s) || board_full (board s) then (cl, s, [], continue)
              else if bool_decide (idx < 0) || bool_decide (idx >= 9) then (cl, s, [], continue)
              else if negb (bool_decide (turn s = Some username)) then (cl, s, [], continue)
              else if negb (bool_decide (cell (board s) (Z.to_nat idx) = ""))
              then (cl, s, [], continue)
              else
                let '(s', out) := send_state send_ok (apply_move username (Z.to_nat idx) s) in
                (cl, s', out, continue)
          end
      end
  | play_again again =>
      match given (cl_username cl) with
      | None => (cl, s, [], continue)
      | Some username =>
          let s := set_votes (set username again (play_again_votes s)) s in
          if bool_decide (length (play_again_votes s) < length (players s))%nat
          then (cl, s, [], continue)
          else if negb (forallb id (vals (play_again_votes s)))
          then (cl, set_active false s, [], break)
          else
            let '(s', out) := send_state send_ok (reset s) in
            (cl, s', out, continue)
      end
  | other => (cl, s, [], continue)
  end.

(** The [finally] block of [handle_client]: the disconnect path. *)
Definition handle_client_finally (send_ok : conn → bool) (cl : Client) (s : GameState)
  : GameState * list (conn * Payload) :=
  match given (cl_username cl) with
  | Some username => send_state send_ok (remove_player username s)
  | None => (s, [])
  end.

(** What happens on the room's sockets. *)
Inductive Event :=
| Recv (c : conn) (req : Request)
| Eof (c : conn).

Record Room := mkRoom {
  game : GameState;
  clients : gmap conn Client;
}.

Definition start : Room := mkRoom init ∅.

(** One event, with one pattern [send_ok] for all its sends; a
    connection is known from its first message on. *)
Definition step (send_ok : conn → bool) (ev : Event) (r : Room)
  : Room * list (conn * Payload) :=
  match ev with
  | Recv c req =>
      let cl := default (mkClient c None) (clients r !! c) in
      let '(cl', s, out, next) := handle_message send_ok cl req (game r) in
      match next with
      | continue => (mkRoom s (<[c := cl']> (clients r)), out)
      | _ =>
          let '(s', out') := handle_client_finally send_ok cl' s in
          (mkRoom s' (delete c (clients r)), out ++ out')
      end
  | Eof c =>
      let cl := default (mkClient c None) (clients r !! c) in
      let '(s', out) := handle_client_finally send_ok cl (game r) in
      (mkRoom s' (delete c (clients r)), out)
  end.

Definition run (send_ok : conn → bool) (evs : list Event) (r : Room) : Room :=
  foldl (λ acc ev, (step send_ok ev acc).1) r evs.

(** [step] with the sends of the [finally] block told apart from those
    of the message: the block runs after [conn.close()], so a send on
    the connection [c] itself fails there, and the others follow
    [closing]. *)
Definition closed (c : conn) (closing : conn → bool) : conn → bool :=
  λ c', negb (bool_decide (c' = c)) && closing c'.

Definition step_closing (send_ok closing : conn → bool) (ev : Event) (r : Room)
  : Room * list (conn * Payload) :=
  match ev with
  | Recv c req =>
      let cl := default (mkClient c None) (clients r !! c) in
      let '(cl', s, out, next) := handle_message send_ok cl req (game r) in
      match next with
      | continue => (mkRoom s (<[c := cl']> (clients r)), out)
      | _ =>
          let '(s', out') := handle_client_finally (closed c closing) cl' s in
          (mkRoom s' (delete c (clients r)), out ++ out')
      end
  | Eof c =>
      let cl := default (mkClient c None) (clients r !! c) in
      let '(s', out) := handle_client_finally (closed c closing) cl (game r) in
      (mkRoom s' (delete c (clients r)), out)
  end.

(** A history in which every event comes with its own two patterns of
    successful sends. *)
Definition play (evs : list ((conn → bool) * (conn → bool) * Event)) (r : Room) : Room :=
  foldl (λ acc e, (step_closing e.1.1 e.1.2 e.2 acc).1) r evs.

End TTT.

(** ** Vocabulary of the statements *)

Module Spec.
Import Py.




(** The scores of the comments recorded for a game, in file order. *)
Definition scores (game_name : string) (db : Db.t) : list Z :=
  Db.c_score <$> filter (λ c, Db.c_game_name c = game_name) (Db.comments db).

(** [round(mean(scores), 1)], or [null] without scores. *)
Definition rating (scores : list Z) : option pynum :=
  match scores with
  | [] => None
  | _ => Some (round (mean scores) 1)
  end.

(** The [rating] field of a reply, when the reply has one. *)
Definition reply_rating (out : list Central.Sent) : option (option pynum) :=
  match out with
  | [Central.send_json (Central.make_ok _ _ (Central.DGameDetail _ _ _ r))] => Some r
  | [Central.send_json (Central.make_ok _ _ (Central.DComments _ _ r))] => Some r
  | _ => None
  end.

(** The error code of a reply that is a single error. *)
Definition reply_error (out : list Central.Sent) : option string :=
  match out with
  | [Central.send_json (Central.make_error _ _ code)] => Some code
  | _ => None
  end.

(** The raw bytes streamed after the first JSON line. *)
Definition streamed (out : list Central.Sent) : bytes :=
  concat (omap (λ s, match s with Central.sendall chunk => Some chunk | _ => None end) out).

(** The store after a successful extraction: the record is upserted
    with the description found in the extracted [game_config.json]. *)
Definition recorded (w : Central.World) (user gn ver fnm : string) (mn mx : Z) (st : Central.State) : Central.State :=
  let extract_dir := (Db.STORAGE_DIR ++ [gn]) ++ ["extracted"] in
  Central.set_db (λ d, (Db.upsert_game gn ver fnm (Some user)
                  match Fs.files (Central.fs st) !! (extract_dir ++ ["game_config.json"]) with
                  | Some text => default "" (Central.config_description w text)
                  | None => ""
                  end (Some extract_dir) (Some mn) (Some mx) d).2) st.

(** The disk once the payload is stored and the extraction directory
    is emptied, and then once the members have been written. *)
Definition stored (gn fnm : string) (B : bytes) (st : Central.State) : Central.State :=
  let storage_dir := Db.STORAGE_DIR ++ [gn] in
  Central.set_fs (Fs.fresh_dir (storage_dir ++ ["extracted"]))
    (Central.set_fs (Fs.write_file (storage_dir ++ [fnm]) B) (Central.set_fs (Fs.mkdir storage_dir) st)).

Definition extracted (w : Central.World) (gn fnm : string) (B : bytes) (st : Central.State) : Central.State :=
  Central.set_fs (Fs.write_tree ((Db.STORAGE_DIR ++ [gn]) ++ ["extracted"]) (Central.zip_extract w B).1)
    (stored gn fnm B st).

(** An [upload_game_file] header the server accepts from [user]: the
    session is authenticated, the fields are present, the players range
    [mn..mx] it denotes is valid, and no other author owns the name. *)
Definition header_accepted (ctx : Central.ClientContext) (st : Central.State)
    (user gn ver fnm : string) (min max : IntArg) (mn mx : Z) : Prop :=
  given (Central.ctx_username ctx) = Some user
  ∧ gn ≠ "" ∧ ver ≠ "" ∧ fnm ≠ ""
  ∧ int_or_default min 1 = Some mn
  ∧ int_or_default max (Z.max mn 4) = Some mx
  ∧ 1 ≤ mn ≤ mx
  ∧ Central.other_author user gn st = false.

(** The storage directory of the game can be made, the archive path is
    not a directory, and the extraction path of the game is not a
    regular file (nor the archive itself). *)
Definition paths_clear (gn fnm : string) (st : Central.State) : Prop :=
  Fs.blocked (Db.STORAGE_DIR ++ [gn]) (Central.fs st) = false
  ∧ Fs.is_dir ((Db.STORAGE_DIR ++ [gn]) ++ [fnm]) (Central.fs st) = false
  ∧ Fs.is_file ((Db.STORAGE_DIR ++ [gn]) ++ ["extracted"]) (Central.fs st) = false
  ∧ fnm ≠ "extracted".

(** Every [read] of up to [size] bytes finds the memory for its result. *)
Definition readable (w : Central.World) (size : Z) : Prop :=
  ∀ n, 0 < n ≤ size → Central.read_fits w n = true.






(** The game and file names of an upload, and the game name of a
    deletion, are single path components. *)
Definition plain_request (m : Central.Message) : bool :=
  match m with
  | Central.MDev (Central.UploadGameFile n _ f _ _ _) =>
      match given n, given f with
      | Some n, Some f => plain_name n && plain_name f
      | _, _ => true
      end
  | Central.MDev (Central.DeleteGame n) =>
      match given n with
      | Some n => plain_name n
      | None => true
      end
  | _ => true
  end.


(** [username] is listed in the waiting room stored under [rid]. *)
Definition in_waiting (username rid : string) (st : Lobby.State) : Prop :=
  ∃ r, Lobby.rooms st !! rid = Some r
       ∧ Lobby.status r = Lobby.waiting
       ∧ username ∈ Lobby.players r.

(** A user name appears in at most one waiting room. *)
Definition room_unique (st : Lobby.State) : Prop :=
  ∀ username rid1 rid2,
    in_waiting username rid1 st → in_waiting username rid2 st → rid1 = rid2.

(** Every room is stored under its own [room_id]. *)
Definition keyed (st : Lobby.State) : Prop :=
  ∀ rid r, Lobby.rooms st !! rid = Some r → Lobby.room_id r = rid.

(** The session tables of a state. *)
Definition auth_part (st : Central.State) := (Central.clients st, Central.active_usernames st).

(** Connection [c] has a live session logged in as [u]. *)
Definition holder (sys : Central.System) (c : Central.conn) (u : string) : Prop :=
  ∃ ctx, Central.sessions sys !! c = Some ctx ∧ given (Central.ctx_username ctx) = Some u.

(** Every logged-in name is active, and held by one connection. *)
Definition sessions_ok (sys : Central.System) : Prop :=
  (∀ c u, holder sys c u → u ∈ Central.active_usernames (Central.sys_state sys))
  ∧ (∀ c1 c2 u, holder sys c1 u → holder sys c2 u → c1 = c2).

(** What one request does to the session's user name and to the set of
    active names: nothing, a login of a name that was not active, or the
    logout of the session's own name. *)
Inductive auth_effect (m : Central.Message) (name : option string) (act : gset string)
  : option string → gset string → Prop :=
| effect_none : auth_effect m name act name act
| effect_login u p :
    m = Central.MAuth (Central.Login (Some u) p) → u ≠ "" → u ∉ act →
    auth_effect m name act (Some u) ({[u]} ∪ act)
| effect_logout v :
    m = Central.MAuth Central.Logout → given name = Some v →
    auth_effect m name act None (act ∖ {[v]}).

(** [u] is active and no connection other than [a] is logged in as [u]. *)
Definition held_by (a : Central.conn) (u : string) (sys : Central.System) : Prop :=
  u ∈ Central.active_usernames (Central.sys_state sys) ∧ ∀ c, c ≠ a → ¬ holder sys c u.

(** The event is a [logout] request on connection [a]. *)
Definition logout_on (a : Central.conn) (ev : Central.Event) : Prop :=
  ∃ rest, ev = Central.Recv a (Central.MAuth Central.Logout) rest.


(** The loop shared by the two port allocators: the first port from
    [port] upwards that is [free], within [fuel] rounds. *)
Fixpoint first_free (fuel : nat) (free : Z → bool) (port : Z) : option Z :=
  match fuel with
  | O => None
  | S fuel' => if free port then Some port else first_free fuel' free (port + 1)
  end.

(** A port the central allocator may return: not taken, and bindable. *)
Definition central_free (w : Central.World) (taken : gset Z) (port : Z) : bool :=
  bool_decide (port ∉ taken) && Central.port_available w port.

(** A port the lobby allocator may return: not taken, and bindable on [host]. *)
Definition lobby_free (w : Lobby.World) (host : string) (taken : list Z) (port : Z) : bool :=
  bool_decide (port ∉ taken) && Lobby.port_available w host port.

End Spec.

(** ** Concrete worlds and histories used by the examples *)

Module Scenario.
Import Py.

(** A zip archive of 135 bytes with one stored member,
    [run_room_server.py], of the single byte [#]: the local header and
    the member, the central directory, the end record.  And a payload,
    [hello], that is no archive. *)
Definition archive : bytes :=
  [Byte.x50; Byte.x4b; Byte.x03; Byte.x04; Byte.x14; Byte.x00; Byte.x00; Byte.x00; Byte.x00;
   Byte.x00; Byte.x00; Byte.x00; Byte.x21; Byte.x00; Byte.xff; Byte.x9e; Byte.x65; Byte.x70;
   Byte.x01; Byte.x00; Byte.x00; Byte.x00; Byte.x01; Byte.x00; Byte.x00; Byte.x00; Byte.x12;
   Byte.x00; Byte.x00; Byte.x00; Byte.x72; Byte.x75; Byte.x6e; Byte.x5f; Byte.x72; Byte.x6f;
   Byte.x6f; Byte.x6d; Byte.x5f; Byte.x73; Byte.x65; Byte.x72; Byte.x76; Byte.x65; Byte.x72;
   Byte.x2e; Byte.x70; Byte.x79; Byte.x23; Byte.x50; Byte.x4b; Byte.x01; Byte.x02; Byte.x14;
   Byte.x03; Byte.x14; Byte.x00; Byte.x00; Byte.x00; Byte.x00; Byte.x00; Byte.x00; Byte.x00;
   Byte.x21; Byte.x00; Byte.xff; Byte.x9e; Byte.x65; Byte.x70; Byte.x01; Byte.x00; Byte.x00;
   Byte.x00; Byte.x01; Byte.x00; Byte.x00; Byte.x00; Byte.x12; Byte.x00; Byte.x00; Byte.x00;
   Byte.x00; Byte.x00; Byte.x00; Byte.x00; Byte.x00; Byte.x00; Byte.x00; Byte.x00; Byte.xa4;
   Byte.x01; Byte.x00; Byte.x00; Byte.x00; Byte.x00; Byte.x72; Byte.x75; Byte.x6e; Byte.x5f;
   Byte.x72; Byte.x6f; Byte.x6f; Byte.x6d; Byte.x5f; Byte.x73; Byte.x65; Byte.x72; Byte.x76;
   Byte.x65; Byte.x72; Byte.x2e; Byte.x70; Byte.x79; Byte.x50; Byte.x4b; Byte.x05; Byte.x06;
   Byte.x00; Byte.x00; Byte.x00; Byte.x00; Byte.x01; Byte.x00; Byte.x01; Byte.x00; Byte.x40;
   Byte.x00; Byte.x00; Byte.x00; Byte.x31; Byte.x00; Byte.x00; Byte.x00; Byte.x00; Byte.x00].
Definition junk : bytes := [Byte.x68; Byte.x65; Byte.x6c; Byte.x6c; Byte.x6f].

(** The world of the histories below, whose payloads are [archive] and
    [junk]: [archive] extracts to its member and nothing else is taken
    for an archive; no configuration file parses; every port binds,
    every child runs, and reads of up to 64 KiB find their memory. *)
Definition world : Central.World :=
  Central.mkWorld
    (λ b, if bool_decide (b = archive)
          then ([(["run_room_server.py"], [Byte.x23])], true)
          else ([], false))
    (λ _, None)
    (λ _, true)
    (λ _, true)
    true
    (λ _, 4096)
    (λ n, n <=? 65536).

Definition register (c : Central.conn) (u p : string) : Central.World * Central.Event :=
  (world, Central.Recv c (Central.MAuth (Central.Register (Some u) (Some p))) []).
Definition login (c : Central.conn) (u p : string) : Central.World * Central.Event :=
  (world, Central.Recv c (Central.MAuth (Central.Login (Some u) (Some p))) []).
Definition accept (c : Central.conn) : Central.World * Central.Event :=
  (world, Central.Accept c).
Definition eof (c : Central.conn) : Central.World * Central.Event :=
  (world, Central.Eof c).

(** [upload_game_file] of [payload] as [g.zip] for game [g], 2 to 4 players. *)
Definition upload (c : Central.conn) (payload : bytes) : Central.World * Central.Event :=
  (world,
   Central.Recv c
     (Central.MDev (Central.UploadGameFile (Some "g") (Some "1") (Some "g.zip")
                      (Some (Z.of_nat (length payload))) (ArgInt 2) (ArgInt 4)))
     payload).

(** Alice registers and logs in on connection 1. *)
Definition alice_in : Central.System :=
  Central.run 0 Central.default_config
    [accept 1%nat; register 1%nat "alice" "pw"; login 1%nat "alice" "pw"] Central.boot.

(** Alice is registered; two clients connect and log in as alice at
    the same time, and both pass the check of the active names before
    either has entered its session. *)
Definition racing_logins : list Central.Turn :=
  [Central.Whole world (Central.Accept 1%nat);
   Central.Whole world
     (Central.Recv 1%nat (Central.MAuth (Central.Register (Some "alice") (Some "pw"))) []);
   Central.Whole world (Central.Accept 2%nat);
   Central.LoginCheck 1%nat (Some "alice") (Some "pw") [];
   Central.LoginCheck 2%nat (Some "alice") (Some "pw") [];
   Central.LoginCommit 1%nat;
   Central.LoginCommit 2%nat].

(** The same requests, the second login served after the first. *)
Definition logins_in_turn : list Central.Turn :=
  [Central.Whole world (Central.Accept 1%nat);
   Central.Whole world
     (Central.Recv 1%nat (Central.MAuth (Central.Register (Some "alice") (Some "pw"))) []);
   Central.Whole world (Central.Accept 2%nat);
   Central.LoginCheck 1%nat (Some "alice") (Some "pw") [];
   Central.LoginCommit 1%nat;
   Central.LoginCheck 2%nat (Some "alice") (Some "pw") [];
   Central.LoginCommit 2%nat].

(** Alice and bob are logged in, on connections 1 and 2. *)
Definition two_in : Central.System :=
  Central.run 0 Central.default_config
    [accept 2%nat; register 2%nat "bob" "pw"; login 2%nat "bob" "pw"] alice_in.

(** [add_comment] on game [g] with an integer score. *)
Definition comment (c : Central.conn) (score : Z) : Central.World * Central.Event :=
  (world, Central.Recv c (Central.MStore (Central.AddComment (Some "g") (ArgInt score) "")) []).

Definition launch (c : Central.conn) : Central.World * Central.Event :=
  (world, Central.Recv c (Central.MDev (Central.LaunchGameServer (Some "g"))) []).

(** Alice has uploaded [g] as a valid archive. *)
Definition g_uploaded : Central.System :=
  Central.run 0 Central.default_config [upload 1%nat archive] alice_in.

(** Alice has uploaded [g] and launched its lobby. *)
Definition g_running : Central.System :=
  Central.run 1 Central.default_config [launch 1%nat] g_uploaded.

(** The context of connection [c] in [sys]. *)
Definition ctx_of (c : Central.conn) (sys : Central.System) : Central.ClientContext :=
  default (Central.mkCtx c [] None) (Central.sessions sys !! c).

(** A room in which every send succeeds; alice joins on connection 1
    and bob on connection 2, alice plays cell 0 and bob cell 4. *)
Definition all_sent : TTT.conn → bool := λ _, true.

Definition seated : TTT.Room :=
  TTT.run all_sent
    [TTT.Recv 1%nat (TTT.join (Some "alice")); TTT.Recv 2%nat (TTT.join (Some "bob"))]
    TTT.start.

(** Alice and bob play the given cells in turn, alice first. *)
Fixpoint plays (first : bool) (cells : list Z) : list TTT.Event :=
  match cells with
  | [] => []
  | c :: cells' =>
      TTT.Recv (if first then 1%nat else 2%nat) (TTT.move (ArgInt c)) :: plays (negb first) cells'
  end.

(** A lobby for game [g] whose ports all bind and whose entry script exists. *)
Definition lobby_world : Lobby.World := Lobby.mkWorld (λ _ _, true) (λ _, true) true.
Definition lobby_config : Lobby.Config :=
  Lobby.mkConfig "0.0.0.0" 12000 "g" ["db"; "storage"; "g"; "extracted"] "run_room_server.py".

(** The same lobby once a room server has bound port 12000. *)
Definition lobby_world_bound : Lobby.World :=
  Lobby.mkWorld (λ _ p, negb (bool_decide (p = 12000))) (λ _, true) true.

(** Two [create_room] requests for alice, served by the threads 1 and 2
    at the same time: both draw their ids and pass the check before
    either stores its room. *)
Definition racing_creates : list Lobby.Act :=
  [Lobby.begin_create 1 (Some "alice") (ArgInt 2) None;
   Lobby.begin_create 2 (Some "alice") (ArgInt 2) None;
   Lobby.check_create 1; Lobby.check_create 2;
   Lobby.spawn_create 1 lobby_world; Lobby.insert_create 1;
   Lobby.spawn_create 2 lobby_world_bound; Lobby.insert_create 2].

(** Alice creates a room for two and bob joins it. *)
Definition room_of_two : Lobby.State :=
  Lobby.run 1 lobby_config
    [Lobby.create_room lobby_world (Some "alice") (ArgInt 2) None;
     Lobby.join_room (Some "R1") (Some "bob")]
    Lobby.init.

Definition two_moves : TTT.Room :=
  TTT.run all_sent
    [TTT.Recv 1%nat (TTT.join (Some "alice")); TTT.Recv 2%nat (TTT.join (Some "bob"));
     TTT.Recv 1%nat (TTT.move (ArgInt 0)); TTT.Recv 2%nat (TTT.move (ArgInt 4))]
    TTT.start.

End Scenario.

(** ** Vocabulary of the invariants *)

(** The keys under which the store keeps its users and comments. *)
Module DbView.
Import Py.

(** The user names of a store, and the (game, user) keys of its comments. *)
Definition usernames (db : Db.t) : list string := Db.u_username <$> Db.users db.

End DbView.

(** The lobby table of the central server, and what happens to it. *)
Module LobbyTable.
Import Py.

(** What the central server reacts to: an event on a client socket, or
    the exit of a lobby child, seen by its [_monitor_lobby] thread. *)
Inductive Tick :=
| Client (w : Central.World) (ev : Central.Event)
| Exited (lobby : Central.LobbyProcess).

Definition tick (fuel : nat) (cfg : Central.Config) (t : Tick) (sys : Central.System)
  : Central.System :=
  match t with
  | Client w ev => (Central.step fuel cfg w ev sys).1
  | Exited lobby =>
      Central.mkSystem (Central._monitor_lobby lobby (Central.sys_state sys))
        (Central.sessions sys)
  end.

Definition ticks (fuel : nat) (cfg : Central.Config) (ts : list Tick) (sys : Central.System)
  : Central.System :=
  foldl (λ s t, tick fuel cfg t s) sys ts.

(** Every lobby entry is stored under its game's name and its handle
    is the child started for that game on the entry's host and port. *)
Definition lobbies_tracked (st : Central.State) : Prop :=
  ∀ n l, Central.lobbies st !! n = Some l →
    Central.lp_game_name l = n
    ∧ ∃ c, Central.children st !! Central.lp_process l = Some c
           ∧ Central.ch_game_name c = n
           ∧ Central.ch_host c = Central.lp_host l
           ∧ Central.ch_port c = Central.lp_port l.

(** No two entries of the lobby table have the same port. *)
Definition lobby_ports_distinct (st : Central.State) : Prop :=
  ∀ n1 n2 l1 l2,
    Central.lobbies st !! n1 = Some l1 → Central.lobbies st !! n2 = Some l2 →
    Central.lp_port l1 = Central.lp_port l2 → n1 = n2.

(** What one call does to the lobby table and to the children started:
    nothing, the removal of an entry, or the start of one child on a
    port that no entry has. *)
Inductive lobby_change (st st' : Central.State) : Prop :=
| lobbies_same :
    Central.lobbies st' = Central.lobbies st →
    Central.children st' = Central.children st → lobby_change st st'
| lobby_removed n :
    Central.lobbies st' = delete n (Central.lobbies st) →
    Central.children st' = Central.children st → lobby_change st st'
| lobby_started n host port rps dir :
    (∀ n' l, Central.lobbies st !! n' = Some l → Central.lp_port l ≠ port) →
    Central.lobbies st'
    = <[n := Central.mkLobby n (length (Central.children st)) host port]> (Central.lobbies st) →
    Central.children st' = Central.children st ++ [Central.mkChild host port rps dir n] →
    lobby_change st st'.

End LobbyTable.

(** The room table of a lobby, and what happens to it. *)
Module RoomTable.
Import Py Lobby.

(** What stays of a room for as long as the lobby runs: its id, game,
    version, host, capacity, address and child; and a closed room stays
    closed. *)
Definition room_persists (r r' : Room) : Prop :=
  room_id r' = room_id r ∧ game_name r' = game_name r ∧ version r' = version r
  ∧ host_username r' = host_username r ∧ max_players r' = max_players r
  ∧ room_server_host r' = room_server_host r
  ∧ room_server_port r' = room_server_port r
  ∧ process r' = process r
  ∧ (status r = closed → status r' = closed).

(** A room as the lobby keeps it: stored under its own id, which is
    [R<k>] for a [k] already drawn from the counter; no player listed
    twice; at most [max_players] players (one, the host, when
    [max_players] is below one); and its handle is the child started
    for it on its port. *)
Definition room_wf (st : State) (rid : string) (r : Room) : Prop :=
  room_id r = rid
  ∧ (∃ k, rid = "R" +:+ pretty k ∧ (1 ≤ k ≤ room_counter st)%nat)
  ∧ NoDup (players r)
  ∧ Z.of_nat (length (players r)) ≤ Z.max 1 (max_players r)
  ∧ ∃ c, children st !! process r = Some c
         ∧ ch_room_id c = rid
         ∧ ch_port c = room_server_port r
         ∧ ch_max_players c = max_players r.

Definition rooms_wf (st : State) : Prop :=
  ∀ rid r, rooms st !! rid = Some r → room_wf st rid r.

(** A [handle_create_room] call in progress: its id is [R<k>] for a
    [k] already drawn from the counter, and a room that is built is a
    room as the lobby keeps it. *)
Definition pending_wf (st : State) (p : Pending) : Prop :=
  match p with
  | Drawn rid _ _ _ | Checked rid _ _ _ _ =>
      ∃ k, rid = "R" +:+ pretty k ∧ (1 ≤ k ≤ room_counter st)%nat
  | Built room => room_wf st (room_id room) room
  end.

Definition threads_wf (th : Threads) : Prop :=
  rooms_wf (table th) ∧ ∀ t p, pending th !! t = Some p → pending_wf (table th) p.

(** No two rooms, open or closed, have the same room-server port. *)
Definition room_ports_distinct (st : State) : Prop :=
  ∀ rid1 rid2 r1 r2,
    rooms st !! rid1 = Some r1 → rooms st !! rid2 = Some r2 →
    room_server_port r1 = room_server_port r2 → rid1 = rid2.

(** How a room changes in place: what persists persists, the players
    stay distinct and within the capacity. *)
Definition room_evolves (r r' : Room) : Prop :=
  room_persists r r'
  ∧ (NoDup (players r) → NoDup (players r'))
  ∧ (Z.of_nat (length (players r)) ≤ Z.max 1 (max_players r) →
     Z.of_nat (length (players r')) ≤ Z.max 1 (max_players r)).

(** What one call does to the table: its rooms change in place, or one
    room is added under the next id with a new child on a port that no
    room has. *)
Inductive table_step (st st' : State) : Prop :=
| rooms_evolve :
    (room_counter st ≤ room_counter st')%nat →
    children st' = children st →
    (∀ rid, match rooms st !! rid, rooms st' !! rid with
            | Some r, Some r' => room_evolves r r'
            | None, None => True
            | _, _ => False
            end) →
    table_step st st'
| room_added room child :
    room_counter st' = S (room_counter st) →
    room_id room = "R" +:+ pretty (S (room_counter st)) →
    rooms st' = <[room_id room := room]> (rooms st) →
    children st' = children st ++ [child] →
    process room = length (children st) →
    length (players room) = 1%nat →
    ch_room_id child = room_id room →
    ch_port child = room_server_port room →
    ch_max_players child = max_players room →
    (∀ rid r, rooms st !! rid = Some r → room_server_port r ≠ room_server_port room) →
    table_step st st'.

End RoomTable.

(** The seating, the moves and the result of a grid-game room. *)
Module Seating.
Import Py TTT.

(** The seating of a grid-game room: at most two players under distinct
    non-empty names, with distinct marks among [X] and [O]; a connection
    per player; a board of nine cells, each empty or a mark; and the
    turn, when set, is a seated player's. *)
Definition seating_ok (s : GameState) : Prop :=
  (length (players s) ≤ 2)%nat
  ∧ NoDup (keys (players s))
  ∧ NoDup (vals (players s))
  ∧ (∀ m, m ∈ vals (players s) → m = "X" ∨ m = "O")
  ∧ ("" ∉ keys (players s))
  ∧ keys (connections s) = keys (players s)
  ∧ length (board s) = 9%nat
  ∧ (∀ c, c ∈ board s → c = "" ∨ c = "X" ∨ c = "O")
  ∧ (∀ u, turn s = Some u → u ∈ keys (players s)).

(** The guards of the [move] branch, for the player [u] and the cell [idx]. *)
Definition legal_move (u : string) (idx : Z) (s : GameState) : bool :=
  bool_decide (length (players s) = 2%nat)
  && negb (truthy_str (winner s) || board_full (board s))
  && bool_decide (0 ≤ idx < 9)
  && bool_decide (turn s = Some u)
  && bool_decide (cell (board s) (Z.to_nat idx) = "").

(** The declared result agrees with the board: a draw (the empty name)
    needs a full board without a line, a winner needs a line of three
    equal marks. *)
Definition result_ok (s : GameState) : Prop :=
  (winner s = Some "" → board_full (board s) = true ∧ check_winner (board s) = None)
  ∧ (∀ w, winner s = Some w → w ≠ "" →
       ∃ m i j k, (i, j, k) ∈ lines ∧ (m = "X" ∨ m = "O")
                  ∧ cell (board s) i = m ∧ cell (board s) j = m ∧ cell (board s) k = m).

End Seating.

(** * Properties *)

(** ** The metadata store *)

Section db_facts.
Import Py Db Spec.


Lemma given_Some o s : given o = Some s ↔ o = Some s ∧ s ≠ "".
Proof.
  unfold given, truthy_str. destruct o as [s'|]; [|by split; [|intros []]].
  destruct (decide (s' = "")) as [He|He].
  - rewrite (bool_decide_eq_true_2 _ He). simpl. split; [done|].
    intros [[= ->] ?]. done.
  - rewrite (bool_decide_eq_false_2 _ He). simpl. split.
    + intros [= ->]. done.
    + by intros [-> _].
Qed.

Lemma given_nonempty s : s ≠ "" → given (Some s) = Some s.
Proof. intros. by apply given_Some. Qed.














End db_facts.

Section removal_facts.
Import Py Db.

Lemma find_filter_out {A} (p : A → bool) (Q : A → Prop) `{∀ x, Decision (Q x)} (l : list A) :
  (∀ x, p x = true → ¬ Q x) → find p (filter Q l) = None.
Proof.
  intros Hp. induction l as [|x l IH]; [done|].
  rewrite filter_cons. destruct (decide (Q x)) as [Hq|]; [|done].
  simpl. destruct (p x) eqn:Hx; [|done]. by destruct (Hp x).
Qed.

Lemma find_filter_keep {A} (p : A → bool) (Q : A → Prop) `{∀ x, Decision (Q x)} (l : list A) :
  (∀ x, p x = true → Q x) → find p (filter Q l) = find p l.
Proof.
  intros Hp. induction l as [|x l IH]; [done|].
  rewrite filter_cons. simpl. destruct (p x) eqn:Hx.
  - rewrite decide_True by auto. simpl. by rewrite Hx.
  - destruct (decide (Q x)); [|done]. simpl. by rewrite Hx.
Qed.

Lemma filter_filter_comm_keep {A} (P Q : A → Prop) `{∀ x, Decision (P x)} `{∀ x, Decision (Q x)}
    (l : list A) :
  (∀ x, P x → Q x) → filter P (filter Q l) = filter P l.
Proof.
  intros HPQ. induction l as [|x l IH]; [done|].
  rewrite !filter_cons. destruct (decide (Q x)) as [Hq|Hq].
  - rewrite filter_cons. destruct (decide (P x)); by rewrite IH.
  - rewrite decide_False by auto. done.
Qed.

End removal_facts.



(** ** Comments and ratings *)

Section comment_facts.
Import Py Db Spec Central.

Lemma list_comments_scores n db : c_score <$> list_comments n db = scores n db.
Proof. done. Qed.

Lemma mean_raises_nil : mean_raises [] = false.
Proof. done. Qed.

Lemma rating_val_scores cs :
  rating_val cs = if mean_raises (c_score <$> cs) then None else rating (c_score <$> cs).
Proof.
  destruct cs as [|c cs]; [cbn [fmap list_fmap]; by rewrite mean_raises_nil|].
  unfold rating_val, rating. cbn [fmap list_fmap]. by destruct (mean_raises _).
Qed.

Lemma rating_nil_inv xs : rating xs = None → xs = [].
Proof. by destruct xs. Qed.


Lemma filter_excluded {A} (P Q : A → Prop) `{∀ x, Decision (P x)} `{∀ x, Decision (Q x)}
    (l : list A) :
  (∀ x, P x → Q x → False) → filter P (filter Q l) = [].
Proof.
  intros HPQ. induction l as [|x l IH]; [done|].
  rewrite filter_cons. destruct (decide (Q x)); [|done].
  rewrite filter_cons. destruct (decide (P x)); [|done].
  exfalso. eauto.
Qed.

End comment_facts.

(** C9, counterexample.  Alice has commented on game [g] with the score
    [10^400]; bob, logged in on connection 2, adds a comment with the
    score 1.  The scores recorded are then [10^400] and 1, whose mean is
    no integer and overflows a float: [statistics.mean] raises, the
    handler catches it, and the rating of the reply is [null]. *)
Lemma rating_of_huge_scores_is_null :
  let sys := Central.run 0 Central.default_config
               [Scenario.comment 1%nat (10 ^ 400)] Scenario.two_in in
  let r := Central.handle_store Scenario.world (Scenario.ctx_of 2%nat sys)
             (Central.AddComment (Some "g") (Py.ArgInt 1) "")
             (Central.sys_state sys) in
  Spec.scores "g" (Central.db (Central.r_state r)) = [10 ^ 400; 1]
  ∧ Spec.reply_rating (Central.r_out r) = Some None
  ∧ Spec.reply_rating (Central.r_out r)
    ≠ Some (Spec.rating (Spec.scores "g" (Central.db (Central.r_state r)))).
Proof.
  intros sys r.
  assert (Spec.scores "g" (Central.db (Central.r_state r)) = [10 ^ 400; 1]) as Hs
    by (vm_compute; reflexivity).
  assert (Spec.reply_rating (Central.r_out r) = Some None) as Hr
    by (vm_compute; reflexivity).
  split; [exact Hs|]. split; [exact Hr|].
  rewrite Hr, Hs. discriminate.
Qed.

(** C9, amended.  For an authenticated session, the [rating] that
    [get_game_detail] returns for an existing game, and the one in
    [add_comment]'s response, is [round(mean(scores), 1)] over the
    scores of all comments then recorded for that game unless
    [statistics.mean] raises on them, and it is [null] in that case and
    when there are no comments. *)
Theorem rating_is_rounded_mean_unless_mean_raises :
  (∀ w ctx st user name game,
     Py.given (Central.ctx_username ctx) = Some user →
     name ≠ "" →
     Db.get_game name (Central.db st) = Some game →
     let r := Central.handle_store w ctx (Central.GetGameDetail (Some name)) st in
     let xs := Spec.scores name (Central.db st) in
     (Py.mean_raises xs = false → Spec.reply_rating (Central.r_out r) = Some (Spec.rating xs))
     ∧ (Py.mean_raises xs = true → Spec.reply_rating (Central.r_out r) = Some None)
     ∧ (xs = [] → Spec.reply_rating (Central.r_out r) = Some None))
  ∧ (∀ w ctx st user name z text,
       Py.given (Central.ctx_username ctx) = Some user →
       name ≠ "" →
       let r := Central.handle_store w ctx
                  (Central.AddComment (Some name) (Py.ArgInt z) text) st in
       let xs := Spec.scores name (Central.db (Central.r_state r)) in
       (Py.mean_raises xs = false → Spec.reply_rating (Central.r_out r) = Some (Spec.rating xs))
       ∧ (Py.mean_raises xs = true → Spec.reply_rating (Central.r_out r) = Some None)).
Proof.
  split.
  - intros w ctx st user name game Hu Hn Hg r xs. subst r xs.
    unfold Central.handle_store. rewrite Hu, (given_nonempty _ Hn). simpl.
    rewrite Hg. simpl. rewrite rating_val_scores, list_comments_scores.
    split; [by intros ->|]. split; [by intros ->|].
    intros ->. by rewrite mean_raises_nil.
  - intros w ctx st user name z text Hu Hn r xs. subst r xs.
    unfold Central.handle_store. rewrite Hu, (given_nonempty _ Hn). simpl.
    rewrite rating_val_scores, list_comments_scores.
    split; by intros ->.
Qed.

Lemma rating_is_rounded_mean_unless_mean_raises_witness :
  let st := Central.sys_state Scenario.alice_in in
  let ctx := Scenario.ctx_of 1%nat Scenario.alice_in in
  let r := Central.handle_store Scenario.world ctx
             (Central.AddComment (Some "g") (Py.ArgInt 4) "fun") st in
  Spec.reply_rating (Central.r_out r)
  = Some (Spec.rating (Spec.scores "g" (Central.db (Central.r_state r)))).
Proof.
  intros st ctx.
  apply (proj2 rating_is_rounded_mean_unless_mean_raises Scenario.world ctx st "alice" "g" 4
           "fun");
    [vm_compute; reflexivity | done | vm_compute; reflexivity].
Defined.

Example scenario_alice_in :
  Central.ctx_username (Scenario.ctx_of 1%nat Scenario.alice_in) = Some "alice"
  ∧ Central.active_usernames (Central.sys_state Scenario.alice_in) = {["alice"]}.
Proof. split; vm_compute; reflexivity. Qed.

(** ** Scores of comments *)




(** ** The port allocators *)

Section port_facts.
Import Spec.

Lemma central_find_free_port_first_free fuel w b (T : gset Z) :
  Central._find_free_port fuel w b T = first_free fuel (central_free w T) b.
Proof.
  revert b. induction fuel as [|fuel IH]; intros b; [done|].
  simpl. unfold central_free at 1. by rewrite IH.
Qed.

Lemma lobby_find_free_port_first_free fuel w host b (T : list Z) :
  Lobby._find_free_port fuel w host b T = first_free fuel (lobby_free w host T) b.
Proof.
  revert b. induction fuel as [|fuel IH]; intros b; [done|].
  simpl. unfold lobby_free at 1. by rewrite IH.
Qed.

Section search.
Variable free : Z → bool.

(** Whatever the fuel, a returned port is the least free one from the base. *)
Lemma first_free_sound fuel b q :
  first_free fuel free b = Some q →
  b ≤ q ∧ free q = true ∧ ∀ r, b ≤ r < q → free r = false.
Proof.
  revert b. induction fuel as [|fuel IH]; intros b; [done|].
  simpl. destruct (free b) eqn:Hb.
  - intros [= <-]. repeat split; [lia | done | lia].
  - intros [Hle [Hq Hmin]]%IH. repeat split; [lia | done |].
    intros r Hr. destruct (decide (r = b)) as [->|]; [done|]. apply Hmin. lia.
Qed.

(** With a free port [p] at or above the base, [p - b + 1] rounds are
    enough for the loop to return. *)
Lemma first_free_sufficient p b fuel :
  b ≤ p → free p = true → (Z.to_nat (p - b) < fuel)%nat →
  ∃ q, first_free fuel free b = Some q ∧ q ≤ p.
Proof.
  revert b. induction fuel as [|fuel IH]; intros b Hbp Hp Hfuel; [lia|].
  simpl. destruct (free b) eqn:Hb; [by exists b|].
  destruct (decide (b = p)) as [->|Hne]; [congruence|].
  destruct (IH (b + 1)) as (q & Hq & Hle); [lia | done | lia |]. eauto.
Qed.

Lemma first_free_least p b :
  b ≤ p → free p = true →
  ∃ q, (∀ fuel, (Z.to_nat (p - b) < fuel)%nat → first_free fuel free b = Some q)
       ∧ b ≤ q ≤ p ∧ free q = true ∧ ∀ r, b ≤ r < q → free r = false.
Proof.
  intros Hbp Hp.
  destruct (first_free_sufficient p b (S (Z.to_nat (p - b)))) as (q & Hq & Hle);
    [done | done | lia |].
  destruct (first_free_sound _ _ _ Hq) as (Hbq & Hfq & Hmin).
  exists q. repeat split; try done.
  intros fuel Hfuel.
  destruct (first_free_sufficient p b fuel) as (q' & Hq' & Hle'); [done..|].
  destruct (first_free_sound _ _ _ Hq') as (Hbq' & Hfq' & Hmin').
  rewrite Hq'. f_equal.
  destruct (Z.lt_trichotomy q q') as [Hlt|[->|Hlt]]; [|done|].
  - rewrite Hmin' in Hfq; [done | lia].
  - rewrite Hmin in Hfq'; [done | lia].
Qed.

End search.

End port_facts.

(** C8.  Given a base port [b] and the ports [T] already handed out,
    if some port [p ≥ b] is outside [T] and passes the bind check, both
    allocators (the central server's, over a set, and the lobby's, over
    a list) return, as soon as they are given [p - b + 1] rounds, the
    smallest port [q ≥ b] that is outside [T] and passes the bind check;
    in particular [q] differs from every port of [T]. *)
Theorem find_free_port_returns_least_free :
  (∀ w b (T : gset Z) p,
     b ≤ p → p ∉ T → Central.port_available w p = true →
     ∃ q, (∀ fuel, (Z.to_nat (p - b) < fuel)%nat →
             Central._find_free_port fuel w b T = Some q)
          ∧ b ≤ q ∧ (q ∉ T) ∧ Central.port_available w q = true
          ∧ ∀ r, b ≤ r < q → (r ∈ T) ∨ Central.port_available w r = false)
  ∧ (∀ w host b (T : list Z) p,
       b ≤ p → p ∉ T → Lobby.port_available w host p = true →
       ∃ q, (∀ fuel, (Z.to_nat (p - b) < fuel)%nat →
               Lobby._find_free_port fuel w host b T = Some q)
            ∧ b ≤ q ∧ (q ∉ T) ∧ Lobby.port_available w host q = true
            ∧ ∀ r, b ≤ r < q → (r ∈ T) ∨ Lobby.port_available w host r = false).
Proof.
  split.
  - intros w b T p Hbp HpT Hp.
    destruct (first_free_least (Spec.central_free w T) p b) as (q & Hq & Hle & Hfq & Hmin).
    { done. }
    { unfold Spec.central_free. by rewrite bool_decide_eq_true_2, Hp. }
    exists q. unfold Spec.central_free in *.
    apply andb_true_iff in Hfq as [HqT%bool_decide_eq_true Hqa].
    repeat split; try done; try lia.
    + intros fuel Hfuel. rewrite central_find_free_port_first_free. by apply Hq.
    + intros r Hr. specialize (Hmin r Hr).
      apply andb_false_iff in Hmin as [Hr1%bool_decide_eq_false|Hr2]; [left|by right].
      by apply dec_stable.
  - intros w host b T p Hbp HpT Hp.
    destruct (first_free_least (Spec.lobby_free w host T) p b)
      as (q & Hq & Hle & Hfq & Hmin).
    { done. }
    { unfold Spec.lobby_free. by rewrite bool_decide_eq_true_2, Hp. }
    exists q. unfold Spec.lobby_free in *.
    apply andb_true_iff in Hfq as [HqT%bool_decide_eq_true Hqa].
    repeat split; try done; try lia.
    + intros fuel Hfuel. rewrite lobby_find_free_port_first_free. by apply Hq.
    + intros r Hr. specialize (Hmin r Hr).
      apply andb_false_iff in Hmin as [Hr1%bool_decide_eq_false|Hr2]; [left|by right].
      by apply dec_stable.
Qed.

Lemma find_free_port_returns_least_free_witness :
  ∃ q, (∀ fuel, (Z.to_nat (11002 - 11000) < fuel)%nat →
          Central._find_free_port fuel Scenario.world 11000 {[11000; 11001]} = Some q)
       ∧ 11000 ≤ q ∧ (q ∉ ({[11000; 11001]} : gset Z))
       ∧ Central.port_available Scenario.world q = true
       ∧ ∀ r, 11000 ≤ r < q →
              (r ∈ ({[11000; 11001]} : gset Z))
              ∨ Central.port_available Scenario.world r = false.
Proof.
  apply (proj1 find_free_port_returns_least_free Scenario.world 11000 {[11000; 11001]} 11002);
    [lia | apply (bool_decide_unpack _); vm_compute; exact I | reflexivity].
Defined.

Example find_free_port_skips_taken :
  Central._find_free_port 3 Scenario.world 11000 {[11000; 11001]} = Some 11002.
Proof. vm_compute. reflexivity. Qed.

(** ** Launching a lobby that is already running *)

(** C7.  When the lobbies table has an entry for the game and its child
    process is alive, [start_lobby_if_needed] returns the entry's
    [(host, port)] whatever the fuel, and the whole state (the lobbies
    table, the list of children started, the store and the disk) is
    unchanged; [launch_game_server] on an authenticated session then
    answers [ok] with that host and port, for every game of the store. *)
Theorem launch_while_running_returns_existing :
  ∀ fuel cfg w name st lobby,
    Central.lobbies st !! name = Some lobby →
    Central.alive w (Central.lp_process lobby) = true →
    (∀ game_obj,
       Central.start_lobby_if_needed fuel cfg w name game_obj st
       = Some (Central.StartedOk (Central.lp_host lobby) (Central.lp_port lobby), st))
    ∧ (∀ ctx user game,
         Py.given (Central.ctx_username ctx) = Some user →
         name ≠ "" →
         Db.get_game name (Central.db st) = Some game →
         Central.handle_dev fuel cfg w ctx (Central.LaunchGameServer (Some name)) st
         = Some (Central.reply ctx st
                   [Central.send_json
                      (Central.make_ok "dev" "launch_game_server"
                         (Central.DLaunched name (Central.lp_host lobby)
                            (Central.lp_port lobby)))])).
Proof.
  intros fuel cfg w name st lobby Hl Halive.
  assert (∀ game_obj,
            Central.start_lobby_if_needed fuel cfg w name game_obj st
            = Some (Central.StartedOk (Central.lp_host lobby) (Central.lp_port lobby), st))
    as Hstart.
  { intros game_obj. unfold Central.start_lobby_if_needed. by rewrite Hl, Halive. }
  split; [done|].
  intros ctx user game Hu Hn Hg.
  unfold Central.handle_dev. rewrite Hu, (given_nonempty _ Hn), Hg, Hstart. done.
Qed.

Example scenario_g_running :
  Central.lobbies (Central.sys_state Scenario.g_running)
  = {[ "g" := Central.mkLobby "g" 0 "linux2.cs.nycu.edu.tw" 11000 ]}
  ∧ length (Central.children (Central.sys_state Scenario.g_running)) = 1%nat.
Proof. split; vm_compute; reflexivity. Qed.

Lemma launch_while_running_returns_existing_witness :
  let st := Central.sys_state Scenario.g_running in
  Central.start_lobby_if_needed 0 Central.default_config Scenario.world "g" None st
  = Some (Central.StartedOk "linux2.cs.nycu.edu.tw" 11000, st).
Proof.
  intros st.
  apply (proj1 (launch_while_running_returns_existing 0 Central.default_config
                  Scenario.world "g" st
                  (Central.mkLobby "g" 0 "linux2.cs.nycu.edu.tw" 11000)
                  ltac:(vm_compute; reflexivity) ltac:(reflexivity)) None).
Defined.

(** ** Sessions and the set of active user names *)

(** Closing a socket pops the connection from [clients] and leaves
    [active_usernames] as it is. *)
Lemma eof_keeps_active_usernames fuel cfg w c sys :
  Central.active_usernames (Central.sys_state (Central.step fuel cfg w (Central.Eof c) sys).1)
  = Central.active_usernames (Central.sys_state sys).
Proof. simpl. by destruct (Central.sessions sys !! c). Qed.

(** [logout] is the path that releases the name. *)
Lemma logout_releases_username ctx st u :
  Py.given (Central.ctx_username ctx) = Some u →
  u ∉ Central.active_usernames
        (Central.r_state (Central.handle_auth ctx Central.Logout st)).
Proof.
  intros Hu. unfold Central.handle_auth. rewrite Hu. simpl.
  intros [_ Hne]%elem_of_difference. apply Hne. by apply elem_of_singleton.
Qed.

Section session_facts.
Import Py Spec Central.

Lemma ensure_frame w g st :
  auth_part (_ensure_extracted_package w g st).2 = auth_part st.
Proof.
  unfold _ensure_extracted_package. repeat case_match; simplify_eq/=; done.
Qed.

Lemma start_frame fuel cfg w n g st r st' :
  start_lobby_if_needed fuel cfg w n g st = Some (r, st') → auth_part st' = auth_part st.
Proof.
  unfold start_lobby_if_needed.
  set (g' := match g with Some g0 => Some g0 | None => Db.get_game n (db st) end).
  pose proof (ensure_frame w g' st) as He.
  destruct (_ensure_extracted_package w g' st) as [e st1]. simpl in He.
  destruct (lobbies st !! n) as [l|]; [destruct (alive w (lp_process l))|].
  1: by intros [= _ <-].
  all: destruct e; [|by intros [= _ <-]..].
  all: destruct (_find_free_port _ _ _ _); [|done].
  all: destruct (popen_ok w); intros [= _ <-]; done.
Qed.

Lemma dev_frame fuel cfg w ctx req st r :
  handle_dev fuel cfg w ctx req st = Some r →
  auth_part (r_state r) = auth_part st ∧ ctx_username (r_ctx r) = ctx_username ctx
  ∧ ctx_conn (r_ctx r) = ctx_conn ctx.
Proof.
  unfold handle_dev, upload_game_file, delete_game, stop_lobby. intros H.
  repeat case_match; simplify_eq/=; try done.
  all: try (match goal with H : start_lobby_if_needed _ _ _ _ _ _ = Some _ |- _ => apply start_frame in H; by rewrite H end).
Qed.

Lemma store_frame w ctx req st :
  auth_part (r_state (handle_store w ctx req st)) = auth_part st
  ∧ ctx_username (r_ctx (handle_store w ctx req st)) = ctx_username ctx
  ∧ ctx_conn (r_ctx (handle_store w ctx req st)) = ctx_conn ctx.
Proof.
  unfold handle_store. repeat case_match; simplify_eq/=; done.
Qed.

Lemma dispatch_effect fuel cfg w ctx m st r :
  dispatch fuel cfg w ctx m st = Some r →
  auth_effect m (ctx_username ctx) (active_usernames st)
    (ctx_username (r_ctx r)) (active_usernames (r_state r)).
Proof.
  destruct m as [req|req|req|ty act]; simpl.
  - intros [= <-]. destruct req as [u p|u p| |a]; simpl.
    + destruct (given u), (given p); try apply effect_none.
      destruct (Db.register_user _ _ _) as [[[] ?] ?]; apply effect_none.
    + destruct (given u) as [u'|] eqn:Hu; [|apply effect_none].
      destruct (given p); [|apply effect_none].
      apply given_Some in Hu as [-> Hne].
      case_bool_decide; [apply effect_none|].
      destruct (Db.authenticate_user _ _ _); [|apply effect_none].
      simpl. by eapply effect_login.
    + destruct (given (ctx_username ctx)) eqn:Hu; [|apply effect_none].
      simpl. by apply effect_logout.
    + apply effect_none.
  - intros [= <-]. destruct (store_frame w ctx req st) as ([= _ ->] & -> & _).
    apply effect_none.
  - intros H. destruct (dev_frame _ _ _ _ _ _ _ H) as ([= _ ->] & -> & _).
    apply effect_none.
  - intros [= <-]. apply effect_none.
Qed.

Lemma holder_after_request sys c (r : Result) c' v :
  holder (if r_raised r
          then handle_client_finally (r_ctx r)
                 (mkSystem (r_state r) (<[c := r_ctx r]> (sessions sys)))
          else mkSystem (r_state r) (<[c := r_ctx r]> (sessions sys))) c' v →
  (c' = c ∧ given (ctx_username (r_ctx r)) = Some v) ∨ (c' ≠ c ∧ holder sys c' v).
Proof.
  intros (ctx' & Hl & Hv).
  assert (<[c := r_ctx r]> (sessions sys) !! c' = Some ctx') as Hl1.
  { destruct (r_raised r); [|done]. simpl in Hl.
    by apply lookup_delete_Some in Hl as [_ ?]. }
  rewrite lookup_insert in Hl1. case_decide; simplify_eq; [by left|].
  right. split; [done|]. by exists ctx'.
Qed.

(** One event either leaves the active names alone and adds no holder,
    or logs a name that was not active in on its connection, or logs the
    connection's own name out. *)
Lemma step_effect fuel cfg w ev sys :
  (active_usernames (sys_state (step fuel cfg w ev sys).1) = active_usernames (sys_state sys)
   ∧ ∀ c u, holder (step fuel cfg w ev sys).1 c u → holder sys c u)
  ∨ (∃ c u, (u ∉ active_usernames (sys_state sys))
            ∧ active_usernames (sys_state (step fuel cfg w ev sys).1)
              = {[u]} ∪ active_usernames (sys_state sys)
            ∧ ∀ c' v, holder (step fuel cfg w ev sys).1 c' v →
                      (c' = c ∧ v = u) ∨ (c' ≠ c ∧ holder sys c' v))
  ∨ (∃ c v, logout_on c ev ∧ holder sys c v
            ∧ active_usernames (sys_state (step fuel cfg w ev sys).1)
              = active_usernames (sys_state sys) ∖ {[v]}
            ∧ ∀ c' v', holder (step fuel cfg w ev sys).1 c' v' → c' ≠ c ∧ holder sys c' v').
Proof.
  destruct ev as [c|c m rest|c]; simpl.
  - left. destruct (sessions sys !! c) eqn:Hc; [done|]. simpl. split; [done|].
    intros c' u (ctx & Hl & Hu). simpl in Hl. rewrite lookup_insert in Hl.
    case_decide; [by simplify_eq|]. by exists ctx.
  - destruct (sessions sys !! c) as [ctx|] eqn:Hc; [|by left].
    destruct (dispatch _ _ _ _ _ _) as [r|] eqn:Hd; [|by left].
    apply dispatch_effect in Hd. simpl in Hd.
    pose proof (holder_after_request sys c r) as Hholder.
    assert ((if r_raised r
             then (handle_client_finally (r_ctx r)
                     (mkSystem (r_state r) (<[c := r_ctx r]> (sessions sys))), r_out r)
             else (mkSystem (r_state r) (<[c := r_ctx r]> (sessions sys)), r_out r)).1
            = if r_raised r
              then handle_client_finally (r_ctx r)
                     (mkSystem (r_state r) (<[c := r_ctx r]> (sessions sys)))
              else mkSystem (r_state r) (<[c := r_ctx r]> (sessions sys))) as ->
      by (by destruct (r_raised r)).
    assert (active_usernames
              (sys_state (if r_raised r
                          then handle_client_finally (r_ctx r)
                                 (mkSystem (r_state r) (<[c := r_ctx r]> (sessions sys)))
                          else mkSystem (r_state r) (<[c := r_ctx r]> (sessions sys))))
            = active_usernames (r_state r)) as ->
      by (by destruct (r_raised r)).
    inversion Hd as [Hn Ha|u p Hm Hne Hnot Hn Ha|v Hm Hv Hn Ha].
    + left. split; [done|].
      intros c' v Hh. destruct (Hholder c' v Hh) as [[-> Hv]|[_ ?]]; [|done].
      exists ctx. by rewrite Hn.
    + right. left. exists c, u. split; [done|]. split; [done|].
      intros c' v Hh. destruct (Hholder c' v Hh) as [[-> Hv]|?]; [|by right].
      left. split; [done|]. rewrite <- Hn in Hv. by apply given_Some in Hv as [[= ->] _].
    + right. right. exists c, v. split; [by exists rest; subst|].
      split; [by exists ctx|]. split; [done|].
      intros c' v' Hh. destruct (Hholder c' v' Hh) as [[-> Hv']|?]; [|done].
      by rewrite <- Hn in Hv'.
  - left. destruct (sessions sys !! c) as [ctx|] eqn:Hc; [|done]. simpl. split; [done|].
    intros c' u (ctx' & Hl & Hu). simpl in Hl.
    apply lookup_delete_Some in Hl as [_ Hl]. by exists ctx'.
Qed.

Lemma step_keeps_sessions_ok fuel cfg w ev sys :
  sessions_ok sys → sessions_ok (step fuel cfg w ev sys).1.
Proof.
  intros [Hact Huniq].
  destruct (step_effect fuel cfg w ev sys)
    as [[Ha Hh]|[(c & u & Hnot & Ha & Hh)|(c & v & _ & Hcv & Ha & Hh)]].
  - split.
    + intros c u Hcu. rewrite Ha. eauto.
    + intros c1 c2 u H1 H2. eauto.
  - split.
    + intros c' v Hv. rewrite Ha. apply elem_of_union.
      destruct (Hh _ _ Hv) as [[_ ->]|[_ ?]]; [left; by apply elem_of_singleton|right; eauto].
    + intros c1 c2 v H1 H2.
      destruct (Hh _ _ H1) as [[-> ->]|[? H1']], (Hh _ _ H2) as [[-> Hv2]|[? H2']];
        subst; try done; eauto.
      * destruct Hnot. eauto.
      * destruct Hnot. eauto.
  - split.
    + intros c' v' Hv'. rewrite Ha. destruct (Hh _ _ Hv') as [Hne Hold].
      apply elem_of_difference. split; [eauto|].
      intros ->%elem_of_singleton. apply Hne. eauto.
    + intros c1 c2 u H1 H2. destruct (Hh _ _ H1), (Hh _ _ H2). eauto.
Qed.

Lemma step_keeps_held fuel cfg w ev sys a u :
  ¬ logout_on a ev → held_by a u sys → held_by a u (step fuel cfg w ev sys).1.
Proof.
  intros Hev [Hu Hothers].
  destruct (step_effect fuel cfg w ev sys)
    as [[Ha Hh]|[(c & u' & Hnot & Ha & Hh)|(c & v & Hlog & Hcv & Ha & Hh)]].
  - split; [by rewrite Ha|]. intros c Hne Hc. eapply Hothers; eauto.
  - split; [rewrite Ha; apply elem_of_union; by right|].
    intros c' Hne Hc'. destruct (Hh _ _ Hc') as [[-> ->]|[_ ?]]; [done|].
    by eapply Hothers.
  - assert (c ≠ a) as Hca by (by intros ->).
    split.
    + rewrite Ha. apply elem_of_difference. split; [done|].
      intros ->%elem_of_singleton. by eapply Hothers.
    + intros c' Hne Hc'. destruct (Hh _ _ Hc') as [_ ?]. by eapply Hothers.
Qed.

Lemma run_keeps_sessions_ok fuel cfg evs sys :
  sessions_ok sys → sessions_ok (run fuel cfg evs sys).
Proof.
  revert sys. induction evs as [|[w ev] evs IH]; intros sys Hok; [done|].
  simpl. by apply IH, step_keeps_sessions_ok.
Qed.

Lemma run_keeps_held fuel cfg evs sys a u :
  Forall (λ wev : World * Event, ¬ logout_on a wev.2) evs →
  held_by a u sys → held_by a u (run fuel cfg evs sys).
Proof.
  revert sys. induction evs as [|[w ev] evs IH]; intros sys Hevs Hheld; [done|].
  apply Forall_cons in Hevs as [Hev Hevs]. simpl. by apply IH, step_keeps_held.
Qed.

Lemma boot_sessions_ok : sessions_ok boot.
Proof.
  split.
  - intros c u (ctx & Hl & _). simpl in Hl. by rewrite lookup_empty in Hl.
  - intros c1 c2 u (ctx & Hl & _). simpl in Hl. by rewrite lookup_empty in Hl.
Qed.

(** A [login] with a password, for a name that is active, is refused. *)
Lemma login_of_active_name_refused fuel cfg w sys b ctx u p rest :
  sessions sys !! b = Some ctx → u ≠ "" → p ≠ "" →
  u ∈ active_usernames (sys_state sys) →
  (step fuel cfg w (Recv b (MAuth (Login (Some u) (Some p))) rest) sys).2
  = [send_json (make_error "auth" "login" "USER_ALREADY_LOGGED_IN")].
Proof.
  intros Hb Hu Hp Hact. simpl. rewrite Hb. simpl.
  rewrite (given_nonempty _ Hu), (given_nonempty _ Hp).
  by rewrite bool_decide_eq_true_2.
Qed.

(** The first half of the double-login property: once [login(u)] has
    succeeded on connection [a], and as long as no [logout] arrives on
    [a], every [login(u)] with a password, on any connection, is refused
    with [USER_ALREADY_LOGGED_IN]. *)
Theorem login_refused_until_logout :
  ∀ fuel cfg before w a u p rest after,
    let sys0 := run fuel cfg before boot in
    let sys1 := (step fuel cfg w (Recv a (MAuth (Login (Some u) (Some p))) rest) sys0).1 in
    (step fuel cfg w (Recv a (MAuth (Login (Some u) (Some p))) rest) sys0).2
    = [send_json (make_ok "auth" "login" (DUsername u))] →
    Forall (λ wev : World * Event, ¬ logout_on a wev.2) after →
    ∀ w' b ctx p' rest',
      sessions (run fuel cfg after sys1) !! b = Some ctx → p' ≠ "" →
      (step fuel cfg w' (Recv b (MAuth (Login (Some u) (Some p'))) rest')
         (run fuel cfg after sys1)).2
      = [send_json (make_error "auth" "login" "USER_ALREADY_LOGGED_IN")].
Proof.
  intros fuel cfg before w a u p rest after sys0 sys1 Hok Hafter w' b ctx p' rest' Hb Hp'.
  assert (sessions_ok sys0) as [Hact _]
    by apply run_keeps_sessions_ok, boot_sessions_ok.
  assert (u ≠ "" ∧ held_by a u sys1) as [Hu Hheld].
  { subst sys1. revert Hok. simpl.
    destruct (sessions sys0 !! a) as [ctxa|] eqn:Ha; [|done]. simpl.
    destruct (given (Some u)) as [u'|] eqn:Hgu; [|by destruct (given (Some p))].
    apply given_Some in Hgu as [[= <-] Hne].
    destruct (given (Some p)); [|done].
    case_bool_decide as Hin; [done|].
    destruct (Db.authenticate_user _ _ _); [|done]. simpl. intros _.
    split; [done|]. split.
    - apply elem_of_union. left. by apply elem_of_singleton.
    - intros c Hne' (ctxc & Hl & Hc). simpl in Hl.
      rewrite lookup_insert_ne in Hl by done. apply Hin, (Hact c). by exists ctxc. }
  eapply login_of_active_name_refused; try done.
  by apply (run_keeps_held _ _ _ _ a).
Qed.

End session_facts.

(** C1, the code at the failing input.  Alice registers and logs in on
    connection 1, and a second connection's [login] as alice is refused
    with [USER_ALREADY_LOGGED_IN]; then connection 1 reaches end of
    file.  Its entry leaves [clients], but alice stays in
    [active_usernames], and a [login] as alice on a new connection is
    still refused with [USER_ALREADY_LOGGED_IN]. *)
Theorem login_after_close_still_refused :
  let cfg := Central.default_config in
  let refused :=
    [Central.send_json (Central.make_error "auth" "login" "USER_ALREADY_LOGGED_IN")] in
  let open := Central.run 0 cfg [Scenario.accept 2%nat] Scenario.alice_in in
  let closed := Central.run 0 cfg [Scenario.eof 1%nat; Scenario.accept 3%nat] open in
  (Central.step 0 cfg Scenario.world
     (Central.Recv 2%nat (Central.MAuth (Central.Login (Some "alice") (Some "pw"))) []) open).2
  = refused
  ∧ Central.sessions closed !! 1%nat = None
  ∧ Central.clients (Central.sys_state closed) !! 1%nat = None
  ∧ "alice" ∈ Central.active_usernames (Central.sys_state closed)
  ∧ (Central.step 0 cfg Scenario.world
       (Central.Recv 3%nat (Central.MAuth (Central.Login (Some "alice") (Some "pw"))) [])
       closed).2
    = refused.
Proof.
  intros cfg refused open closed.
  split; [vm_compute; reflexivity|].
  split; [vm_compute; reflexivity|].
  split; [vm_compute; reflexivity|].
  split; [|vm_compute; reflexivity].
  apply (bool_decide_unpack _). vm_compute. exact I.
Qed.

(** ** Disconnects in the grid-game room *)

Section ttt_facts.
Import TTT.

Lemma get_pop {V} (k : string) (d : dict V) : get k (pop k d) = None.
Proof.
  unfold get, pop. induction d as [|[k' v] d IH]; [done|].
  rewrite filter_cons. simpl. destruct (decide (k' ≠ k)) as [Hne|Heq]; [|done].
  simpl. by rewrite bool_decide_eq_false_2.
Qed.

(** [remove_player] takes the user out of the three dictionaries. *)
Lemma remove_player_removes username s :
  get username (players (remove_player username s)) = None
  ∧ get username (connections (remove_player username s)) = None
  ∧ get username (play_again_votes (remove_player username s)) = None.
Proof. simpl. by rewrite !get_pop. Qed.



End ttt_facts.

(** The reference games of the specification: three in a row wins for
    the player holding the mark, and a full board without a line is a
    draw, marked by the empty name. *)
Example grid_game_win :
  TTT.winner (TTT.game (TTT.run Scenario.all_sent (Scenario.plays true [0; 4; 1; 5; 2])
                          Scenario.seated))
  = Some "alice".
Proof. vm_compute. reflexivity. Qed.

Example grid_game_draw :
  TTT.winner (TTT.game (TTT.run Scenario.all_sent
                          (Scenario.plays true [0; 1; 2; 4; 3; 5; 7; 6; 8]) Scenario.seated))
  = Some "".
Proof. vm_compute. reflexivity. Qed.

(** The sibling path: when the send to bob fails during a broadcast,
    bob is removed and, one player being left, the board and the turn
    are cleared. *)
Example broadcast_clears_after_dead_connection :
  let after := (TTT.send_state (λ c, bool_decide (c ≠ 2%nat))
                  (TTT.game Scenario.two_moves)).1 in
  TTT.players after = [("alice", "X")]
  ∧ TTT.board after = TTT.empty_board
  ∧ TTT.turn after = None.
Proof. repeat split; vm_compute; reflexivity. Qed.

(** C4, the code at the failing input.  Alice (X) and bob (O) are
    seated, alice has played cell 0 and bob cell 4, and bob's connection
    reaches end of file.  Bob leaves [players], [connections] and
    [play_again_votes] and one player remains, but the board keeps both
    marks and the turn stays with alice; that state is what is
    broadcast to alice's connection. *)
Theorem disconnect_keeps_board_and_turn :
  let after := (TTT.step Scenario.all_sent (TTT.Eof 2%nat) Scenario.two_moves).1 in
  let sent := (TTT.step Scenario.all_sent (TTT.Eof 2%nat) Scenario.two_moves).2 in
  let marks := ["X"; ""; ""; ""; "O"; ""; ""; ""; ""] in
  TTT.players (TTT.game after) = [("alice", "X")]
  ∧ TTT.connections (TTT.game after) = [("alice", 1%nat)]
  ∧ TTT.play_again_votes (TTT.game after) = []
  ∧ TTT.board (TTT.game after) = marks
  ∧ TTT.board (TTT.game after) ≠ TTT.empty_board
  ∧ TTT.turn (TTT.game after) = Some "alice"
  ∧ sent = [(1%nat,
             TTT.State (TTT.mkSnapshot marks (Some "alice") None [("alice", "X")] 1 false))].
Proof.
  intros after sent marks.
  split; [vm_compute; reflexivity|].
  split; [vm_compute; reflexivity|].
  split; [vm_compute; reflexivity|].
  split; [vm_compute; reflexivity|].
  split; [vm_compute; congruence|].
  split; vm_compute; reflexivity.
Qed.

(** ** Uploads and downloads *)

Section upload_facts.
Import Py Spec Central.

Lemma read_exact_done fuel w (reader : bytes) remaining chunks :
  remaining ≤ 0 →
  _read_exact_loop fuel w reader remaining chunks = (ReadSome (concat chunks), reader).
Proof. intros. destruct fuel; simpl; by rewrite bool_decide_eq_false_2 by lia. Qed.

(** With the whole payload on the wire, [_read_exact] returns it and
    leaves what follows in the reader, unless the [read] finds no
    memory for it. *)
Lemma read_exact_whole w (B rest : bytes) :
  _read_exact w (B ++ rest) (Z.of_nat (length B))
  = if bool_decide (B = []) || read_fits w (Z.of_nat (length B))
    then (ReadSome B, rest) else (ReadRaised, B ++ rest).
Proof.
  unfold _read_exact.
  destruct B as [|b B]; [by rewrite read_exact_done|].
  rewrite (bool_decide_eq_false_2 (b :: B = [])) by done. cbn [orb].
  cbn [_read_exact_loop]. rewrite bool_decide_eq_true_2 by (cbn [length]; lia).
  destruct (read_fits w _); [|done]. cbn [negb].
  unfold reader_read. rewrite Nat2Z.id.
  rewrite take_app_length, drop_app_length.
  rewrite read_exact_done by lia. cbn [app concat]. by rewrite app_nil_r.
Qed.

Lemma readable_fits w (B : bytes) :
  readable w (Z.of_nat (length B)) →
  bool_decide (B = []) || read_fits w (Z.of_nat (length B)) = true.
Proof.
  intros Hread. destruct B as [|b B]; [done|].
  rewrite (bool_decide_eq_false_2 (b :: B = [])) by done.
  apply Hread. cbn [length]. lia.
Qed.

(** With the whole payload on the wire and memory for it, [_read_exact]
    returns it and leaves what follows in the reader. *)
Lemma read_exact_app w (B rest : bytes) :
  readable w (Z.of_nat (length B)) →
  _read_exact w (B ++ rest) (Z.of_nat (length B)) = (ReadSome B, rest).
Proof. intros Hread. by rewrite read_exact_whole, readable_fits. Qed.

(** The chunks read from a file add up to the file. *)
Lemma concat_read_chunks fuel (data : bytes) :
  (length data ≤ fuel)%nat → concat (read_chunks fuel data) = data.
Proof.
  revert data. induction fuel as [|fuel IH]; intros data Hlen.
  - destruct data; [done | simpl in Hlen; lia].
  - cbn [read_chunks]. destruct (take 4096 data) as [|c chunk] eqn:Htake.
    + destruct data; [done|]. discriminate.
    + cbn [concat]. rewrite IH.
      * rewrite <- Htake. apply take_drop.
      * rewrite length_drop. destruct data; [discriminate|]. simpl in *. lia.
Qed.

Lemma streamed_chunks header (chunks : list bytes) :
  streamed (send_json header :: map sendall chunks) = concat chunks.
Proof.
  unfold streamed. cbn [omap list_omap]. f_equal.
  induction chunks as [|c cs IH]; [done|]. simpl. by f_equal.
Qed.

(** *** The storage area *)

Lemma files_write_tree_outside d entries fs p :
  ¬ d `prefix_of` p →
  Fs.files (Fs.write_tree d entries fs) !! p = Fs.files fs !! p.
Proof.
  intros Hp. unfold Fs.write_tree. revert fs.
  induction entries as [|e entries IH]; intros fs; [done|].
  simpl. rewrite IH. simpl. apply lookup_insert_ne.
  intros <-. apply Hp. by apply prefix_app_r.
Qed.

Lemma files_write_tree_inside d entries fs p b :
  Fs.files (Fs.write_tree d entries fs) !! p = Some b →
  Fs.files fs !! p = Some b ∨ ∃ rel, p = d ++ rel ∧ (rel, b) ∈ entries.
Proof.
  unfold Fs.write_tree. revert fs.
  induction entries as [|e entries IH]; intros fs Hb; [by left|].
  simpl in Hb. apply IH in Hb as [Hb|(rel & -> & Hin)].
  - simpl in Hb. destruct (decide (d ++ e.1 = p)) as [<-|Hne].
    + rewrite lookup_insert_eq in Hb. simplify_eq. right. exists e.1.
      split; [done|]. destruct e. apply list_elem_of_here.
    + rewrite lookup_insert_ne in Hb by done. by left.
  - right. exists rel. split; [done|]. by apply list_elem_of_further.
Qed.

Lemma files_rmtree_outside d fs p :
  ¬ d `prefix_of` p → Fs.files (Fs.rmtree d fs) !! p = Fs.files fs !! p.
Proof.
  intros Hp. simpl. rewrite map_lookup_filter.
  destruct (Fs.files fs !! p) as [b|]; [|done]. simpl.
  by rewrite option_guard_True.
Qed.

Lemma files_rmtree_inside d fs p :
  d `prefix_of` p → Fs.files (Fs.rmtree d fs) !! p = None.
Proof.
  intros Hp. simpl. apply map_lookup_filter_None. right. intros b _. simpl. tauto.
Qed.

Lemma is_dir_false p fs :
  Fs.is_dir p fs = false ↔
  (∀ q, q ∈ Fs.dirs fs → ¬ p `prefix_of` q)
  ∧ (∀ q b, Fs.files fs !! q = Some b → p `prefix_of` q → p = q).
Proof.
  unfold Fs.is_dir. rewrite orb_false_iff, !bool_decide_eq_false. unfold set_Exists.
  split.
  - intros [Hd Hf]. split.
    + intros q Hq Hp. apply Hd. eauto.
    + intros q b Hq Hp. destruct (decide (p = q)) as [|Hne]; [done|].
      destruct Hf. exists q. split; [|done]. apply elem_of_dom. eauto.
  - intros [Hd Hf]. split.
    + intros (q & Hq & Hp). by apply (Hd q).
    + intros (q & [b Hq]%elem_of_dom & Hp & Hne). by apply Hne, (Hf q b).
Qed.

Lemma is_dir_mkdir d p fs :
  ¬ p `prefix_of` d → Fs.is_dir p fs = false → Fs.is_dir p (Fs.mkdir d fs) = false.
Proof.
  intros Hpd [Hd Hf]%is_dir_false. apply is_dir_false. split; [|done].
  simpl. intros q [->%elem_of_singleton|Hq]%elem_of_union; [done|]. by apply Hd.
Qed.


(** Emptying a directory that does not exist removes no file. *)
Lemma files_fresh_dir d fs p :
  Fs.files (Fs.fresh_dir d fs) !! p = Fs.files (Fs.rmtree d fs) !! p.
Proof.
  unfold Fs.fresh_dir. destruct (Fs.exists_ d fs) eqn:Hex; [done|].
  unfold Fs.exists_ in Hex. apply orb_false_iff in Hex as [Hfile Hdir].
  apply bool_decide_eq_false in Hfile. apply is_dir_false in Hdir as [_ Hbelow].
  cbn [Fs.mkdir Fs.rmtree Fs.files]. rewrite map_lookup_filter.
  destruct (Fs.files fs !! p) as [b|] eqn:Hp; [|done]. simpl.
  rewrite option_guard_True; [done|]. simpl. intros Hpre.
  apply Hfile. rewrite (Hbelow p b Hp Hpre). eauto.
Qed.

(** The archive of a game lies under its extraction tree only when it
    is called [extracted]. *)
Lemma archive_under_extracted (dir : path) (filename : string) :
  dir ++ ["extracted"] `prefix_of` dir ++ [filename] → filename = "extracted".
Proof. intros H%prefix_app_inv. symmetry. by eapply prefix_cons_inv_1. Qed.

End upload_facts.

Section upload_flow.
Import Py Spec Central.

Lemma int_or_default_no_overflow x dflt z :
  int_or_default x dflt = Some z → int_overflows x = false.
Proof. by destruct x. Qed.

(** A well-formed header from the author (or for a new game) reaches the
    payload stage. *)
Lemma handle_dev_upload_accepted fuel cfg w ctx st user gn ver fnm size min max mn mx :
  given (ctx_username ctx) = Some user →
  gn ≠ "" → ver ≠ "" → fnm ≠ "" →
  int_or_default min 1 = Some mn →
  int_or_default max (Z.max mn 4) = Some mx →
  1 ≤ mn ≤ mx →
  other_author user gn st = false →
  handle_dev fuel cfg w ctx
    (UploadGameFile (Some gn) (Some ver) (Some fnm) (Some size) min max) st
  = Some (upload_game_file w ctx user gn ver fnm size mn mx st).
Proof.
  intros Hu Hgn Hver Hfnm Hmin Hmax Hrange Hother.
  unfold handle_dev.
  rewrite Hu, (given_nonempty _ Hgn), (given_nonempty _ Hver), (given_nonempty _ Hfnm).
  rewrite (int_or_default_no_overflow _ _ _ Hmin), (int_or_default_no_overflow _ _ _ Hmax).
  rewrite Hmin, Hmax, Hother.
  rewrite bool_decide_eq_false_2 by lia. rewrite bool_decide_eq_false_2 by lia. done.
Qed.


(** The payload stage of [upload_game_file] when the payload arrives
    whole and neither path is blocked: the reply follows the extraction. *)
Lemma upload_game_file_extracts w ctx user gn ver fnm mn mx st (B rest : bytes) :
  ctx_reader ctx = B ++ rest →
  bool_decide (B = []) || read_fits w (Z.of_nat (length B)) = true →
  paths_clear gn fnm st →
  upload_game_file w ctx user gn ver fnm (Z.of_nat (length B)) mn mx st
  = let ctx' := mkCtx (ctx_conn ctx) rest (ctx_username ctx) in
    if (zip_extract w B).2 then
      reply ctx' (recorded w user gn ver fnm mn mx (extracted w gn fnm B st))
        [send_json (make_ok "dev" "upload_game_file"
           (DUploaded gn ver ((Db.STORAGE_DIR ++ [gn]) ++ [fnm])
              ((Db.STORAGE_DIR ++ [gn]) ++ ["extracted"])))]
    else
      reply ctx' (extracted w gn fnm B st)
        [send_json (make_error "dev" "upload_game_file" "UNZIP_FAILED")].
Proof.
  intros Hreader Hfits (Hfree & Hdir & Hfile & Hfnm).
  unfold upload_game_file. rewrite Hfree, Hreader, read_exact_whole, Hfits.
  cbv zeta. cbn [ctx_conn ctx_username].
  rewrite bool_decide_eq_true_2 by done. cbn [negb].
  assert (Fs.is_dir ((Db.STORAGE_DIR ++ [gn]) ++ [fnm])
            (fs (set_fs (Fs.mkdir (Db.STORAGE_DIR ++ [gn])) st)) = false) as ->.
  { apply is_dir_mkdir; [|done]. intros Hpre%prefix_length.
    rewrite !length_app in Hpre. simpl in Hpre. lia. }
  assert (Fs.is_file ((Db.STORAGE_DIR ++ [gn]) ++ ["extracted"])
            (fs (set_fs (Fs.write_file ((Db.STORAGE_DIR ++ [gn]) ++ [fnm]) B)
                   (set_fs (Fs.mkdir (Db.STORAGE_DIR ++ [gn])) st))) = false) as ->.
  { unfold Fs.is_file in *. apply bool_decide_eq_false in Hfile.
    apply bool_decide_eq_false. simpl.
    rewrite lookup_insert_ne; [done|]. intros [= ->]. done. }
  assert (Fs.files (fs (stored gn fnm B st)) !! ((Db.STORAGE_DIR ++ [gn]) ++ [fnm])
          = Some B) as Hstored.
  { unfold stored. cbn [fs set_fs]. rewrite files_fresh_dir.
    rewrite files_rmtree_outside.
    - simpl. apply lookup_insert_eq.
    - intros Hp%archive_under_extracted. done. }
  unfold stored in Hstored. rewrite Hstored.
  unfold recorded, extracted, stored.
  destruct (zip_extract w B) as [entries ok]. by destruct ok.
Qed.

Lemma stored_archive gn fnm (B : bytes) st :
  fnm ≠ "extracted" →
  Fs.files (fs (stored gn fnm B st)) !! ((Db.STORAGE_DIR ++ [gn]) ++ [fnm]) = Some B.
Proof.
  intros Hfnm. unfold stored. cbn [fs set_fs]. rewrite files_fresh_dir.
  rewrite files_rmtree_outside.
  - simpl. apply lookup_insert_eq.
  - by intros Hp%archive_under_extracted.
Qed.

Lemma extracted_archive w gn fnm (B : bytes) st :
  fnm ≠ "extracted" →
  Fs.files (fs (extracted w gn fnm B st)) !! ((Db.STORAGE_DIR ++ [gn]) ++ [fnm]) = Some B.
Proof.
  intros Hfnm. unfold extracted. cbn [fs set_fs].
  rewrite files_write_tree_outside; [by apply stored_archive|].
  by intros Hp%archive_under_extracted.
Qed.

(** After the payload stage, whatever lies under the extraction
    directory was written by this extraction. *)
Lemma extracted_tree w gn fnm (B : bytes) st p b :
  (Db.STORAGE_DIR ++ [gn]) ++ ["extracted"] `prefix_of` p →
  Fs.files (fs (extracted w gn fnm B st)) !! p = Some b →
  ∃ rel, p = ((Db.STORAGE_DIR ++ [gn]) ++ ["extracted"]) ++ rel
         ∧ (rel, b) ∈ (zip_extract w B).1.
Proof.
  intros Hp Hb. unfold extracted in Hb. cbn [fs set_fs] in Hb.
  apply files_write_tree_inside in Hb as [Hb|Hb]; [|done].
  unfold stored in Hb. cbn [fs set_fs] in Hb. rewrite files_fresh_dir in Hb.
  by rewrite files_rmtree_inside in Hb.
Qed.


End upload_flow.

(** C2, counterexample.  Game [g] has been uploaded by alice and its
    extracted tree holds [run_room_server.py].  She uploads a payload
    that does not extract: the reply is [UNZIP_FAILED] and the games
    file is unchanged, but the extracted entry script is gone from the
    disk and the stored archive is now the bad payload. *)
Lemma failed_upload_removes_extracted_tree :
  let cfg := Central.default_config in
  let entry := Db.STORAGE_DIR ++ ["g"; "extracted"; "run_room_server.py"] in
  let before := Central.sys_state Scenario.g_uploaded in
  let r := Central.step 0 cfg Scenario.world (Scenario.upload 1%nat Scenario.junk).2
             Scenario.g_uploaded in
  Fs.files (Central.fs before) !! entry = Some [Byte.x23]
  ∧ r.2 = [Central.send_json (Central.make_error "dev" "upload_game_file" "UNZIP_FAILED")]
  ∧ Central.db (Central.sys_state r.1) = Central.db before
  ∧ Fs.files (Central.fs (Central.sys_state r.1)) !! entry = None
  ∧ Fs.files (Central.fs (Central.sys_state r.1)) !! (Db.STORAGE_DIR ++ ["g"; "g.zip"])
    = Some Scenario.junk.
Proof.
  intros cfg entry before r.
  split; [vm_compute; reflexivity|].
  split; [vm_compute; reflexivity|].
  split; [vm_compute; reflexivity|].
  split; vm_compute; reflexivity.
Qed.

(** C2, amended.  For every [upload_game_file] request whose game and
    file names are single path components, with an accepted header,
    whose payload arrives whole (the read finds its memory, the paths
    are clear) and fails to extract, the server replies [UNZIP_FAILED]
    and the metadata store is unchanged; the archive file at
    [<storage>/<game>/<filename>] now holds the payload, and whatever
    lies under the extraction directory afterwards was written by the
    failed extraction: the previously extracted tree has been removed. *)
Theorem failed_extraction_keeps_record_not_tree :
  ∀ fuel cfg w ctx st user gn ver fnm (B rest : Py.bytes) min max mn mx,
    Spec.header_accepted ctx st user gn ver fnm min max mn mx →
    Py.plain_name gn = true →
    Py.plain_name fnm = true →
    Spec.paths_clear gn fnm st →
    Spec.readable w (Z.of_nat (length B)) →
    Central.ctx_reader ctx = B ++ rest →
    (Central.zip_extract w B).2 = false →
    ∃ r,
      Central.handle_dev fuel cfg w ctx
        (Central.UploadGameFile (Some gn) (Some ver) (Some fnm)
           (Some (Z.of_nat (length B))) min max) st = Some r
      ∧ Central.r_out r
        = [Central.send_json (Central.make_error "dev" "upload_game_file" "UNZIP_FAILED")]
      ∧ Central.r_raised r = false
      ∧ Central.db (Central.r_state r) = Central.db st
      ∧ Fs.files (Central.fs (Central.r_state r)) !! ((Db.STORAGE_DIR ++ [gn]) ++ [fnm])
        = Some B
      ∧ ∀ p b,
          (Db.STORAGE_DIR ++ [gn]) ++ ["extracted"] `prefix_of` p →
          Fs.files (Central.fs (Central.r_state r)) !! p = Some b →
          ∃ rel, p = ((Db.STORAGE_DIR ++ [gn]) ++ ["extracted"]) ++ rel
                 ∧ (rel, b) ∈ (Central.zip_extract w B).1.
Proof.
  intros fuel cfg w ctx st user gn ver fnm B rest min max mn mx
    (Hu & Hgn & Hver & Hfnm & Hmin & Hmax & Hrange & Hother)
    _ _ Hclear Hread Hreader Hzip.
  eexists. split.
  { by apply handle_dev_upload_accepted. }
  rewrite (upload_game_file_extracts _ _ _ _ _ _ _ _ _ _ _ Hreader
             (readable_fits _ _ Hread) Hclear).
  destruct Hclear as (_ & _ & _ & Hne).
  cbv zeta. rewrite Hzip. cbn [Central.r_out Central.r_raised Central.r_state Central.reply].
  split; [done|]. split; [done|]. split; [done|].
  split; [by apply extracted_archive|].
  intros p b. apply extracted_tree.
Qed.

Lemma failed_extraction_keeps_record_not_tree_witness :
  ∃ r,
    Central.handle_dev 0 Central.default_config Scenario.world
      (Central.mkCtx 1%nat Scenario.junk (Some "alice"))
      (Central.UploadGameFile (Some "g") (Some "2") (Some "g.zip")
         (Some (Z.of_nat (length Scenario.junk))) (Py.ArgInt 2) (Py.ArgInt 4))
      (Central.sys_state Scenario.g_uploaded) = Some r
    ∧ Central.r_out r
      = [Central.send_json (Central.make_error "dev" "upload_game_file" "UNZIP_FAILED")]
    ∧ Central.r_raised r = false
    ∧ Central.db (Central.r_state r) = Central.db (Central.sys_state Scenario.g_uploaded)
    ∧ Fs.files (Central.fs (Central.r_state r)) !! ((Db.STORAGE_DIR ++ ["g"]) ++ ["g.zip"])
      = Some Scenario.junk
    ∧ ∀ p b,
        (Db.STORAGE_DIR ++ ["g"]) ++ ["extracted"] `prefix_of` p →
        Fs.files (Central.fs (Central.r_state r)) !! p = Some b →
        ∃ rel, p = ((Db.STORAGE_DIR ++ ["g"]) ++ ["extracted"]) ++ rel
               ∧ (rel, b) ∈ (Central.zip_extract Scenario.world Scenario.junk).1.
Proof.
  apply (failed_extraction_keeps_record_not_tree 0 Central.default_config Scenario.world
           (Central.mkCtx 1%nat Scenario.junk (Some "alice"))
           (Central.sys_state Scenario.g_uploaded) "alice" "g" "2" "g.zip"
           Scenario.junk [] (Py.ArgInt 2) (Py.ArgInt 4) 2 4).
  - repeat split; try done; vm_compute; congruence.
  - vm_compute. reflexivity.
  - vm_compute. reflexivity.
  - repeat split; try done; vm_compute; reflexivity.
  - intros n Hn. unfold Central.read_fits. apply andb_true_iff.
    change (Z.of_nat (length Scenario.junk)) with 5 in Hn.
    split; [apply Z.ltb_lt|apply Z.leb_le]; lia.
  - reflexivity.
  - reflexivity.
Defined.

Section round_trip_facts.
Import Py Db Spec Central.


















(** *** What each handler does to the records and to the disk *)






Lemma remove_records_games n a db :
  games (remove_records n a db).2 = games db
  ∨ games (remove_records n a db).2 = filter (λ g, g_game_name g ≠ n) (games db).
Proof.
  unfold remove_records. destruct (get_game n db); [|by left].
  destruct (_ && _); [by left|by right].
Qed.















End round_trip_facts.




(** ** Rooms of a lobby *)

Section lobby_facts.
Import Py Spec Lobby.

Lemma in_waiting_room_true username except st :
  in_waiting_room username except st = true ↔
  ∃ rid r, rooms st !! rid = Some r ∧ status r = waiting
           ∧ Some (room_id r) ≠ except ∧ username ∈ players r.
Proof.
  unfold in_waiting_room, values. rewrite existsb_exists. split.
  - intros (r & Hin & Hr).
    apply list_elem_of_In, list_elem_of_fmap in Hin as ([rid r'] & -> & Hin).
    apply elem_of_map_to_list in Hin. simpl in *.
    apply andb_true_iff in Hr as [Hr Hu]. apply andb_true_iff in Hr as [Hs He].
    apply bool_decide_eq_true in Hs, Hu.
    apply negb_true_iff, bool_decide_eq_false in He. eauto 10.
  - intros (rid & r & Hl & Hs & He & Hu). exists r. split.
    + apply list_elem_of_In, list_elem_of_fmap. exists (rid, r).
      split; [done|]. by apply elem_of_map_to_list.
    + rewrite !andb_true_iff, negb_true_iff.
      by rewrite !bool_decide_eq_true, bool_decide_eq_false.
Qed.

(** A table whose rooms come from the old ones, each under the same
    key, with no room reopened and no player added, keeps the invariant. *)
Lemma shrink_keeps_invariant st st' :
  (∀ rid r', rooms st' !! rid = Some r' →
     ∃ r, rooms st !! rid = Some r ∧ room_id r' = room_id r
          ∧ (status r' = waiting → status r = waiting)
          ∧ (∀ u, u ∈ players r' → u ∈ players r)) →
  keyed st ∧ room_unique st → keyed st' ∧ room_unique st'.
Proof.
  intros Hshrink [Hk Hu]. split.
  - intros rid r' Hr'. destruct (Hshrink _ _ Hr') as (r & Hr & -> & _). by apply Hk.
  - intros u rid1 rid2 (r1 & H1 & Hs1 & Hu1) (r2 & H2 & Hs2 & Hu2).
    destruct (Hshrink _ _ H1) as (r1' & ? & _ & ? & ?).
    destruct (Hshrink _ _ H2) as (r2' & ? & _ & ? & ?).
    apply (Hu u); [exists r1' | exists r2']; eauto.
Qed.

Lemma same_rooms_keep_invariant st st' :
  rooms st' = rooms st → keyed st ∧ room_unique st → keyed st' ∧ room_unique st'.
Proof.
  intros Hrooms. apply shrink_keeps_invariant. intros rid r'. rewrite Hrooms. eauto 10.
Qed.

Lemma drop_player_shrinks user r :
  room_id (drop_player user r) = room_id r
  ∧ status (drop_player user r) = status r
  ∧ ∀ u, u ∈ players (drop_player user r) → u ∈ players r.
Proof.
  unfold drop_player. case_bool_decide; [|done]. simpl.
  repeat split. by intros u [_ ?]%list_elem_of_filter.
Qed.

Lemma create_room_body_keeps_invariant fuel cfg w user mp version st :
  keyed st ∧ room_unique st →
  keyed (create_room_body fuel cfg w user mp version st).2
  ∧ room_unique (create_room_body fuel cfg w user mp version st).2.
Proof.
  intros Hinv. unfold create_room_body, create_room_check, create_room_spawn,
    create_room_insert.
  assert (keyed (_next_room_id st).2 ∧ room_unique (_next_room_id st).2) as Hinv1
    by (by apply (same_rooms_keep_invariant st)).
  destruct (_next_room_id st) as [rid st1]. simpl in Hinv1.
  destruct (in_waiting_room user None st1) eqn:Hin; [done|].
  destruct (_find_free_port _ _ _ _ _) as [port|]; [|done].
  destruct (resolve_entry cfg w) as [entry|]; [|done].
  destruct (popen_ok w); [|done]. cbn [negb snd]. unfold set_rooms. cbn [rooms room_id].
  destruct Hinv1 as [Hk Hu]. split.
  - intros rid' r. cbn [rooms]. rewrite lookup_insert. case_decide; [|by apply Hk].
    intros [= <-]. done.
  - assert (∀ rid2 r2 v, rooms st1 !! rid2 = Some r2 → status r2 = waiting →
              v ∈ players r2 → v ≠ user) as Hfresh.
    { intros rid2 r2 v H2 Hs2 Hv2 ->.
      assert (in_waiting_room user None st1 = true) as Hyes; [|congruence].
      apply in_waiting_room_true. exists rid2, r2. done. }
    intros v rid1 rid2 (r1 & H1 & Hs1 & Hv1) (r2 & H2 & Hs2 & Hv2).
    cbn [rooms] in H1, H2. rewrite lookup_insert in H1, H2.
    destruct (decide (rid = rid1)) as [<-|Hne1];
      destruct (decide (rid = rid2)) as [<-|Hne2]; [done| | |].
    + simplify_eq. simpl in Hv1. apply list_elem_of_singleton in Hv1.
      by destruct (Hfresh _ _ _ H2 Hs2 Hv2).
    + simplify_eq. simpl in Hv2. apply list_elem_of_singleton in Hv2.
      by destruct (Hfresh _ _ _ H1 Hs1 Hv1).
    + apply (Hu v); [exists r1 | exists r2]; done.
Qed.

Lemma create_room_keeps_invariant fuel cfg w username max_players version st :
  keyed st ∧ room_unique st →
  keyed (handle_create_room fuel cfg w username max_players version st).2
  ∧ room_unique (handle_create_room fuel cfg w username max_players version st).2.
Proof.
  intros Hinv. unfold handle_create_room.
  destruct max_players; [| |done..]; by apply create_room_body_keeps_invariant.
Qed.

Lemma join_room_keeps_invariant room_id username st :
  keyed st ∧ room_unique st →
  keyed (handle_join_room room_id username st).2
  ∧ room_unique (handle_join_room room_id username st).2.
Proof.
  intros [Hk Hu]. unfold handle_join_room.
  destruct (given_pair room_id username) as [[rid user]|]; [|done].
  destruct (in_waiting_room user (Some rid) st) eqn:Hin; [done|].
  destruct (rooms st !! rid) as [room|] eqn:Hroom; [|done].
  destruct (decide (status room = waiting)) as [Hs|Hs]; cycle 1.
  { by rewrite bool_decide_eq_false_2. }
  rewrite bool_decide_eq_true_2 by done. cbn [negb].
  destruct (_ && _); [done|]. cbn [snd].
  set (room' := if bool_decide (user ∈ players room) then room
                else set_players (players room ++ [user]) room).
  assert (Lobby.room_id room' = Lobby.room_id room ∧ status room' = status room
          ∧ ∀ v, v ∈ players room' → v ∈ players room ∨ v = user) as (Hid & Hst & Hpl).
  { subst room'. case_bool_decide; [by eauto|]. simpl. repeat split.
    intros v [?|?%list_elem_of_singleton]%elem_of_app; eauto. }
  split.
  - intros rid' r. cbn [rooms set_rooms]. rewrite lookup_insert. case_decide; [|by apply Hk].
    intros [= <-]. subst rid'. rewrite Hid. by apply Hk.
  - assert (∀ rid2 r2, rid2 ≠ rid → rooms st !! rid2 = Some r2 → status r2 = waiting →
              user ∉ players r2) as Hfresh.
    { intros rid2 r2 Hne H2 Hs2 Hv2.
      assert (in_waiting_room user (Some rid) st = true) as Hyes; [|congruence].
      apply in_waiting_room_true. exists rid2, r2. repeat split; try done.
      rewrite (Hk _ _ H2). congruence. }
    assert (∀ v rid2 r2, rid2 ≠ rid → v ∈ players room' →
              rooms st !! rid2 = Some r2 → status r2 = waiting → v ∈ players r2 → False)
      as Hclash.
    { intros v rid2 r2 Hne Hv H2 Hs2 Hv2. destruct (Hpl v Hv) as [Hold| ->].
      - apply Hne. apply (Hu v); [exists r2 | exists room]; done.
      - by apply (Hfresh rid2 r2). }
    intros v rid1 rid2 (r1 & H1 & Hs1 & Hv1) (r2 & H2 & Hs2 & Hv2).
    cbn [rooms set_rooms] in H1, H2. rewrite lookup_insert in H1, H2.
    destruct (decide (rid = rid1)) as [<-|Hne1];
      destruct (decide (rid = rid2)) as [<-|Hne2]; [done| | |].
    + simplify_eq. destruct (Hclash v rid2 r2); done.
    + simplify_eq. destruct (Hclash v rid1 r1); done.
    + apply (Hu v); [exists r1 | exists r2]; done.
Qed.

Lemma leave_room_keeps_invariant username room_id st :
  keyed st ∧ room_unique st →
  keyed (handle_leave_room username room_id st).2
  ∧ room_unique (handle_leave_room username room_id st).2.
Proof.
  intros Hinv. unfold handle_leave_room.
  destruct (given username) as [user|]; [|done].
  assert (∀ removed st',
            keyed st' ∧ room_unique st' →
            keyed (if removed : bool
                   then (make_ok "leave_room" (DLeft (default "" (or_str room_id (Some "")))),
                         st')
                   else (make_error "leave_room" "NOT_IN_ROOM", st')).2
            ∧ room_unique
                (if removed : bool
                 then (make_ok "leave_room" (DLeft (default "" (or_str room_id (Some "")))),
                       st')
                 else (make_error "leave_room" "NOT_IN_ROOM", st')).2) as Hreply.
  { by intros [] st'. }
  destruct (given room_id) as [rid|].
  - destruct (rooms st !! rid) as [room|] eqn:Hroom; [|exact Hinv].
    apply Hreply. revert Hinv. apply shrink_keeps_invariant.
    intros rid' r'. cbn [rooms set_rooms]. rewrite lookup_insert. case_decide.
    + intros [= <-]. subst rid'. exists room.
      destruct (drop_player_shrinks user room) as (? & Hs & ?).
      repeat split; try done. by rewrite Hs.
    + eauto 10.
  - apply Hreply. revert Hinv. apply shrink_keeps_invariant.
    intros rid' r'. cbn [rooms set_rooms]. rewrite lookup_fmap.
    destruct (rooms st !! rid') as [room|]; [|done]. intros [= <-]. exists room.
    destruct (drop_player_shrinks user room) as (? & Hs & ?).
    repeat split; try done. by rewrite Hs.
Qed.

Lemma monitor_room_keeps_invariant rid proc st :
  keyed st ∧ room_unique st →
  keyed (_monitor_room rid proc st) ∧ room_unique (_monitor_room rid proc st).
Proof.
  intros Hinv. unfold _monitor_room.
  destruct (rooms st !! rid) as [room|] eqn:Hroom; [|done].
  case_bool_decide; [|done].
  revert Hinv. apply shrink_keeps_invariant.
  intros rid' r'. cbn [rooms set_rooms]. rewrite lookup_insert. case_decide.
  - intros [= <-]. subst rid'. exists room. by repeat split.
  - eauto 10.
Qed.

Lemma apply_keeps_invariant fuel cfg op st :
  keyed st ∧ room_unique st →
  keyed (apply fuel cfg op st) ∧ room_unique (apply fuel cfg op st).
Proof.
  destruct op; simpl.
  - apply create_room_keeps_invariant.
  - apply join_room_keeps_invariant.
  - apply leave_room_keeps_invariant.
  - apply monitor_room_keeps_invariant.
Qed.

End lobby_facts.

Example room_of_two_players :
  Lobby.players <$> Lobby.rooms Scenario.room_of_two !! "R1" = Some ["alice"; "bob"]
  ∧ (Lobby.handle_create_room 1 Scenario.lobby_config Scenario.lobby_world
       (Some "bob") (Py.ArgInt 2) None Scenario.room_of_two).1
    = Lobby.Replied (Lobby.make_error "create_room" "ALREADY_IN_ROOM")
  ∧ (Lobby.handle_join_room (Some "R1") (Some "carol") Scenario.room_of_two).1
    = Lobby.make_error "join_room" "ROOM_FULL".
Proof. repeat split; vm_compute; reflexivity. Qed.

(** When the calls come one after the other, each run to its end before
    the next begins, every user name is listed in at most one room
    whose status is [waiting], in every state the lobby reaches from its
    start. *)
Theorem calls_in_turn_keep_waiting_rooms_disjoint :
  ∀ fuel cfg ops, Spec.room_unique (Lobby.run fuel cfg ops Lobby.init).
Proof.
  intros fuel cfg ops.
  assert (Spec.keyed Lobby.init ∧ Spec.room_unique Lobby.init) as Hinit.
  { split.
    - intros rid r Hr. cbn [Lobby.rooms Lobby.init] in Hr. by rewrite lookup_empty in Hr.
    - intros u rid1 rid2 (r & Hr & _).
      cbn [Lobby.rooms Lobby.init] in Hr. by rewrite lookup_empty in Hr. }
  unfold Lobby.run. revert Hinit. generalize Lobby.init.
  induction ops as [|op ops IH]; intros st Hinv; [by destruct Hinv|].
  simpl. apply IH. by apply apply_keeps_invariant.
Qed.

(** C6, the code at the failing input.  Two [create_room] requests for
    alice reach a lobby with no rooms at the same time, and the threads
    that serve them both draw a room id and both pass the
    [ALREADY_IN_ROOM] check before either has stored its room: the
    first then starts its room server on port 12000 and stores [R1],
    the second finds that port bound, starts its own on 12001 and
    stores [R2].  Both calls have returned, and alice is the player of
    two rooms whose status is [waiting]. *)
Theorem overlapping_create_room_calls_seat_a_user_twice :
  let th := Lobby.play 2 Scenario.lobby_config Scenario.racing_creates Lobby.start in
  let rooms := Lobby.rooms (Lobby.table th) in
  Lobby.pending th = ∅
  ∧ (λ r, (Lobby.status r, Lobby.players r, Lobby.room_server_port r)) <$> rooms !! "R1"
    = Some (Lobby.waiting, ["alice"], 12000)
  ∧ (λ r, (Lobby.status r, Lobby.players r, Lobby.room_server_port r)) <$> rooms !! "R2"
    = Some (Lobby.waiting, ["alice"], 12001)
  ∧ ¬ Spec.room_unique (Lobby.table th).
Proof.
  intros th rooms.
  assert (∃ r1 r2, rooms !! "R1" = Some r1 ∧ rooms !! "R2" = Some r2
                   ∧ Lobby.status r1 = Lobby.waiting ∧ Lobby.players r1 = ["alice"]
                   ∧ Lobby.status r2 = Lobby.waiting ∧ Lobby.players r2 = ["alice"])
    as (r1 & r2 & H1 & H2 & Hs1 & Hp1 & Hs2 & Hp2).
  { eexists _, _. repeat split; vm_compute; reflexivity. }
  split; [vm_compute; reflexivity|].
  split; [vm_compute; reflexivity|].
  split; [vm_compute; reflexivity|].
  intros Hunique.
  assert ("R1" = "R2") as Heq; [|discriminate].
  apply (Hunique "alice").
  - exists r1. rewrite Hp1. split; [done|]. split; [done|]. apply list_elem_of_here.
  - exists r2. rewrite Hp2. split; [done|]. split; [done|]. apply list_elem_of_here.
Qed.

(** * Behaviour of the handlers and invariants of the servers *)

(** ** The metadata store: users, comments, games *)

Section user_facts.
Import Py Db DbView.

Lemma existsb_find_None {A} (p : A → bool) (l : list A) :
  existsb p l = false ↔ find p l = None.
Proof.
  induction l as [|x l IH]; [done|]. simpl. destruct (p x); simpl; [done|]. apply IH.
Qed.

Lemma find_username_not_in u (us : list User) :
  find (λ x, bool_decide (u_username x = u)) us = None ↔ u ∉ u_username <$> us.
Proof.
  induction us as [|x us IH].
  - split; [|done]. intros _ H. by apply elem_of_nil in H.
  - rewrite fmap_cons, not_elem_of_cons. cbn [find].
    destruct (decide (u_username x = u)) as [Hx|Hx].
    + rewrite (bool_decide_eq_true_2 _ Hx). split; [done|]. intros [? _]. congruence.
    + rewrite (bool_decide_eq_false_2 _ Hx), IH. split; [|tauto].
      intros H. split; [congruence|done].
Qed.

End user_facts.



(** X2.  [register_user] refuses a name with a forbidden character
    ([INVALID_USERNAME]) and a name already taken ([USERNAME_EXISTS]),
    leaving the store as it was; and a store whose user names are
    pairwise distinct stays so after any call. *)
Theorem register_user_keeps_usernames_unique :
  ∀ u p db,
    (Db.has_invalid_char u = true →
       Db.register_user u p db = ((false, Some "INVALID_USERNAME"), db))
    ∧ (Db.has_invalid_char u = false → is_Some (Db.get_user u db) →
       Db.register_user u p db = ((false, Some "USERNAME_EXISTS"), db))
    ∧ (NoDup (DbView.usernames db) → NoDup (DbView.usernames (Db.register_user u p db).2)).
Proof.
  intros u p db. unfold Db.register_user. split; [by intros ->|]. split.
  - intros -> [x Hx]. unfold Db.get_user in Hx.
    destruct (existsb _ _) eqn:He; [done|].
    apply existsb_find_None in He. congruence.
  - intros Hnd. destruct (Db.has_invalid_char u); [done|].
    destruct (existsb _ _) eqn:He; [done|].
    apply existsb_find_None, find_username_not_in in He.
    unfold DbView.usernames. simpl. rewrite fmap_app. simpl.
    apply NoDup_app. split; [done|]. split.
    + intros x Hx ->%list_elem_of_singleton. done.
    + apply NoDup_singleton.
Qed.

Lemma register_user_keeps_usernames_unique_witness :
  Db.register_user "bob" "other" (Db.register_user "bob" "secret" Db.empty).2
  = ((false, Some "USERNAME_EXISTS"), (Db.register_user "bob" "secret" Db.empty).2).
Proof.
  apply (proj1 (proj2 (register_user_keeps_usernames_unique "bob" "other"
                         (Db.register_user "bob" "secret" Db.empty).2))).
  - vm_compute. reflexivity.
  - vm_compute. eauto.
Defined.



Section storage_removal_facts.
Import Py Db.

Lemma remove_game_accepted n a db fs g :
  get_game n db = Some g →
  truthy_str a && truthy_str (g_author g) && negb (bool_decide (g_author g = a)) = false →
  remove_game n a db fs
  = ((true, None), (remove_records n a db).2, remove_storage n fs)
  ∧ (remove_records n a db).1 = (true, None).
Proof.
  intros Hg Hauth. unfold remove_game, remove_records. by rewrite Hg, Hauth.
Qed.

Lemma remove_storage_inside n fs p :
  Fs.is_file (STORAGE_DIR ++ [n]) fs = false →
  STORAGE_DIR ++ [n] `prefix_of` p →
  Fs.files (remove_storage n fs) !! p = None.
Proof.
  intros Hfile Hp. unfold remove_storage. rewrite Hfile. by apply files_rmtree_inside.
Qed.

Lemma remove_storage_outside n fs p :
  ¬ STORAGE_DIR ++ [n] `prefix_of` p →
  Fs.files (remove_storage n fs) !! p = Fs.files fs !! p.
Proof.
  intros Hp. unfold remove_storage. destruct (Fs.is_file _ _); [done|].
  by apply files_rmtree_outside.
Qed.

End storage_removal_facts.

(** X4.  When [remove_game n a], for a name [n] that is a single path
    component, is not refused for ownership, it returns [(True, None)];
    afterwards the game is gone, it has no comments, no user lists it
    among the games downloaded or owned, and the records and comments
    of every other game are unchanged; on the disk, the files below
    the storage directory of [n] are removed (a regular file of that
    name apart) and every other file is as before. *)
Theorem remove_game_cascades :
  ∀ n a db fs g,
    Py.plain_name n = true →
    Db.get_game n db = Some g →
    Py.truthy_str a && Py.truthy_str (Db.g_author g)
      && negb (bool_decide (Db.g_author g = a)) = false →
    let r := Db.remove_game n a db fs in
    r.1.1 = (true, None)
    ∧ Db.get_game n r.1.2 = None
    ∧ Db.list_comments n r.1.2 = []
    ∧ (∀ usr, usr ∈ Db.users r.1.2 → (n ∉ Db.u_games usr) ∧ (n ∉ Db.u_games_own usr))
    ∧ (∀ n', n' ≠ n →
         Db.get_game n' r.1.2 = Db.get_game n' db
         ∧ Db.list_comments n' r.1.2 = Db.list_comments n' db)
    ∧ (Fs.is_file (Db.STORAGE_DIR ++ [n]) fs = false →
       ∀ p, Db.STORAGE_DIR ++ [n] `prefix_of` p → Fs.files r.2 !! p = None)
    ∧ (∀ p, ¬ Db.STORAGE_DIR ++ [n] `prefix_of` p → Fs.files r.2 !! p = Fs.files fs !! p).
Proof.
  intros n a db fs g _ Hg Hauth r. subst r.
  destruct (remove_game_accepted n a db fs g Hg Hauth) as [-> _].
  cbn [fst snd]. unfold Db.remove_records. rewrite Hg, Hauth. cbn [snd].
  split; [done|]. split; [|split; [|split; [|split; [|split]]]].
  - unfold Db.get_game. simpl. apply find_filter_out.
    intros x Hx%bool_decide_eq_true. tauto.
  - unfold Db.list_comments. simpl. apply filter_excluded. tauto.
  - intros usr [x [-> _]]%list_elem_of_fmap. simpl.
    split; intros [? _]%list_elem_of_filter; done.
  - intros n' Hne. split.
    + unfold Db.get_game. simpl. apply find_filter_keep.
      intros x Hx%bool_decide_eq_true. congruence.
    + unfold Db.list_comments. simpl. apply filter_filter_comm_keep. congruence.
  - intros Hfile p Hp. by apply remove_storage_inside.
  - intros p Hp. by apply remove_storage_outside.
Qed.

Lemma remove_game_cascades_witness :
  let db := (Db.upsert_game "g" "1" "g.zip" (Some "alice") "" None None None
               (Db.add_comment "g" "bob" 4 "ok" Db.empty)).2 in
  let fs := Fs.write_file ["db"; "storage"; "g"; "g.zip"] Scenario.archive Fs.empty in
  let r := Db.remove_game "g" (Some "alice") db fs in
  Db.get_game "g" r.1.2 = None
  ∧ Db.list_comments "g" r.1.2 = []
  ∧ Fs.files r.2 !! ["db"; "storage"; "g"; "g.zip"] = None.
Proof.
  intros db fs r.
  destruct (remove_game_cascades "g" (Some "alice") db fs
              (Db.mkGame "g" "1" "g.zip" ["db"; "storage"; "g"; "g.zip"] "" (Some "alice")
                 None 1 4)
              ltac:(vm_compute; reflexivity) ltac:(vm_compute; reflexivity)
              ltac:(vm_compute; reflexivity))
    as (_ & Hg & Hc & _ & _ & Hin & _).
  split; [exact Hg|]. split; [exact Hc|].
  apply Hin; [vm_compute; reflexivity|]. by exists ["g.zip"].
Defined.

Section ownership_facts.
Import Py Db.



End ownership_facts.



Section upsert_facts.
Import Py Db Spec.



End upsert_facts.


(** ** Uploads, deletions and ownership *)

Section read_facts.
Import Py Spec Central.

Lemma read_exact_nothing w (reader : bytes) size :
  size ≤ 0 → _read_exact w reader size = (ReadSome [], reader).
Proof. intros Hle. unfold _read_exact. by rewrite read_exact_done. Qed.

Lemma read_exact_enough w (reader : bytes) size :
  readable w size →
  0 < size ≤ Z.of_nat (length reader) →
  _read_exact w reader size
  = (ReadSome (take (Z.to_nat size) reader), drop (Z.to_nat size) reader).
Proof.
  intros Hread [Hpos Hlen].
  pose proof (read_exact_app w (take (Z.to_nat size) reader) (drop (Z.to_nat size) reader))
    as Happ.
  rewrite take_drop, length_take in Happ.
  replace (Z.of_nat (Z.to_nat size `min` length reader)) with size in Happ by lia.
  by apply Happ.
Qed.

Lemma read_exact_short w (reader : bytes) size :
  readable w size →
  Z.of_nat (length reader) < size → _read_exact w reader size = (ReadNone, []).
Proof.
  intros Hread Hlt. unfold _read_exact.
  cbn [_read_exact_loop]. rewrite bool_decide_eq_true_2 by lia.
  rewrite Hread by lia. cbn [negb].
  unfold reader_read. rewrite take_ge, drop_ge by lia.
  destruct reader as [|b reader]; [done|].
  cbn [length _read_exact_loop]. rewrite bool_decide_eq_true_2 by (cbn [length] in Hlt; lia).
  rewrite Hread by (cbn [length] in *; lia). cbn [negb].
  unfold reader_read. by rewrite take_nil, drop_nil.
Qed.

Lemma read_exact_no_memory w (reader : bytes) size :
  0 < size → read_fits w size = false → _read_exact w reader size = (ReadRaised, reader).
Proof.
  intros Hpos Hfit. unfold _read_exact.
  cbn [_read_exact_loop]. rewrite bool_decide_eq_true_2 by lia. by rewrite Hfit.
Qed.

Lemma read_fits_bound w size : 2 ^ 63 ≤ size → read_fits w size = false.
Proof.
  intros Hbig. unfold read_fits. apply andb_false_iff. left. by apply Z.ltb_ge.
Qed.

End read_facts.

(** X7.  [_read_exact reader size] reads nothing for a size that is not
    positive.  When every [read] of up to [size] bytes finds its memory,
    it returns the first [size] bytes if the reader holds that many
    (leaving the rest unread), and [None], the reader drained, if the
    reader holds fewer.  When the first [read] finds no memory for
    [size] bytes, as it never does from [2^63] on, the exception leaves
    [_read_exact] with nothing read. *)
Theorem read_exact_reads_size_or_fails :
  ∀ w (reader : Py.bytes) size,
    (size ≤ 0 → Central._read_exact w reader size = (Central.ReadSome [], reader))
    ∧ (Spec.readable w size →
       (0 < size ≤ Z.of_nat (length reader) →
        Central._read_exact w reader size
        = (Central.ReadSome (take (Z.to_nat size) reader), drop (Z.to_nat size) reader))
       ∧ (Z.of_nat (length reader) < size →
          Central._read_exact w reader size = (Central.ReadNone, [])))
    ∧ (0 < size → Central.read_fits w size = false →
       Central._read_exact w reader size = (Central.ReadRaised, reader))
    ∧ (2 ^ 63 ≤ size → Central._read_exact w reader size = (Central.ReadRaised, reader)).
Proof.
  intros w reader size. split; [|split; [|split]].
  - apply read_exact_nothing.
  - intros Hread. split; [by apply read_exact_enough|by apply read_exact_short].
  - apply read_exact_no_memory.
  - intros Hbig. apply read_exact_no_memory; [lia|by apply read_fits_bound].
Qed.

Lemma read_exact_reads_size_or_fails_witness :
  Central._read_exact Scenario.world Scenario.junk 9 = (Central.ReadNone, [])
  ∧ Central._read_exact Scenario.world Scenario.junk (2 ^ 63)
    = (Central.ReadRaised, Scenario.junk).
Proof.
  split.
  - apply (proj1 (proj2 (read_exact_reads_size_or_fails Scenario.world Scenario.junk 9))).
    + intros n Hn. unfold Central.read_fits. apply andb_true_iff.
      split; [apply Z.ltb_lt|apply Z.leb_le]; lia.
    + simpl. lia.
  - apply (proj2 (proj2 (proj2
             (read_exact_reads_size_or_fails Scenario.world Scenario.junk (2 ^ 63))))).
    lia.
Defined.

(** X8.  An [upload_game_file] with an accepted header, under a game
    name that is a single path component and whose storage directory
    can be made, whose payload ends before [filesize] bytes while every
    [read] finds its memory, is answered [UPLOAD_FAILED]; no file is
    written, the metadata store is unchanged, and what arrived of the
    payload has been consumed. *)
Theorem short_upload_fails_and_stores_nothing :
  ∀ fuel cfg w ctx st user gn ver fnm size min max mn mx,
    Spec.header_accepted ctx st user gn ver fnm min max mn mx →
    Py.plain_name gn = true →
    Py.plain_name fnm = true →
    Fs.blocked (Db.STORAGE_DIR ++ [gn]) (Central.fs st) = false →
    Spec.readable w size →
    Z.of_nat (length (Central.ctx_reader ctx)) < size →
    ∃ r,
      Central.handle_dev fuel cfg w ctx
        (Central.UploadGameFile (Some gn) (Some ver) (Some fnm) (Some size) min max) st
      = Some r
      ∧ Central.r_out r
        = [Central.send_json (Central.make_error "dev" "upload_game_file" "UPLOAD_FAILED")]
      ∧ Central.r_raised r = false
      ∧ Central.ctx_reader (Central.r_ctx r) = []
      ∧ Central.db (Central.r_state r) = Central.db st
      ∧ Fs.files (Central.fs (Central.r_state r)) = Fs.files (Central.fs st).
Proof.
  intros fuel cfg w ctx st user gn ver fnm size min max mn mx
    (Hu & Hgn & Hver & Hfnm & Hmin & Hmax & Hrange & Hother) _ _ Hfree Hread Hshort.
  eexists. split; [by eapply handle_dev_upload_accepted|].
  unfold Central.upload_game_file. rewrite Hfree, read_exact_short by done. done.
Qed.

Lemma short_upload_fails_and_stores_nothing_witness :
  ∃ r,
    Central.handle_dev 0 Central.default_config Scenario.world
      (Central.mkCtx 1%nat Scenario.junk (Some "alice"))
      (Central.UploadGameFile (Some "g") (Some "1") (Some "g.zip") (Some 9)
         (Py.ArgInt 2) (Py.ArgInt 4))
      (Central.sys_state Scenario.alice_in)
    = Some r
    ∧ Central.r_out r
      = [Central.send_json (Central.make_error "dev" "upload_game_file" "UPLOAD_FAILED")]
    ∧ Central.r_raised r = false
    ∧ Central.ctx_reader (Central.r_ctx r) = []
    ∧ Central.db (Central.r_state r) = Central.db (Central.sys_state Scenario.alice_in)
    ∧ Fs.files (Central.fs (Central.r_state r))
      = Fs.files (Central.fs (Central.sys_state Scenario.alice_in)).
Proof.
  apply (short_upload_fails_and_stores_nothing 0 Central.default_config Scenario.world
           (Central.mkCtx 1%nat Scenario.junk (Some "alice"))
           (Central.sys_state Scenario.alice_in) "alice" "g" "1" "g.zip" 9
           (Py.ArgInt 2) (Py.ArgInt 4) 2 4).
  - repeat split; try done; vm_compute; congruence.
  - vm_compute. reflexivity.
  - vm_compute. reflexivity.
  - vm_compute. reflexivity.
  - intros n Hn. unfold Central.read_fits. apply andb_true_iff.
    split; [apply Z.ltb_lt|apply Z.leb_le]; lia.
  - simpl. lia.
Defined.

Section delete_facts.
Import Py Db.

Lemma get_game_remove_records n a db :
  (remove_records n a db).1.1 = true → get_game n (remove_records n a db).2 = None.
Proof.
  unfold remove_records. destruct (get_game n db) as [g|] eqn:Hg; [|done].
  destruct (_ && _); [done|]. intros _. unfold get_game. simpl.
  apply find_filter_out. intros x Hx%bool_decide_eq_true. tauto.
Qed.

Lemma list_comments_remove_records n a db :
  (remove_records n a db).1.1 = true → list_comments n (remove_records n a db).2 = [].
Proof.
  unfold remove_records. destruct (get_game n db) as [g|] eqn:Hg; [|done].
  destruct (_ && _); [done|]. intros _. unfold list_comments. simpl.
  apply filter_excluded. tauto.
Qed.

Lemma get_game_remove_records_ne n n' a db :
  n' ≠ n → get_game n' (remove_records n a db).2 = get_game n' db.
Proof.
  intros Hne. unfold remove_records. destruct (get_game n db) as [g|] eqn:Hg; [|done].
  destruct (_ && _); [done|]. unfold get_game. simpl.
  apply find_filter_keep. intros x Hx%bool_decide_eq_true. congruence.
Qed.

End delete_facts.

(** X9.  A [delete_game] by the recorded author (or of a game without
    author), for a game whose name is a single path component, is
    answered [ok]; afterwards the record and the comments of the game
    are gone, no file remains below its storage directory (unless that
    name is a regular file), its lobby entry is removed, and the other
    games, the other files, the children started and the sessions are
    unchanged. *)
Theorem delete_game_removes_record_files_and_lobby :
  ∀ fuel cfg w ctx st user name g,
    Py.given (Central.ctx_username ctx) = Some user →
    Py.plain_name name = true →
    Db.get_game name (Central.db st) = Some g →
    Db.g_author g = Some user ∨ Py.truthy_str (Db.g_author g) = false →
    ∃ st',
      Central.handle_dev fuel cfg w ctx (Central.DeleteGame (Some name)) st
      = Some (Central.reply ctx st'
                [Central.send_json
                   (Central.make_ok "dev" "delete_game" (Central.DDeleted name))])
      ∧ Db.get_game name (Central.db st') = None
      ∧ Db.list_comments name (Central.db st') = []
      ∧ Central.lobbies st' = delete name (Central.lobbies st)
      ∧ (Fs.is_file (Db.STORAGE_DIR ++ [name]) (Central.fs st) = false →
         ∀ p, (Db.STORAGE_DIR ++ [name]) `prefix_of` p →
              Fs.files (Central.fs st') !! p = None)
      ∧ (∀ p, ¬ (Db.STORAGE_DIR ++ [name]) `prefix_of` p →
              Fs.files (Central.fs st') !! p = Fs.files (Central.fs st) !! p)
      ∧ (∀ n', n' ≠ name →
              Db.get_game n' (Central.db st') = Db.get_game n' (Central.db st))
      ∧ Central.children st' = Central.children st
      ∧ Spec.auth_part st' = Spec.auth_part st.
Proof.
  intros fuel cfg w ctx st user name g Hu Hplain Hg Hauthor.
  assert (name ≠ "") as Hname by (by intros ->).
  assert (Py.truthy_str (Db.g_author g)
          && negb (bool_decide (Db.g_author g = Some user)) = false) as Hown.
  { destruct Hauthor as [Ha|Ha]; rewrite Ha; [|done].
    rewrite bool_decide_eq_true_2 by done. apply andb_false_r. }
  assert (Py.truthy_str (Some user) = true) as Htu.
  { apply given_Some in Hu as [_ Hne]. simpl. by rewrite bool_decide_eq_false_2. }
  assert (Py.truthy_str (Some user) && Py.truthy_str (Db.g_author g)
          && negb (bool_decide (Db.g_author g = Some user)) = false) as Hown'.
  { rewrite Htu. exact Hown. }
  destruct (remove_game_accepted name (Some user) (Central.db st) (Central.fs st) g Hg Hown')
    as [Hrm Hok].
  unfold Central.handle_dev, Central.delete_game.
  rewrite Hu, (given_nonempty _ Hname), Hg, Hown, Hrm.
  eexists. split; [reflexivity|].
  assert ((Db.remove_records name (Some user) (Central.db st)).1.1 = true) as Hsucc
    by (by rewrite Hok).
  unfold Central.stop_lobby.
  cbn [Central.lobbies Central.set_fs Central.set_db].
  destruct (Central.lobbies st !! name) as [l|] eqn:Hl; simpl.
  - split; [by apply get_game_remove_records|].
    split; [by apply list_comments_remove_records|].
    split; [done|].
    split; [intros Hfile p Hp; by apply remove_storage_inside|].
    split; [intros p Hp; by apply remove_storage_outside|].
    split; [intros n' Hne; by apply get_game_remove_records_ne|]. done.
  - split; [by apply get_game_remove_records|].
    split; [by apply list_comments_remove_records|].
    split; [by rewrite delete_id|].
    split; [intros Hfile p Hp; by apply remove_storage_inside|].
    split; [intros p Hp; by apply remove_storage_outside|].
    split; [intros n' Hne; by apply get_game_remove_records_ne|]. done.
Qed.

Lemma delete_game_removes_record_files_and_lobby_witness :
  ∃ st',
    Central.handle_dev 0 Central.default_config Scenario.world
      (Scenario.ctx_of 1%nat Scenario.g_running) (Central.DeleteGame (Some "g"))
      (Central.sys_state Scenario.g_running)
    = Some (Central.reply (Scenario.ctx_of 1%nat Scenario.g_running) st'
              [Central.send_json (Central.make_ok "dev" "delete_game" (Central.DDeleted "g"))])
    ∧ Db.get_game "g" (Central.db st') = None
    ∧ Central.lobbies st' = delete "g" (Central.lobbies (Central.sys_state Scenario.g_running)).
Proof.
  destruct (delete_game_removes_record_files_and_lobby 0 Central.default_config Scenario.world
              (Scenario.ctx_of 1%nat Scenario.g_running)
              (Central.sys_state Scenario.g_running) "alice" "g"
              (default (Db.mkGame "" "" "" [] "" None None 0 0)
                 (Db.get_game "g" (Central.db (Central.sys_state Scenario.g_running))))
              ltac:(vm_compute; reflexivity) ltac:(vm_compute; reflexivity)
              ltac:(vm_compute; reflexivity) ltac:(left; vm_compute; reflexivity))
    as (st' & Hr & Hg & _ & Hl & _).
  exists st'. by split; [|split].
Defined.

(** X10.  For a game recorded with a non-empty author, every
    [delete_game] sent for it from a session of another user is answered
    with an error, and every [upload_game_file] sent for it from such a
    session is refused: it is answered with an error, unless a players
    bound is a float infinity, on which [int] raises past the handler
    before the author is looked at, and nothing is sent.  In every case
    the state and the bytes that follow the request stay as they were. *)
Theorem only_the_author_replaces_or_deletes :
  ∀ fuel cfg w ctx st user name g owner,
    Py.given (Central.ctx_username ctx) = Some user →
    Db.get_game name (Central.db st) = Some g →
    Db.g_author g = Some owner → owner ≠ "" → owner ≠ user →
    (∃ code,
       Central.handle_dev fuel cfg w ctx (Central.DeleteGame (Some name)) st
       = Some (Central.reply ctx st
                 [Central.send_json (Central.make_error "dev" "delete_game" code)]))
    ∧ (∀ ver fnm size min max,
         (Py.int_overflows min = false → Py.int_overflows max = false →
          ∃ code,
            Central.handle_dev fuel cfg w ctx
              (Central.UploadGameFile (Some name) ver fnm size min max) st
            = Some (Central.reply ctx st
                      [Central.send_json (Central.make_error "dev" "upload_game_file" code)]))
         ∧ ((∃ code,
               Central.handle_dev fuel cfg w ctx
                 (Central.UploadGameFile (Some name) ver fnm size min max) st
               = Some (Central.reply ctx st
                         [Central.send_json
                            (Central.make_error "dev" "upload_game_file" code)]))
            ∨ Central.handle_dev fuel cfg w ctx
                (Central.UploadGameFile (Some name) ver fnm size min max) st
              = Some (Central.raise ctx st []))).
Proof.
  intros fuel cfg w ctx st user name g owner Hu Hg Ha Howner Hne.
  assert (Py.truthy_str (Db.g_author g)
          && negb (bool_decide (Db.g_author g = Some user)) = true) as Hown.
  { rewrite Ha. simpl. rewrite bool_decide_eq_false_2 by done.
    rewrite bool_decide_eq_false_2 by congruence. done. }
  split.
  - unfold Central.handle_dev, Central.delete_game. rewrite Hu.
    destruct (Py.given (Some name)) as [n|] eqn:Hn; [|by eexists].
    apply given_Some in Hn as [[= <-] _]. rewrite Hg, Hown. by eexists.
  - intros ver fnm size min max.
    assert (∀ mn mx,
              ∃ code,
                (if bool_decide (mn < 1) || bool_decide (mx < mn)
                 then Some (Central.reply ctx st
                              [Central.send_json
                                 (Central.make_error "dev" "upload_game_file"
                                    "INVALID_PLAYERS")])
                 else if Central.other_author user name st
                      then Some (Central.reply ctx st
                                   [Central.send_json
                                      (Central.make_error "dev" "upload_game_file"
                                         "GAME_EXISTS_OTHER_AUTHOR")])
                      else Some (Central.upload_game_file w ctx user name
                                   (default "" (Py.given ver)) (default "" (Py.given fnm))
                                   (default 0 size) mn mx st))
                = Some (Central.reply ctx st
                          [Central.send_json
                             (Central.make_error "dev" "upload_game_file" code)])) as Hcheck.
    { intros mn mx. destruct (_ || _); [by eexists|].
      unfold Central.other_author. rewrite Hg, Hown. by eexists. }
    unfold Central.handle_dev. rewrite Hu.
    destruct (Py.given (Some name)) as [n|] eqn:Hn; [|split; [intros _ _|left]; by eexists].
    apply given_Some in Hn as [[= <-] _].
    destruct (Py.given ver) as [ver'|]; [|split; [intros _ _|left]; by eexists].
    destruct (Py.given fnm) as [fnm'|]; [|split; [intros _ _|left]; by eexists].
    destruct size as [size|]; [|split; [intros _ _|left]; by eexists].
    cbn [default] in Hcheck.
    destruct (Py.int_overflows min) eqn:Hmin; [split; [done|by right]|].
    destruct (Py.int_or_default min 1) as [mn|]; [|split; [intros _ _|left]; by eexists].
    destruct (Py.int_overflows max) eqn:Hmax; [split; [done|by right]|].
    destruct (Py.int_or_default max _) as [mx|]; [|split; [intros _ _|left]; by eexists].
    split; [intros _ _|left]; apply Hcheck.
Qed.

Lemma only_the_author_replaces_or_deletes_witness :
  ∃ code,
    Central.handle_dev 0 Central.default_config Scenario.world
      (Central.mkCtx 2%nat [] (Some "bob")) (Central.DeleteGame (Some "g"))
      (Central.sys_state Scenario.g_uploaded)
    = Some (Central.reply (Central.mkCtx 2%nat [] (Some "bob"))
              (Central.sys_state Scenario.g_uploaded)
              [Central.send_json (Central.make_error "dev" "delete_game" code)]).
Proof.
  apply (proj1 (only_the_author_replaces_or_deletes 0 Central.default_config Scenario.world
                  (Central.mkCtx 2%nat [] (Some "bob"))
                  (Central.sys_state Scenario.g_uploaded) "bob" "g"
                  (default (Db.mkGame "" "" "" [] "" None None 0 0)
                     (Db.get_game "g" (Central.db (Central.sys_state Scenario.g_uploaded))))
                  "alice"
                  ltac:(vm_compute; reflexivity) ltac:(vm_compute; reflexivity)
                  ltac:(vm_compute; reflexivity) ltac:(done) ltac:(done))).
Defined.

(** ** The lobby table of the central server *)

Section lobby_table_facts.
Import Py Central LobbyTable.

Lemma taken_ports_spec st port :
  port ∉ taken_ports st ↔ ∀ n l, lobbies st !! n = Some l → lp_port l ≠ port.
Proof.
  unfold taken_ports. rewrite elem_of_list_to_set. split.
  - intros Hnot n l Hl Hp. apply Hnot. apply list_elem_of_In, in_map_iff.
    exists (n, l). split; [done|]. apply list_elem_of_In. by apply elem_of_map_to_list.
  - intros Hall [[n l] [Hp Hin]]%list_elem_of_In%in_map_iff.
    apply list_elem_of_In, elem_of_map_to_list in Hin. by eapply Hall.
Qed.

Lemma handle_auth_lobbies ctx req st :
  lobbies (r_state (handle_auth ctx req st)) = lobbies st
  ∧ children (r_state (handle_auth ctx req st)) = children st.
Proof.
  unfold handle_auth, login_check, login_commit. repeat case_match; simplify_eq/=; done.
Qed.

Lemma handle_store_lobbies w ctx req st :
  lobbies (r_state (handle_store w ctx req st)) = lobbies st
  ∧ children (r_state (handle_store w ctx req st)) = children st.
Proof. unfold handle_store. repeat case_match; simplify_eq/=; done. Qed.

Lemma ensure_lobbies w g st :
  lobbies (_ensure_extracted_package w g st).2 = lobbies st
  ∧ children (_ensure_extracted_package w g st).2 = children st.
Proof. unfold _ensure_extracted_package. repeat case_match; simplify_eq/=; done. Qed.

Lemma upload_lobbies w ctx user gn ver fnm size mn mx st :
  lobbies (r_state (upload_game_file w ctx user gn ver fnm size mn mx st)) = lobbies st
  ∧ children (r_state (upload_game_file w ctx user gn ver fnm size mn mx st)) = children st.
Proof. unfold upload_game_file. repeat case_match; simplify_eq/=; done. Qed.

Lemma start_lobby_change fuel cfg w n g st r st' :
  start_lobby_if_needed fuel cfg w n g st = Some (r, st') → lobby_change st st'.
Proof.
  unfold start_lobby_if_needed.
  set (g' := match g with Some g0 => Some g0 | None => Db.get_game n (db st) end).
  pose proof (ensure_lobbies w g' st) as [Hl Hc].
  destruct (_ensure_extracted_package w g' st) as [e st1]. simpl in Hl, Hc.
  destruct (match lobbies st !! n with
            | Some existing => _
            | None => None
            end) as [[h p]|] eqn:Hrunning.
  { intros [= _ <-]. by apply lobbies_same. }
  destruct e as [dir| |].
  2,3: intros [= _ <-]; by apply lobbies_same.
  destruct (_find_free_port _ _ _ _) as [port|] eqn:Hport; [|done].
  destruct (popen_ok w); intros [= _ <-]; [|by apply lobbies_same].
  rewrite central_find_free_port_first_free in Hport.
  apply first_free_sound in Hport as (_ & Hfree & _).
  unfold Spec.central_free in Hfree. apply andb_true_iff in Hfree as [Hfree _].
  apply bool_decide_eq_true in Hfree.
  eapply (lobby_started _ _ n (HOST cfg) port (ROOM_BASE_PORT cfg) dir).
  - apply taken_ports_spec. unfold taken_ports in *. by rewrite <- Hl.
  - simpl. by rewrite Hl, Hc.
  - simpl. by rewrite Hc.
Qed.

Lemma stop_lobby_change n st : lobby_change st (stop_lobby n st).2.
Proof.
  unfold stop_lobby. destruct (lobbies st !! n); [|by apply lobbies_same].
  by apply (lobby_removed _ _ n).
Qed.

Lemma handle_dev_lobby_change fuel cfg w ctx req st r :
  handle_dev fuel cfg w ctx req st = Some r → lobby_change st (r_state r).
Proof.
  unfold handle_dev.
  destruct (given (ctx_username ctx)) as [user|]; [|intros [= <-]; by apply lobbies_same].
  destruct req as [gn ver fnm size min max|gn|gn|gn|a].
  - destruct (given gn), (given ver), (given fnm), size;
      try (intros [= <-]; by apply lobbies_same).
    destruct (int_overflows min); [intros [= <-]; by apply lobbies_same|].
    destruct (int_or_default min 1); [|intros [= <-]; by apply lobbies_same].
    destruct (int_overflows max); [intros [= <-]; by apply lobbies_same|].
    destruct (int_or_default max _); [|intros [= <-]; by apply lobbies_same].
    destruct (_ || _); [intros [= <-]; by apply lobbies_same|].
    destruct (other_author _ _ _); intros [= <-]; [by apply lobbies_same|].
    apply lobbies_same; apply upload_lobbies.
  - destruct (given gn) as [name|]; [|intros [= <-]; by apply lobbies_same].
    destruct (Db.get_game name (db st)) as [game|]; [|intros [= <-]; by apply lobbies_same].
    destruct (start_lobby_if_needed fuel cfg w name (Some game) st) as [[res st']|] eqn:Hs;
      [|done].
    apply start_lobby_change in Hs. destruct res; by intros [= <-].
  - destruct (given gn) as [name|]; [|intros [= <-]; by apply lobbies_same].
    pose proof (stop_lobby_change name st) as Hs.
    destruct (stop_lobby name st) as [[] st']; by intros [= <-].
  - intros [= <-]. unfold delete_game.
    destruct (given gn) as [name|]; [|by apply lobbies_same].
    destruct (Db.get_game name (db st)); [|by apply lobbies_same].
    destruct (_ && _); [by apply lobbies_same|].
    destruct (Db.remove_game _ _ _ _) as [[[[] err] db'] fs']; [|by apply lobbies_same].
    simpl. unfold stop_lobby. simpl.
    destruct (lobbies st !! name); [|by apply lobbies_same].
    by apply (lobby_removed _ _ name).
  - intros [= <-]. by apply lobbies_same.
Qed.

Lemma dispatch_lobby_change fuel cfg w ctx m st r :
  dispatch fuel cfg w ctx m st = Some r → lobby_change st (r_state r).
Proof.
  destruct m as [req|req|req|ty a]; simpl.
  - intros [= <-]. apply lobbies_same; apply handle_auth_lobbies.
  - intros [= <-]. apply lobbies_same; apply handle_store_lobbies.
  - apply handle_dev_lobby_change.
  - intros [= <-]. by apply lobbies_same.
Qed.

Lemma tick_lobby_change fuel cfg t sys :
  lobby_change (sys_state sys) (sys_state (tick fuel cfg t sys)).
Proof.
  destruct t as [w ev|lobby]; simpl.
  - destruct ev as [c|c m rest|c]; simpl.
    + destruct (sessions sys !! c); by apply lobbies_same.
    + destruct (sessions sys !! c) as [ctx|]; [|by apply lobbies_same].
      destruct (dispatch _ _ _ _ _ _) as [r|] eqn:Hd; [|by apply lobbies_same].
      apply dispatch_lobby_change in Hd.
      destruct (r_raised r); simpl; [|done].
      destruct Hd as [Hl Hc|n Hl Hc|n h p rps dir Hp Hl Hc].
      * by apply lobbies_same.
      * by apply (lobby_removed _ _ n).
      * by apply (lobby_started _ _ n h p rps dir).
    + destruct (sessions sys !! c); by apply lobbies_same.
  - unfold _monitor_lobby. case_bool_decide; [|by apply lobbies_same].
    by apply (lobby_removed _ _ (lp_game_name lobby)).
Qed.

Lemma lobby_change_keeps_tracked st st' :
  lobby_change st st' → lobbies_tracked st → lobbies_tracked st'.
Proof.
  intros [Hl Hc|n Hl Hc|n h p rps dir Hp Hl Hc] Hinv n' l; rewrite Hl, Hc.
  - apply Hinv.
  - intros [_ Hn]%lookup_delete_Some. by apply Hinv.
  - intros [[<- <-]|[Hne Hn]]%lookup_insert_Some.
    + split; [done|]. simpl. exists (mkChild h p rps dir n). split; [|done].
      rewrite lookup_app_r by done. by rewrite Nat.sub_diag.
    + destruct (Hinv _ _ Hn) as (Hname & c & Hc' & Hrest).
      split; [done|]. exists c. split; [|done].
      by apply lookup_app_l_Some.
Qed.

Lemma lobby_change_keeps_ports st st' :
  lobby_change st st' → lobby_ports_distinct st → lobby_ports_distinct st'.
Proof.
  intros [Hl Hc|n Hl Hc|n h p rps dir Hp Hl Hc] Hinv n1 n2 l1 l2; rewrite Hl.
  - apply Hinv.
  - intros [_ H1]%lookup_delete_Some [_ H2]%lookup_delete_Some. by apply Hinv.
  - intros [[<- <-]|[Hne1 H1]]%lookup_insert_Some [[<- <-]|[Hne2 H2]]%lookup_insert_Some;
      simpl; try done.
    + intros Heq. by destruct (Hp _ _ H2).
    + intros Heq. by destruct (Hp _ _ H1).
    + by apply Hinv.
Qed.

End lobby_table_facts.

(** X11.  In every state the central server reaches from its start, by
    client requests and by exits of lobby children seen by their monitor
    threads, each entry of the lobby table is stored under its game name
    and its handle is the child started for that game on the entry's
    host and port; and no two entries have the same port. *)
Theorem lobby_table_is_consistent :
  ∀ fuel cfg ts,
    LobbyTable.lobbies_tracked (Central.sys_state (LobbyTable.ticks fuel cfg ts Central.boot))
    ∧ LobbyTable.lobby_ports_distinct (Central.sys_state (LobbyTable.ticks fuel cfg ts Central.boot)).
Proof.
  intros fuel cfg ts. unfold LobbyTable.ticks.
  induction ts as [|t ts IH] using rev_ind.
  - split.
    + intros n l Hl. simpl in Hl. by rewrite lookup_empty in Hl.
    + intros n1 n2 l1 l2 Hl. simpl in Hl. by rewrite lookup_empty in Hl.
  - rewrite foldl_app. simpl. destruct IH as [Ht Hp].
    pose proof (tick_lobby_change fuel cfg t
                  (foldl (λ s t0, LobbyTable.tick fuel cfg t0 s) Central.boot ts)) as Hch.
    split.
    + by eapply lobby_change_keeps_tracked.
    + by eapply lobby_change_keeps_ports.
Qed.

(** ** Error replies, launches and downloads *)

Section error_facts.
Import Py Central.

Lemma register_user_refused u p d :
  (Db.register_user u p d).1.1 = false → (Db.register_user u p d).2 = d.
Proof.
  unfold Db.register_user. destruct (Db.has_invalid_char u); [done|].
  by destruct (existsb _ _).
Qed.

Lemma set_db_same st : set_db (λ _, db st) st = st.
Proof. by destruct st. Qed.

Lemma handle_auth_error ctx req st code :
  Spec.reply_error (r_out (handle_auth ctx req st)) = Some code →
  handle_auth ctx req st
  = reply ctx st [send_json (make_error "auth"
                               match req with
                               | Register _ _ => "register"
                               | Login _ _ => "login"
                               | Logout => "logout"
                               | AuthOther a => or_unknown a
                               end code)].
Proof.
  unfold handle_auth, login_check, login_commit. destruct req as [u p|u p| |a].
  - destruct (given u) as [u'|]; [|by intros [= <-]].
    destruct (given p) as [p'|]; [|by intros [= <-]].
    pose proof (register_user_refused u' p' (db st)) as Hd.
    destruct (Db.register_user u' p' (db st)) as [[[] c] db']; [done|].
    simpl in Hd. rewrite Hd by done. rewrite set_db_same. by intros [= <-].
  - destruct (given u) as [u'|]; [|by intros [= <-]].
    destruct (given p) as [p'|]; [|by intros [= <-]].
    destruct (bool_decide _); [by intros [= <-]|].
    destruct (Db.authenticate_user _ _ _); [done|by intros [= <-]].
  - destruct (given _); [done|by intros [= <-]].
  - by intros [= <-].
Qed.

Lemma handle_store_error w ctx req st code :
  Spec.reply_error (r_out (handle_store w ctx req st)) = Some code →
  r_state (handle_store w ctx req st) = st ∧ r_ctx (handle_store w ctx req st) = ctx.
Proof.
  unfold handle_store. repeat case_match; simplify_eq/=; done.
Qed.

End error_facts.

Section dev_error_facts.
Import Py Central.

Lemma start_failed_frame fuel cfg w n g st st' :
  start_lobby_if_needed fuel cfg w n g st = Some (StartedFailed, st') →
  lobbies st' = lobbies st ∧ children st' = children st.
Proof.
  unfold start_lobby_if_needed.
  set (g' := match g with Some g0 => Some g0 | None => Db.get_game n (db st) end).
  pose proof (ensure_lobbies w g' st) as [Hl Hc].
  destruct (_ensure_extracted_package w g' st) as [e st1]. simpl in Hl, Hc.
  destruct (match lobbies st !! n with
            | Some existing => _
            | None => None
            end) as [[h p]|]; [done|].
  destruct e as [dir| |]; [|by intros [= <-]|done].
  destruct (_find_free_port _ _ _ _) as [port|]; [|done].
  destruct (popen_ok w); [done|]. by intros [= <-].
Qed.

Lemma upload_game_file_error w ctx user gn ver fnm size mn mx st code :
  Spec.reply_error (r_out (upload_game_file w ctx user gn ver fnm size mn mx st)) = Some code →
  code ∈ ["UPLOAD_FAILED"; "UNZIP_FAILED"]
  ∧ db (r_state (upload_game_file w ctx user gn ver fnm size mn mx st)) = db st.
Proof.
  unfold upload_game_file.
  destruct (Fs.blocked _ _); [done|].
  destruct (_read_exact w (ctx_reader ctx) size) as [[payload| |] reader']; [| |done].
  2: { intros [= <-]. split; [|done]. rewrite !elem_of_cons. tauto. }
  destruct (negb _). { intros [= <-]. split; [|done]. rewrite !elem_of_cons. tauto. }
  destruct (Fs.is_dir _ _); [done|].
  destruct (Fs.is_file _ _); [done|].
  destruct (match Fs.files _ !! _ with Some archive => _ | None => _ end) as [entries ok].
  destruct ok; simpl; [done|]. intros [= <-]. split; [|done]. rewrite !elem_of_cons. tauto.
Qed.

Lemma handle_dev_error fuel cfg w ctx req st r code :
  handle_dev fuel cfg w ctx req st = Some r →
  Spec.reply_error (r_out r) = Some code →
  (code ≠ "LAUNCH_FAILED" → db (r_state r) = db st)
  ∧ (code ∉ ["UPLOAD_FAILED"; "UNZIP_FAILED"; "LAUNCH_FAILED"] →
     r_state r = st ∧ r_ctx r = ctx).
Proof.
  unfold handle_dev.
  destruct (given (ctx_username ctx)) as [user|]; [|by intros [= <-]].
  destruct req as [gn ver fnm size min max|gn|gn|gn|a].
  - destruct (given gn), (given ver), (given fnm), size; try by intros [= <-].
    destruct (int_overflows min); [by intros [= <-]|].
    destruct (int_or_default min 1); [|by intros [= <-]].
    destruct (int_overflows max); [by intros [= <-]|].
    destruct (int_or_default max _); [|by intros [= <-]].
    destruct (_ || _); [by intros [= <-]|].
    destruct (other_author _ _ _); intros [= <-]; [done|].
    intros [Hcode Hdb]%upload_game_file_error. split; [done|].
    intros Hnot. exfalso. apply Hnot.
    rewrite !elem_of_cons in Hcode. rewrite !elem_of_cons. tauto.
  - destruct (given gn) as [name|]; [|by intros [= <-]].
    destruct (Db.get_game name (db st)) as [game|]; [|by intros [= <-]].
    destruct (start_lobby_if_needed fuel cfg w name (Some game) st) as [[res st']|] eqn:Hs;
      [|done].
    destruct res; intros [= <-]; [done| |done].
    intros [= <-]. split; [done|]. intros Hnot. exfalso. apply Hnot.
    rewrite !elem_of_cons. tauto.
  - destruct (given gn) as [name|]; [|by intros [= <-]].
    unfold stop_lobby. destruct (lobbies st !! name); by intros [= <-].
  - intros [= <-]. unfold delete_game.
    destruct (given gn) as [name|]; [|done].
    destruct (Db.get_game name (db st)); [|done].
    destruct (_ && _); [done|].
    pose proof (remove_records_games name (Some user) (db st)) as Hgames.
    unfold Db.remove_game.
    destruct (Db.remove_records _ _ _) as [[[] err] db']; [done|].
    cbn [r_out Spec.reply_error reply]. by intros [= <-].
  - by intros [= <-].
Qed.

End dev_error_facts.

(** X12.  Whatever the request, an upload or a deletion naming its game
    and its file by single path components, when the reply is a single
    error the lobby table, the children started, the session tables and
    the session's user name are unchanged; the metadata store is
    unchanged unless the code is [LAUNCH_FAILED]; and unless the code is
    [UPLOAD_FAILED], [UNZIP_FAILED] or [LAUNCH_FAILED] the whole state,
    the disk and the unread bytes included, is as before. *)
Theorem error_replies_leave_records_unchanged :
  ∀ fuel cfg w ctx m st r code,
    Spec.plain_request m = true →
    Central.dispatch fuel cfg w ctx m st = Some r →
    Spec.reply_error (Central.r_out r) = Some code →
    Central.lobbies (Central.r_state r) = Central.lobbies st
    ∧ Central.children (Central.r_state r) = Central.children st
    ∧ Spec.auth_part (Central.r_state r) = Spec.auth_part st
    ∧ Central.ctx_username (Central.r_ctx r) = Central.ctx_username ctx
    ∧ (code ≠ "LAUNCH_FAILED" → Central.db (Central.r_state r) = Central.db st)
    ∧ (code ∉ ["UPLOAD_FAILED"; "UNZIP_FAILED"; "LAUNCH_FAILED"] →
       Central.r_state r = st ∧ Central.r_ctx r = ctx).
Proof.
  intros fuel cfg w ctx m st r code _ Hd Hcode.
  destruct m as [req|req|req|ty a]; simpl in Hd.
  - injection Hd as <-. rewrite (handle_auth_error _ _ _ _ Hcode). done.
  - injection Hd as <-. destruct (handle_store_error _ _ _ _ _ Hcode) as [-> ->]. done.
  - destruct (handle_dev_error _ _ _ _ _ _ _ _ Hd Hcode) as [Hdb Hst].
    destruct (dev_frame _ _ _ _ _ _ _ Hd) as (Hauth & Hname & _).
    split; [|split; [|done]].
    + revert Hd Hcode. unfold Central.handle_dev, Central.upload_game_file,
        Central.delete_game, Central.stop_lobby. intros Hd Hcode.
      repeat case_match; simplify_eq/=; try done.
      all: match goal with
           | H : Central.start_lobby_if_needed _ _ _ _ _ _ = Some _ |- _ =>
               by apply start_failed_frame in H as [? ?]
           end.
    + revert Hd Hcode. unfold Central.handle_dev, Central.upload_game_file,
        Central.delete_game, Central.stop_lobby. intros Hd Hcode.
      repeat case_match; simplify_eq/=; try done.
      all: match goal with
           | H : Central.start_lobby_if_needed _ _ _ _ _ _ = Some _ |- _ =>
               by apply start_failed_frame in H as [? ?]
           end.
  - by injection Hd as <-.
Qed.

Lemma error_replies_leave_records_unchanged_witness :
  let st := Central.sys_state Scenario.alice_in in
  let ctx := Central.mkCtx 2%nat [] None in
  Central.r_state (Central.handle_auth ctx (Central.Register (Some "alice") (Some "x")) st) = st.
Proof.
  intros st ctx.
  apply (proj2 (proj2 (proj2 (proj2 (proj2
           (error_replies_leave_records_unchanged 0 Central.default_config Scenario.world ctx
              (Central.MAuth (Central.Register (Some "alice") (Some "x"))) st _
              "USERNAME_EXISTS" eq_refl eq_refl ltac:(vm_compute; reflexivity))))))).
  apply (bool_decide_unpack _). vm_compute. exact I.
Defined.

(** X13.  When no live lobby is recorded for a game whose extracted
    package exists, [launch_game_server] on an authenticated session
    starts exactly one child, on the least port from [LOBBY_BASE_PORT]
    that no lobby entry has and that binds, records it under the game
    name with the next handle, and answers [ok] with [HOST] and that
    port; [p - LOBBY_BASE_PORT + 1] rounds of the search suffice when
    [p] is such a port. *)
Theorem launch_starts_lobby_on_least_free_port :
  ∀ fuel cfg w ctx st user name g dir p,
    Py.given (Central.ctx_username ctx) = Some user →
    name ≠ "" →
    Db.get_game name (Central.db st) = Some g →
    (∀ l, Central.lobbies st !! name = Some l →
          Central.alive w (Central.lp_process l) = false) →
    Db.g_extracted_path g = Some dir → dir ≠ [] → Fs.exists_ dir (Central.fs st) = true →
    Central.popen_ok w = true →
    Central.LOBBY_BASE_PORT cfg ≤ p →
    p ∉ Central.taken_ports st → Central.port_available w p = true →
    (Z.to_nat (p - Central.LOBBY_BASE_PORT cfg) < fuel)%nat →
    ∃ q,
      Central.LOBBY_BASE_PORT cfg ≤ q ≤ p
      ∧ (q ∉ Central.taken_ports st) ∧ Central.port_available w q = true
      ∧ (∀ r, Central.LOBBY_BASE_PORT cfg ≤ r < q →
              r ∈ Central.taken_ports st ∨ Central.port_available w r = false)
      ∧ Central.handle_dev fuel cfg w ctx (Central.LaunchGameServer (Some name)) st
        = Some (Central.reply ctx
                  (Central.set_lobbies
                     (λ l, <[name := Central.mkLobby name (length (Central.children st))
                                      (Central.HOST cfg) q]> l)
                     (Central.set_children
                        (λ c, c ++ [Central.mkChild (Central.HOST cfg) q
                                      (Central.ROOM_BASE_PORT cfg) dir name]) st))
                  [Central.send_json
                     (Central.make_ok "dev" "launch_game_server"
                        (Central.DLaunched name (Central.HOST cfg) q))]).
Proof.
  intros fuel cfg w ctx st user name g dir p Hu Hname Hg Hdead Hdir Hne Hex Hpopen
    Hbase Hp Hbind Hfuel.
  destruct (first_free_least (Spec.central_free w (Central.taken_ports st)) p
              (Central.LOBBY_BASE_PORT cfg)) as (q & Hq & Hrange & Hfree & Hmin).
  { done. }
  { unfold Spec.central_free. by rewrite bool_decide_eq_true_2, Hbind. }
  exists q. split; [done|].
  unfold Spec.central_free in Hfree. apply andb_true_iff in Hfree as [Hq1 Hq2].
  apply bool_decide_eq_true in Hq1.
  split; [done|]. split; [done|]. split.
  { intros r Hr. specialize (Hmin r Hr). unfold Spec.central_free in Hmin.
    apply andb_false_iff in Hmin as [Hm|Hm]; [left|by right].
    apply bool_decide_eq_false in Hm. by apply dec_stable. }
  unfold Central.handle_dev. rewrite Hu, (given_nonempty _ Hname), Hg.
  unfold Central.start_lobby_if_needed.
  assert (match Central.lobbies st !! name with
          | Some existing =>
              if Central.alive w (Central.lp_process existing)
              then Some (Central.lp_host existing, Central.lp_port existing) else None
          | None => None
          end = None) as ->.
  { destruct (Central.lobbies st !! name) as [l|] eqn:Hl; [|done]. by rewrite (Hdead l). }
  unfold Central._ensure_extracted_package. rewrite Hdir.
  rewrite (bool_decide_eq_false_2 _ Hne), Hex. simpl.
  rewrite central_find_free_port_first_free, (Hq fuel Hfuel), Hpopen. done.
Qed.

Lemma launch_starts_lobby_on_least_free_port_witness :
  ∃ q,
    11000 ≤ q ≤ 11000
    ∧ Central.handle_dev 1 Central.default_config Scenario.world
        (Scenario.ctx_of 1%nat Scenario.g_uploaded) (Central.LaunchGameServer (Some "g"))
        (Central.sys_state Scenario.g_uploaded)
      = Some (Central.reply (Scenario.ctx_of 1%nat Scenario.g_uploaded)
                (Central.set_lobbies
                   (λ l, <["g" := Central.mkLobby "g" 0 "linux2.cs.nycu.edu.tw" q]> l)
                   (Central.set_children
                      (λ c, c ++ [Central.mkChild "linux2.cs.nycu.edu.tw" q 12000
                                    ["db"; "storage"; "g"; "extracted"] "g"])
                      (Central.sys_state Scenario.g_uploaded)))
                [Central.send_json
                   (Central.make_ok "dev" "launch_game_server"
                      (Central.DLaunched "g" "linux2.cs.nycu.edu.tw" q))]).
Proof.
  destruct (launch_starts_lobby_on_least_free_port 1 Central.default_config Scenario.world
              (Scenario.ctx_of 1%nat Scenario.g_uploaded)
              (Central.sys_state Scenario.g_uploaded) "alice" "g"
              (default (Db.mkGame "" "" "" [] "" None None 0 0)
                 (Db.get_game "g" (Central.db (Central.sys_state Scenario.g_uploaded))))
              ["db"; "storage"; "g"; "extracted"] 11000)
    as (q & Hq & _ & _ & _ & Hr).
  - vm_compute. reflexivity.
  - done.
  - vm_compute. reflexivity.
  - intros l Hl. vm_compute in Hl. discriminate.
  - vm_compute. reflexivity.
  - done.
  - vm_compute. reflexivity.
  - reflexivity.
  - simpl. lia.
  - apply (bool_decide_unpack _). vm_compute. exact I.
  - reflexivity.
  - simpl. lia.
  - exists q. split; [exact Hq|exact Hr].
Defined.

Section chunk_facts.
Import Py Central.

Lemma read_chunks_bounded fuel (data : bytes) :
  Forall (λ c : bytes, (0 < length c ≤ 4096)%nat) (read_chunks fuel data).
Proof.
  revert data. induction fuel as [|fuel IH]; intros data; [by apply Forall_nil|].
  cbn [read_chunks]. destruct (take 4096 data) as [|c chunk] eqn:Htake; [by apply Forall_nil|].
  apply Forall_cons. split; [|apply IH].
  rewrite <- Htake. split.
  - rewrite Htake. simpl. lia.
  - rewrite length_take. lia.
Qed.

End chunk_facts.

(** X14.  A [download_game_file] of a game whose archive is on disk
    answers with the header (file name, size, version) followed by the
    archive in chunks that are non-empty, at most 4096 bytes long and
    add up to the archive; its effect on the state is that of
    [mark_owned]: the game is recorded among the games of the caller. *)
Theorem download_streams_bounded_chunks_and_records_owner :
  ∀ w ctx st user name g data,
    Py.given (Central.ctx_username ctx) = Some user →
    name ≠ "" →
    Db.get_game name (Central.db st) = Some g →
    Fs.files (Central.fs st) !! Db.g_storage_path g = Some data →
    Db.g_storage_path g ≠ [] →
    ∃ chunks,
      Central.handle_store w ctx (Central.DownloadGameFile (Some name)) st
      = Central.reply ctx
          (Central.r_state (Central.handle_store w ctx (Central.MarkOwned (Some name)) st))
          (Central.send_json
             (Central.make_ok "store" "download_game_file"
                (Central.DDownload name (Central.basename (Db.g_storage_path g))
                   (Z.of_nat (length data)) (Db.g_version g)))
           :: map Central.sendall chunks)
      ∧ concat chunks = data
      ∧ Forall (λ c : Py.bytes, (0 < length c ≤ 4096)%nat) chunks
      ∧ Central.r_state (Central.handle_store w ctx (Central.MarkOwned (Some name)) st)
        = Central.set_db (Db.record_download (Some user) name) st.
Proof.
  intros w ctx st user name g data Hu Hname Hg Hdata Hpath.
  exists (Central.read_chunks (length data) data).
  unfold Central.handle_store. rewrite Hu, (given_nonempty _ Hname), Hg.
  rewrite (bool_decide_eq_false_2 _ Hpath).
  assert (Fs.exists_ (Db.g_storage_path g) (Central.fs st) = true) as ->.
  { unfold Fs.exists_, Fs.is_file. rewrite Hdata.
    by rewrite bool_decide_eq_true_2 by eauto. }
  simpl. rewrite Hdata. split; [done|].
  split; [by apply concat_read_chunks|]. split; [apply read_chunks_bounded|done].
Qed.

Lemma download_streams_bounded_chunks_and_records_owner_witness :
  ∃ chunks,
    Central.handle_store Scenario.world (Scenario.ctx_of 1%nat Scenario.g_uploaded)
      (Central.DownloadGameFile (Some "g")) (Central.sys_state Scenario.g_uploaded)
    = Central.reply (Scenario.ctx_of 1%nat Scenario.g_uploaded)
        (Central.r_state
           (Central.handle_store Scenario.world (Scenario.ctx_of 1%nat Scenario.g_uploaded)
              (Central.MarkOwned (Some "g")) (Central.sys_state Scenario.g_uploaded)))
        (Central.send_json
           (Central.make_ok "store" "download_game_file"
              (Central.DDownload "g" "g.zip" 135 "1"))
         :: map Central.sendall chunks)
    ∧ concat chunks = Scenario.archive.
Proof.
  destruct (download_streams_bounded_chunks_and_records_owner Scenario.world
              (Scenario.ctx_of 1%nat Scenario.g_uploaded)
              (Central.sys_state Scenario.g_uploaded) "alice" "g"
              (default (Db.mkGame "" "" "" [] "" None None 0 0)
                 (Db.get_game "g" (Central.db (Central.sys_state Scenario.g_uploaded))))
              Scenario.archive)
    as (chunks & Hr & Hc & _).
  - vm_compute. reflexivity.
  - done.
  - vm_compute. reflexivity.
  - vm_compute. reflexivity.
  - vm_compute. discriminate.
  - exists chunks. split; [exact Hr|exact Hc].
Defined.

(** ** Logins and logouts *)

Section overlapping_logins.
Import Py Spec Central.

(** The two halves of a [login] that nothing interrupts are the request. *)
Lemma login_in_one_go fuel cfg w c u p rest th :
  logins th = ∅ →
  (turn fuel cfg (LoginCommit c) (turn fuel cfg (LoginCheck c u p rest) th).1).1
  = mkThreads (step fuel cfg w (Recv c (MAuth (Login u p)) rest) (system th)).1 ∅.
Proof.
  destruct th as [sys ls]. cbn [logins system]. intros ->.
  cbn [turn step system logins]. rewrite lookup_empty.
  destruct (sessions sys !! c) as [ctx|] eqn:Hc; cbn [fst].
  2: { cbn [turn system logins]. by rewrite Hc. }
  cbn [dispatch handle_auth ctx_username ctx_conn ctx_reader].
  destruct (given u) as [u'|]; [destruct (given p) as [p'|]|].
  - destruct (login_check u' (sys_state sys)) eqn:Hchk; cbn [fst].
    + cbn [turn system logins sessions]. rewrite lookup_empty, lookup_insert_eq.
      by cbn [r_raised reply r_state r_ctx fst].
    + cbn [turn system logins]. rewrite Hc, lookup_insert_eq. cbn [fst].
      rewrite delete_insert_eq, delete_empty.
      unfold login_commit. by destruct (Db.authenticate_user _ _ _).
  - cbn [fst turn system logins sessions]. rewrite lookup_empty, lookup_insert_eq.
    by cbn [r_raised reply r_state r_ctx fst].
  - cbn [fst turn system logins sessions]. rewrite lookup_empty, lookup_insert_eq.
    by cbn [r_raised reply r_state r_ctx fst].
Qed.

Lemma serial_keeps_sessions_ok fuel cfg (w : World) n :
  ∀ ts th,
    (length ts ≤ n)%nat → serial ts = true → logins th = ∅ →
    sessions_ok (system th) → sessions_ok (system (turns fuel cfg ts th)).
Proof.
  induction n as [|n IH]; intros ts th Hlen Hser Hls Hok.
  { destruct ts; [done|simpl in Hlen; lia]. }
  destruct ts as [|[w' ev|c u p rest|c] ts]; [done| | |done].
  - unfold turns. cbn [foldl turn].
    destruct (step fuel cfg w' ev (system th)) as [sys out] eqn:Hstep. cbn [fst].
    apply IH; [simpl in Hlen; lia|done|done|].
    cbn [system]. replace sys with (step fuel cfg w' ev (system th)).1 by by rewrite Hstep.
    by apply step_keeps_sessions_ok.
  - cbn [serial] in Hser. destruct ts as [|[w' ev|c' u' p' rest'|c'] ts]; try done.
    apply andb_true_iff in Hser as [Hc Hser]. apply bool_decide_eq_true in Hc as ->.
    unfold turns. cbn [foldl]. rewrite (login_in_one_go fuel cfg w) by done.
    apply IH; [simpl in Hlen; lia|done|done|].
    cbn [system]. by apply step_keeps_sessions_ok.
Qed.

End overlapping_logins.

(** Two logins as alice that overlap both succeed: connections 1 and 2
    are logged in under the same name. *)
Example overlapping_logins_share_a_name :
  let sys := Central.system
               (Central.turns 0 Central.default_config Scenario.racing_logins Central.start) in
  Central.serial Scenario.racing_logins = false
  ∧ Central.ctx_username <$> Central.sessions sys !! 1%nat = Some (Some "alice")
  ∧ Central.ctx_username <$> Central.sessions sys !! 2%nat = Some (Some "alice").
Proof. repeat split; vm_compute; reflexivity. Qed.

(** X15.  When no [login] overlaps another request, that is, when the
    name check of each [login] and the entry of its session follow one
    another without a step of another thread in between, then in
    every state reached from the start of the server a user name that a
    live session is logged in as belongs to [active_usernames], and no
    two connections are logged in as the same user. *)
Theorem logged_in_names_are_exclusive :
  ∀ fuel cfg ts,
    Central.serial ts = true →
    let sys := Central.system (Central.turns fuel cfg ts Central.start) in
    (∀ c u, Spec.holder sys c u → u ∈ Central.active_usernames (Central.sys_state sys))
    ∧ (∀ c1 c2 u, Spec.holder sys c1 u → Spec.holder sys c2 u → c1 = c2).
Proof.
  intros fuel cfg ts Hser.
  apply (serial_keeps_sessions_ok fuel cfg Scenario.world (length ts)); try done.
  apply boot_sessions_ok.
Qed.

Lemma logged_in_names_are_exclusive_witness :
  let sys := Central.system
               (Central.turns 0 Central.default_config Scenario.logins_in_turn Central.start) in
  (∀ c u, Spec.holder sys c u → u ∈ Central.active_usernames (Central.sys_state sys))
  ∧ (∀ c1 c2 u, Spec.holder sys c1 u → Spec.holder sys c2 u → c1 = c2).
Proof.
  apply (logged_in_names_are_exclusive 0 Central.default_config Scenario.logins_in_turn).
  vm_compute. reflexivity.
Defined.

(** X16.  A [logout] on a session logged in as [u] is answered [ok],
    removes [u] from [active_usernames] and clears the session's user
    name; a [login] as [u] with the right password, on any live
    connection, then succeeds. *)
Theorem logout_releases_name_for_next_login :
  ∀ fuel cfg w w' sys a ctxa u rest b ctxb p rest',
    Central.sessions sys !! a = Some ctxa →
    Py.given (Central.ctx_username ctxa) = Some u →
    let sys1 := (Central.step fuel cfg w (Central.Recv a (Central.MAuth Central.Logout) rest)
                   sys).1 in
    Central.sessions sys1 !! b = Some ctxb →
    p ≠ "" →
    Db.authenticate_user u p (Central.db (Central.sys_state sys)) = true →
    (Central.step fuel cfg w (Central.Recv a (Central.MAuth Central.Logout) rest) sys).2
    = [Central.send_json (Central.make_ok "auth" "logout" (Central.DUsername u))]
    ∧ (u ∉ Central.active_usernames (Central.sys_state sys1))
    ∧ Py.given (Central.ctx_username (Scenario.ctx_of a sys1)) = None
    ∧ (Central.step fuel cfg w' (Central.Recv b (Central.MAuth (Central.Login (Some u) (Some p)))
                                  rest') sys1).2
      = [Central.send_json (Central.make_ok "auth" "login" (Central.DUsername u))].
Proof.
  intros fuel cfg w w' sys a ctxa u rest b ctxb p rest' Ha Hu sys1 Hb Hp Hauth.
  assert (u ≠ "") as Hne by (by apply given_Some in Hu as [_ ?]).
  subst sys1. revert Hb. simpl. rewrite Ha. simpl. rewrite Hu. simpl.
  intros Hb. split; [done|].
  assert (u ∉ Central.active_usernames (Central.sys_state sys) ∖ {[u]}) as Hrel.
  { intros [_ Hn]%elem_of_difference. apply Hn. by apply elem_of_singleton. }
  split; [done|]. split.
  { unfold Scenario.ctx_of. simpl. by rewrite lookup_insert_eq. }
  rewrite Hb. simpl.
  rewrite (given_nonempty _ Hne), (given_nonempty _ Hp).
  rewrite (bool_decide_eq_false_2 _ Hrel). simpl. by rewrite Hauth.
Qed.

Lemma logout_releases_name_for_next_login_witness :
  let sys1 := (Central.step 0 Central.default_config Scenario.world
                 (Central.Recv 1%nat (Central.MAuth Central.Logout) []) Scenario.alice_in).1 in
  (Central.step 0 Central.default_config Scenario.world
     (Central.Recv 1%nat (Central.MAuth (Central.Login (Some "alice") (Some "pw"))) []) sys1).2
  = [Central.send_json (Central.make_ok "auth" "login" (Central.DUsername "alice"))].
Proof.
  intros sys1.
  apply (logout_releases_name_for_next_login 0 Central.default_config Scenario.world
           Scenario.world Scenario.alice_in 1%nat (Scenario.ctx_of 1%nat Scenario.alice_in)
           "alice" [] 1%nat (Scenario.ctx_of 1%nat sys1) "pw" []).
  - vm_compute. reflexivity.
  - vm_compute. reflexivity.
  - vm_compute. reflexivity.
  - done.
  - vm_compute. reflexivity.
Defined.

(** ** The room table of a lobby *)

Section room_table_facts.
Import Py Lobby RoomTable.

Lemma room_persists_refl r : room_persists r r.
Proof. by repeat split. Qed.

Lemma room_persists_trans r1 r2 r3 :
  room_persists r1 r2 → room_persists r2 r3 → room_persists r1 r3.
Proof.
  intros (?&?&?&?&?&?&?&?&?) (?&?&?&?&?&?&?&?&?).
  repeat split; try congruence. auto.
Qed.

Lemma room_evolves_refl r : room_evolves r r.
Proof. split; [apply room_persists_refl|done]. Qed.

Lemma table_step_same st st' :
  rooms st' = rooms st → (room_counter st ≤ room_counter st')%nat →
  children st' = children st → table_step st st'.
Proof.
  intros Hr Hc Hch. apply rooms_evolve; [done..|].
  intros rid. rewrite Hr. destruct (rooms st !! rid); [apply room_evolves_refl|done].
Qed.

Lemma table_step_update st rid r r' :
  rooms st !! rid = Some r → room_evolves r r' →
  table_step st (set_rooms (λ rs, <[rid := r']> rs) st).
Proof.
  intros Hr Hev. apply rooms_evolve; [done..|].
  intros rid'. cbn [rooms set_rooms]. rewrite lookup_insert. case_decide.
  - subst rid'. by rewrite Hr.
  - destruct (rooms st !! rid'); [apply room_evolves_refl|done].
Qed.

Lemma drop_player_evolves user r : room_evolves r (drop_player user r).
Proof.
  unfold drop_player. case_bool_decide; [|apply room_evolves_refl].
  split; [by repeat split|]. simpl. split.
  - apply NoDup_filter.
  - intros Hlen. pose proof (length_filter (λ p, p ≠ user) (players r)). lia.
Qed.

Lemma lobby_port_not_taken fuel w host b (T : list Z) q :
  _find_free_port fuel w host b T = Some q → q ∉ T.
Proof.
  rewrite lobby_find_free_port_first_free. intros (_ & Hfree & _)%first_free_sound.
  unfold Spec.lobby_free in Hfree. apply andb_true_iff in Hfree as [Hfree _].
  by apply bool_decide_eq_true in Hfree.
Qed.

Lemma create_room_body_step fuel cfg w user mp version st :
  table_step st (create_room_body fuel cfg w user mp version st).2.
Proof.
  unfold create_room_body, create_room_check, create_room_spawn, create_room_insert,
    _next_room_id.
  destruct (in_waiting_room _ _ _).
  { apply table_step_same; simpl; [done|lia|done]. }
  destruct (_find_free_port _ _ _ _ _) as [port|] eqn:Hport.
  2: { apply table_step_same; simpl; [done|lia|done]. }
  destruct (resolve_entry cfg w) as [entry|].
  2: { apply table_step_same; simpl; [done|lia|done]. }
  destruct (popen_ok w); simpl.
  2: { apply table_step_same; simpl; [done|lia|done]. }
  eapply (room_added _ _
            (mkRoom ("R" +:+ pretty (S (room_counter st))) (lobby_game_name cfg) version user
               mp (lobby_host cfg) port (length (children st)) [user] waiting));
    simpl; try done.
  intros rid r Hr Heq. apply lobby_port_not_taken in Hport. apply Hport.
  rewrite <- Heq. apply list_elem_of_In, in_map. unfold values. simpl.
  apply list_elem_of_In, list_elem_of_fmap. exists (rid, r). split; [done|].
  by apply elem_of_map_to_list.
Qed.

Lemma join_room_step room_id username st :
  table_step st (handle_join_room room_id username st).2.
Proof.
  unfold handle_join_room.
  destruct (given_pair room_id username) as [[rid user]|];
    [|by apply table_step_same].
  destruct (in_waiting_room user (Some rid) st); [by apply table_step_same|].
  destruct (rooms st !! rid) as [room|] eqn:Hroom; [|by apply table_step_same].
  destruct (negb _); [by apply table_step_same|].
  destruct (decide (user ∈ players room)) as [Hin|Hin].
  - rewrite (bool_decide_eq_true_2 _ Hin), andb_false_r. cbn [snd].
    eapply table_step_update; [done|apply room_evolves_refl].
  - rewrite (bool_decide_eq_false_2 _ Hin), andb_true_r.
    case_bool_decide as Hfull; [by apply table_step_same|]. cbn [snd].
    eapply table_step_update; [done|].
    split; [by repeat split|]. simpl. split.
    + intros Hnd. apply NoDup_app. split; [done|]. split; [|apply NoDup_singleton].
      intros x Hx ->%list_elem_of_singleton. done.
    + intros _. rewrite length_app. simpl. lia.
Qed.

Lemma leave_room_step username room_id st :
  table_step st (handle_leave_room username room_id st).2.
Proof.
  unfold handle_leave_room.
  destruct (given username) as [user|]; [|by apply table_step_same].
  destruct (given room_id) as [rid|].
  - destruct (rooms st !! rid) as [room|] eqn:Hroom.
    + assert (table_step st (set_rooms (λ rs, <[rid := drop_player user room]> rs) st))
        as Hstep by (eapply table_step_update; [done|apply drop_player_evolves]).
      by destruct (bool_decide _).
    + by apply table_step_same.
  - assert (table_step st (set_rooms (λ rs, drop_player user <$> rs) st)) as Hstep.
    { apply rooms_evolve; [done..|]. intros rid. cbn [rooms set_rooms].
      rewrite lookup_fmap. destruct (rooms st !! rid); simpl; [|done].
      apply drop_player_evolves. }
    by destruct (existsb _ _).
Qed.

Lemma monitor_room_step rid proc st : table_step st (_monitor_room rid proc st).
Proof.
  unfold _monitor_room.
  destruct (rooms st !! rid) as [room|] eqn:Hroom; [|by apply table_step_same].
  case_bool_decide; [|by apply table_step_same].
  eapply table_step_update; [done|]. split; [by repeat split|done].
Qed.

Lemma apply_table_step fuel cfg op st : table_step st (apply fuel cfg op st).
Proof.
  destruct op as [w u mp v|rid u|u rid|rid proc]; simpl.
  - unfold handle_create_room.
    destruct mp; [apply create_room_body_step..|by apply table_step_same
                  |by apply table_step_same].
  - apply join_room_step.
  - apply leave_room_step.
  - apply monitor_room_step.
Qed.

Lemma room_id_fresh st k :
  rooms_wf st → (room_counter st < k)%nat → rooms st !! ("R" +:+ pretty k) = None.
Proof.
  intros Hwf Hk. destruct (rooms st !! ("R" +:+ pretty k)) as [r|] eqn:Hr; [|done].
  destruct (Hwf _ _ Hr) as (_ & (k' & Heq & Hle) & _).
  injection Heq as Heq. apply pretty_nat_inj in Heq. lia.
Qed.

Lemma table_step_keeps_wf st st' :
  table_step st st' → rooms_wf st → rooms_wf st'.
Proof.
  intros [Hcnt Hch Hrooms|room child Hcnt Hid Hrooms Hch Hproc Hlen Hcid Hcp Hcm Hport] Hwf
    rid r' Hr'.
  - specialize (Hrooms rid). rewrite Hr' in Hrooms.
    destruct (rooms st !! rid) as [r|] eqn:Hr; [|done].
    destruct Hrooms as ((Hi&_&_&_&Hm&_&Hp&Hpr&_) & Hnd & Hlen).
    destruct (Hwf _ _ Hr) as (Hid & (k & Hk & Hle) & Hnd0 & Hlen0 & c & Hc & Hc1 & Hc2 & Hc3).
    split; [congruence|]. split; [exists k; split; [done|lia]|].
    split; [auto|]. split; [rewrite Hm; auto|].
    exists c. rewrite Hch, Hpr, Hp, Hm. done.
  - rewrite Hrooms in Hr'. apply lookup_insert_Some in Hr' as [[<- <-]|[Hne Hr]].
    + split; [done|]. split.
      { exists (S (room_counter st)). split; [done|]. lia. }
      destruct (players room) as [|p [|p' ps]] eqn:Hps; try done.
      split; [apply NoDup_singleton|]. split; [simpl; lia|].
      exists child. rewrite Hch, Hproc. split; [|done].
      rewrite lookup_app_r by done. by rewrite Nat.sub_diag.
    + destruct (Hwf _ _ Hr) as (Hid' & (k & Hk & Hle) & Hnd0 & Hlen0 & c & Hc & Hc1).
      split; [done|]. split; [exists k; split; [done|lia]|].
      split; [done|]. split; [done|]. exists c. split; [|done].
      rewrite Hch. by apply lookup_app_l_Some.
Qed.

Lemma table_step_keeps_ports st st' :
  table_step st st' → rooms_wf st → room_ports_distinct st → room_ports_distinct st'.
Proof.
  intros [Hcnt Hch Hrooms|room child Hcnt Hid Hrooms Hch Hproc Hlen Hcid Hcp Hcm Hport] Hwf
    Hdist rid1 rid2 r1 r2 H1 H2 Heq.
  - pose proof (Hrooms rid1) as Hs1. pose proof (Hrooms rid2) as Hs2.
    rewrite H1 in Hs1. rewrite H2 in Hs2.
    destruct (rooms st !! rid1) as [r1'|] eqn:Hr1; [|done].
    destruct (rooms st !! rid2) as [r2'|] eqn:Hr2; [|done].
    destruct Hs1 as ((_&_&_&_&_&_&Hp1&_) & _). destruct Hs2 as ((_&_&_&_&_&_&Hp2&_) & _).
    apply (Hdist rid1 rid2 r1' r2'); [done..|]. congruence.
  - rewrite Hrooms in H1, H2.
    apply lookup_insert_Some in H1 as [[<- <-]|[Hne1 H1]];
      apply lookup_insert_Some in H2 as [[<- <-]|[Hne2 H2]]; try done.
    + by destruct (Hport _ _ H2).
    + by destruct (Hport _ _ H1).
    + by apply (Hdist rid1 rid2 r1 r2).
Qed.

Lemma table_step_keeps_room st st' rid r :
  table_step st st' → rooms_wf st → rooms st !! rid = Some r →
  ∃ r', rooms st' !! rid = Some r' ∧ room_persists r r'.
Proof.
  intros [Hcnt Hch Hrooms|room child Hcnt Hid Hrooms Hch Hproc Hlen Hcid Hcp Hcm Hport] Hwf Hr.
  - specialize (Hrooms rid). rewrite Hr in Hrooms.
    destruct (rooms st' !! rid) as [r'|]; [|done]. exists r'. split; [done|].
    by destruct Hrooms.
  - exists r. split; [|apply room_persists_refl].
    rewrite Hrooms, lookup_insert_ne; [done|].
    intros Heq. rewrite Hid in Heq.
    rewrite <- Heq, room_id_fresh in Hr; [done|done|lia].
Qed.

Lemma init_rooms_wf : rooms_wf init.
Proof. intros rid r Hr. simpl in Hr. by rewrite lookup_empty in Hr. Qed.

Lemma run_keeps_wf fuel cfg ops st : rooms_wf st → rooms_wf (run fuel cfg ops st).
Proof.
  unfold run. revert st. induction ops as [|op ops IH]; intros st Hwf; [done|].
  simpl. apply IH. eapply table_step_keeps_wf; [apply apply_table_step|done].
Qed.

End room_table_facts.


Section overlap_facts.
Import Py Lobby RoomTable.

Lemma room_wf_grows st st' rid r :
  (room_counter st ≤ room_counter st')%nat → children st `prefix_of` children st' →
  room_wf st rid r → room_wf st' rid r.
Proof.
  intros Hcnt Hch (Hid & (k & Hk & Hle) & Hnd & Hlen & c & Hc & Hrest).
  split; [done|]. split; [exists k; split; [done|lia]|].
  split; [done|]. split; [done|]. exists c. split; [|done].
  by eapply prefix_lookup_Some.
Qed.

Lemma pending_wf_grows st st' p :
  (room_counter st ≤ room_counter st')%nat → children st `prefix_of` children st' →
  pending_wf st p → pending_wf st' p.
Proof.
  intros Hcnt Hch. destruct p as [rid u mp v|rid u mp v T|room]; cbn [pending_wf].
  - intros (k & Hk & Hle). exists k. split; [done|lia].
  - intros (k & Hk & Hle). exists k. split; [done|lia].
  - by apply room_wf_grows.
Qed.

Lemma table_step_grows st st' :
  table_step st st' →
  (room_counter st ≤ room_counter st')%nat ∧ children st `prefix_of` children st'.
Proof.
  intros [Hcnt Hch _|room child Hcnt _ _ Hch _ _ _ _ _ _].
  - split; [done|]. by rewrite Hch.
  - split; [lia|]. rewrite Hch. by apply prefix_app_r.
Qed.

Lemma rooms_wf_grows st st' :
  rooms st' = rooms st →
  (room_counter st ≤ room_counter st')%nat → children st `prefix_of` children st' →
  rooms_wf st → rooms_wf st'.
Proof.
  intros Hrooms Hcnt Hch Hwf rid r Hr. rewrite Hrooms in Hr.
  by eapply room_wf_grows; [..|apply Hwf].
Qed.

Lemma pending_insert_wf st (ps : gmap nat Pending) t p :
  pending_wf st p →
  (∀ t' p', ps !! t' = Some p' → pending_wf st p') →
  ∀ t' p', <[t := p]> ps !! t' = Some p' → pending_wf st p'.
Proof.
  intros Hp Hps t' p'. rewrite lookup_insert. case_decide; [by intros [= <-]|by apply Hps].
Qed.

Lemma pending_delete_wf st (ps : gmap nat Pending) t :
  (∀ t' p', ps !! t' = Some p' → pending_wf st p') →
  ∀ t' p', delete t ps !! t' = Some p' → pending_wf st p'.
Proof. intros Hps t' p' [_ ?]%lookup_delete_Some. by eapply Hps. Qed.

Lemma spawn_effect fuel cfg w rid u mp v T st room st' :
  create_room_spawn fuel cfg w rid u mp v T st = (Spawned room, st') →
  rooms st' = rooms st ∧ room_counter st' = room_counter st
  ∧ (∃ child, children st' = children st ++ [child]
              ∧ process room = length (children st)
              ∧ ch_room_id child = rid ∧ ch_port child = room_server_port room
              ∧ ch_max_players child = max_players room)
  ∧ room_id room = rid ∧ players room = [u].
Proof.
  unfold create_room_spawn.
  destruct (_find_free_port _ _ _ _ _) as [port|]; [|done].
  destruct (resolve_entry cfg w) as [entry|]; [|done].
  destruct (popen_ok w); [|done]. cbn [negb]. intros [= <- <-].
  cbn [rooms room_counter children]. split; [done|]. split; [done|].
  split; [|done]. eexists. split; [done|]. done.
Qed.

Lemma spawn_failed_effect fuel cfg w rid u mp v T st code st' :
  create_room_spawn fuel cfg w rid u mp v T st = (Failed code, st') → st' = st.
Proof.
  unfold create_room_spawn.
  destruct (_find_free_port _ _ _ _ _) as [port|]; [|done].
  destruct (resolve_entry cfg w) as [entry|]; [|by intros [= _ <-]].
  destruct (popen_ok w); [done|]. by intros [= _ <-].
Qed.

Lemma spawn_searching_effect fuel cfg w rid u mp v T st st' :
  create_room_spawn fuel cfg w rid u mp v T st = (Searching, st') → st' = st.
Proof.
  unfold create_room_spawn.
  destruct (_find_free_port _ _ _ _ _) as [port|]; [|by intros [= <-]].
  destruct (resolve_entry cfg w) as [entry|]; [|done].
  by destruct (popen_ok w).
Qed.

Lemma act_keeps_wf fuel cfg a th : threads_wf th → threads_wf (act fuel cfg a th).
Proof.
  intros [Hwf Hps]. destruct a as [op|t u mp v|t|t w|t]; cbn [act].
  - pose proof (apply_table_step fuel cfg op (table th)) as Hstep.
    destruct (table_step_grows _ _ Hstep) as [Hcnt Hch].
    split; cbn [table pending]; [by eapply table_step_keeps_wf|].
    intros t p Hp. eapply pending_wf_grows; [done..|by eapply Hps].
  - destruct (pending th !! t) eqn:Ht; [done|].
    destruct (int_or_default mp 2) as [z|]; [|done].
    unfold _next_room_id. split; cbn [table pending].
    + eapply rooms_wf_grows; [..|done]; cbn [rooms room_counter children]; [done|lia|done].
    + apply pending_insert_wf.
      * cbn [pending_wf room_counter]. exists (S (room_counter (table th))).
        split; [done|lia].
      * intros t' p' Hp'. eapply pending_wf_grows; [..|by eapply Hps];
          cbn [room_counter children]; [lia|done].
  - destruct (pending th !! t) as [[rid u mp v|rid u mp v T|room]|] eqn:Ht; [|done..].
    pose proof (Hps _ _ Ht) as Hp. cbn [pending_wf] in Hp.
    destruct (create_room_check u (table th)) as [T|]; split; cbn [table pending];
      try done.
    + by apply pending_insert_wf.
    + by apply pending_delete_wf.
  - destruct (pending th !! t) as [[rid u mp v|rid u mp v T|room]|] eqn:Ht; [done| |done..].
    pose proof (Hps _ _ Ht) as (k & Hk & Hle).
    destruct (create_room_spawn _ _ _ _ _ _ _ _ _) as [[room|code|] st'] eqn:Hs.
    3: { apply spawn_searching_effect in Hs as ->. by destruct th. }
    + destruct (spawn_effect _ _ _ _ _ _ _ _ _ _ _ Hs)
        as (Hrooms & Hcnt & (child & Hch & Hproc & Hc1 & Hc2 & Hc3) & Hid & Hpl).
      assert (children (table th) `prefix_of` children st') as Hpre
        by (rewrite Hch; by apply prefix_app_r).
      split; cbn [table pending].
      * eapply rooms_wf_grows; [done|lia|done|done].
      * apply pending_insert_wf.
        -- cbn [pending_wf]. split; [done|]. rewrite Hid.
           split; [exists k; split; [done|lia]|].
           rewrite Hpl. split; [apply NoDup_singleton|]. split; [simpl; lia|].
           exists child. split; [|done].
           rewrite Hch, Hproc, lookup_app_r by done. by rewrite Nat.sub_diag.
        -- intros t' p' Hp'. eapply pending_wf_grows; [..|by eapply Hps]; [lia|done].
    + apply spawn_failed_effect in Hs as ->. split; cbn [table pending]; [done|].
      by apply pending_delete_wf.
  - destruct (pending th !! t) as [[rid u mp v|rid u mp v T|room]|] eqn:Ht; [done..| |done].
    pose proof (Hps _ _ Ht) as Hroom. cbn [pending_wf] in Hroom.
    unfold create_room_insert, set_rooms. cbn [snd].
    assert (∀ rid r, room_wf (table th) rid r →
              room_wf (mkState (<[room_id room := room]> (rooms (table th)))
                         (room_counter (table th)) (children (table th))) rid r) as Hsame.
    { intros rid r. by apply room_wf_grows. }
    split; cbn [table pending].
    + intros rid r. cbn [rooms]. rewrite lookup_insert. case_decide.
      * intros [= <-]. subst rid. by apply Hsame.
      * intros Hr. by apply Hsame, Hwf.
    + apply pending_delete_wf. intros t' p' Hp'.
      eapply pending_wf_grows; [..|by eapply Hps]; cbn [room_counter children]; done.
Qed.

Lemma start_threads_wf : threads_wf start.
Proof.
  split; [apply init_rooms_wf|]. intros t p Hp. cbn in Hp. by rewrite lookup_empty in Hp.
Qed.

Lemma play_keeps_wf fuel cfg acts th : threads_wf th → threads_wf (play fuel cfg acts th).
Proof.
  unfold play. revert th. induction acts as [|a acts IH]; intros th Hwf; [done|].
  simpl. by apply IH, act_keeps_wf.
Qed.

(** Calls that do not overlap are the calls of [run]. *)
Lemma play_whole fuel cfg ops th :
  table (play fuel cfg (whole <$> ops) th) = run fuel cfg ops (table th).
Proof.
  unfold play, run. revert th. induction ops as [|op ops IH]; intros th; [done|].
  cbn [fmap list_fmap foldl]. by rewrite IH.
Qed.

(** The four stretches of a [handle_create_room] call, run one after
    the other, are the call. *)
Lemma create_room_in_one_go fuel cfg w t u mp v th :
  pending th !! t = None →
  table (play fuel cfg [begin_create t u mp v; check_create t; spawn_create t w;
                        insert_create t] th)
  = (handle_create_room fuel cfg w u mp v (table th)).2.
Proof.
  intros Ht.
  assert (∀ z, table (play fuel cfg [check_create t; spawn_create t w; insert_create t]
                        (mkThreads (_next_room_id (table th)).2
                           (<[t := Drawn (_next_room_id (table th)).1
                                     (default "host" (or_str u (Some "host"))) z
                                     (default "latest" (or_str v (Some "latest")))]>
                              (pending th))))
               = (create_room_body fuel cfg w (default "host" (or_str u (Some "host"))) z
                    (default "latest" (or_str v (Some "latest"))) (table th)).2) as Hbody.
  { intros z. unfold play, create_room_body. cbn [foldl].
    destruct (_next_room_id (table th)) as [rid st1]. cbn [fst snd].
    cbn [act pending table]. rewrite lookup_insert_eq.
    destruct (create_room_check _ st1) as [T|]; cbn [act pending table].
    2: { repeat (rewrite lookup_delete_eq; cbn [act pending table]). done. }
    rewrite lookup_insert_eq.
    destruct (create_room_spawn _ _ _ _ _ _ _ _ _) as [[room|code|] st2];
      cbn [act pending table].
    - rewrite lookup_insert_eq. cbn [table]. by destruct (create_room_insert room st2).
    - rewrite lookup_delete_eq. cbn [table]. done.
    - rewrite lookup_insert_eq. cbn [table]. done. }
  unfold handle_create_room.
  destruct mp as [|z| |].
  - rewrite <- Hbody. unfold play. cbn [foldl]. f_equal. f_equal.
    cbn [act int_or_default]. rewrite Ht. by destruct (_next_room_id (table th)).
  - rewrite <- Hbody. unfold play. cbn [foldl]. f_equal. f_equal.
    cbn [act int_or_default]. rewrite Ht. by destruct (_next_room_id (table th)).
  - unfold play. cbn [foldl act int_or_default]. by rewrite !Ht.
  - unfold play. cbn [foldl act int_or_default]. by rewrite !Ht.
Qed.

End overlap_facts.

(** X17.  In every state a lobby reaches from its start, whether its
    calls come in turn or overlap, a [handle_create_room] call being
    interrupted wherever it gives up [rooms_lock], each room is stored
    under its own id, of the form [R<k>] with [k] at most the counter;
    its players are pairwise distinct and at most [max_players] (one,
    the host, when [max_players] is below one); and its handle is the
    child started for it on its port. *)
Theorem lobby_rooms_stay_well_formed :
  ∀ fuel cfg acts,
    RoomTable.rooms_wf (Lobby.table (Lobby.play fuel cfg acts Lobby.start)).
Proof.
  intros fuel cfg acts.
  by destruct (play_keeps_wf fuel cfg acts Lobby.start start_threads_wf).
Qed.

(** X18.  A room of a lobby is never removed: whatever calls follow, it
    is still stored under its id with the same game, version, host,
    capacity, address and child process, and once closed it stays
    closed. *)
Theorem rooms_are_never_removed :
  ∀ fuel cfg before after rid r,
    Lobby.rooms (Lobby.run fuel cfg before Lobby.init) !! rid = Some r →
    ∃ r', Lobby.rooms (Lobby.run fuel cfg (before ++ after) Lobby.init) !! rid = Some r'
          ∧ RoomTable.room_persists r r'.
Proof.
  intros fuel cfg before after rid r.
  unfold Lobby.run at 2. rewrite foldl_app. fold (Lobby.run fuel cfg before Lobby.init).
  pose proof (run_keeps_wf fuel cfg before _ init_rooms_wf) as Hwf.
  revert Hwf r. generalize (Lobby.run fuel cfg before Lobby.init).
  induction after as [|op ops IH]; intros st Hwf r Hr.
  - exists r. split; [done|apply room_persists_refl].
  - simpl.
    destruct (table_step_keeps_room st (Lobby.apply fuel cfg op st) rid r
                (apply_table_step fuel cfg op st) Hwf Hr) as (r1 & Hr1 & Hp1).
    destruct (IH (Lobby.apply fuel cfg op st)
                (table_step_keeps_wf _ _ (apply_table_step fuel cfg op st) Hwf) r1 Hr1)
      as (r' & Hr' & Hp').
    exists r'. split; [done|]. by eapply room_persists_trans.
Qed.

Lemma rooms_are_never_removed_witness :
  ∃ r', Lobby.rooms Scenario.room_of_two !! "R1" = Some r'
        ∧ RoomTable.room_persists
            (Lobby.mkRoom "R1" "g" "latest" "alice" 2 "0.0.0.0" 12000 0 ["alice"] Lobby.waiting)
            r'.
Proof.
  apply (rooms_are_never_removed 1 Scenario.lobby_config
           [Lobby.create_room Scenario.lobby_world (Some "alice") (Py.ArgInt 2) None]
           [Lobby.join_room (Some "R1") (Some "bob")] "R1").
  vm_compute. reflexivity.
Defined.

Section join_facts.
Import Py Lobby RoomTable.

Lemma set_rooms_same st : set_rooms (λ rs, rs) st = st.
Proof. by destruct st. Qed.

Lemma in_waiting_room_false username except st :
  in_waiting_room username except st = false ↔
  ∀ rid r, rooms st !! rid = Some r → status r = waiting →
           Some (room_id r) ≠ except → username ∉ players r.
Proof.
  rewrite <- not_true_iff_false, in_waiting_room_true. split.
  - intros Hno rid r Hr Hs He Hu. apply Hno. eauto 10.
  - intros Hall (rid & r & Hr & Hs & He & Hu). by eapply Hall.
Qed.

Lemma join_room_again room_id username st resp st' :
  Spec.keyed st →
  handle_join_room room_id username st = (resp, st') →
  handle_join_room room_id username st' = (resp, st').
Proof.
  intros Hk. unfold handle_join_room.
  destruct (given_pair room_id username) as [[rid0 user0]|] eqn:Hgiven;
    [|by intros [= <- <-]].
  destruct (in_waiting_room user0 (Some rid0) st) eqn:Hin.
  { intros [= <- <-]. by rewrite Hin. }
  destruct (rooms st !! rid0) as [room|] eqn:Hroom.
  2: { intros [= <- <-]. by rewrite Hin, Hroom. }
  destruct (decide (status room = waiting)) as [Hs|Hs].
  2: { rewrite (bool_decide_eq_false_2 _ Hs). intros [= <- <-].
       by rewrite Hin, Hroom, (bool_decide_eq_false_2 _ Hs). }
  rewrite (bool_decide_eq_true_2 _ Hs). cbn [negb].
  destruct (bool_decide (Z.of_nat (length (players room)) >= max_players room)
            && negb (bool_decide (user0 ∈ players room))) eqn:Hfull.
  { intros [= <- <-]. by rewrite Hin, Hroom, (bool_decide_eq_true_2 _ Hs), Hfull. }
  set (room' := if bool_decide (user0 ∈ players room) then room
                else set_players (players room ++ [user0]) room).
  intros [= <- <-].
  assert (Lobby.room_id room' = Lobby.room_id room ∧ status room' = waiting
          ∧ user0 ∈ players room' ∧ game_name room' = game_name room
          ∧ version room' = version room ∧ room_server_host room' = room_server_host room
          ∧ room_server_port room' = room_server_port room)
    as (Hid & Hst & Hu & Hg & Hv & Hh & Hp).
  { subst room'. destruct (decide (user0 ∈ players room)) as [Hold|Hold].
    - rewrite (bool_decide_eq_true_2 _ Hold). by repeat split.
    - rewrite (bool_decide_eq_false_2 _ Hold). simpl. repeat split; try done.
      apply elem_of_app. right. by apply list_elem_of_singleton. }
  assert (in_waiting_room user0 (Some rid0) (set_rooms (λ rs, <[rid0 := room']> rs) st) = false)
    as ->.
  { apply in_waiting_room_false. intros rid1 r1. cbn [rooms set_rooms].
    rewrite lookup_insert. destruct (decide (rid0 = rid1)) as [<-|Hne1].
    - intros [= Heq] _ Hne. subst r1. rewrite Hid, (Hk _ _ Hroom) in Hne. congruence.
    - intros Hr1. by apply (proj1 (in_waiting_room_false _ _ _) Hin rid1 r1). }
  cbn [rooms set_rooms]. rewrite lookup_insert_eq.
  rewrite (bool_decide_eq_true_2 _ Hst). cbn [negb].
  rewrite (bool_decide_eq_true_2 _ Hu). rewrite andb_false_r.
  unfold set_rooms. cbn [rooms room_counter children]. by rewrite insert_insert_eq.
Qed.

End join_facts.

(** X19.  In a state a lobby reaches from its start, repeating a
    [join_room] call gives the same reply and leaves the table as the
    first call left it. *)
Theorem join_room_is_idempotent :
  ∀ fuel cfg ops room_id username,
    let st := Lobby.run fuel cfg ops Lobby.init in
    Lobby.handle_join_room room_id username (Lobby.handle_join_room room_id username st).2
    = Lobby.handle_join_room room_id username st.
Proof.
  intros fuel cfg ops rid user st.
  assert (Spec.keyed st) as Hk.
  { intros rid' r Hr.
    pose proof (run_keeps_wf fuel cfg ops _ init_rooms_wf rid' r Hr) as [Hid _]. done. }
  destruct (Lobby.handle_join_room rid user st) as [resp st'] eqn:Hj.
  simpl. by apply (join_room_again rid user st).
Qed.

Section leave_facts.
Import Py Lobby RoomTable.

Lemma drop_player_players user r v :
  v ∈ players (drop_player user r) ↔ v ∈ players r ∧ v ≠ user.
Proof.
  unfold drop_player. destruct (decide (user ∈ players r)) as [Hin|Hin].
  - rewrite (bool_decide_eq_true_2 _ Hin). simpl. rewrite list_elem_of_filter. tauto.
  - rewrite (bool_decide_eq_false_2 _ Hin). split; [|tauto].
    intros Hv. split; [done|]. by intros ->.
Qed.

Lemma drop_player_absent user r : user ∉ players r → drop_player user r = r.
Proof. intros Hin. unfold drop_player. by rewrite (bool_decide_eq_false_2 _ Hin). Qed.

Lemma existsb_values_false (p : Room → bool) st :
  existsb p (values st) = false ↔ ∀ rid r, rooms st !! rid = Some r → p r = false.
Proof.
  unfold values. rewrite <- not_true_iff_false, existsb_exists. split.
  - intros Hno rid r Hr. apply not_true_iff_false. intros Hp. apply Hno.
    exists r. split; [|done]. apply list_elem_of_In, list_elem_of_fmap.
    exists (rid, r). split; [done|]. by apply elem_of_map_to_list.
  - intros Hall (r & Hin & Hp).
    apply list_elem_of_In, list_elem_of_fmap in Hin as ([rid r'] & -> & Hin).
    apply elem_of_map_to_list in Hin. simpl in Hp. rewrite (Hall _ _ Hin) in Hp. done.
Qed.

Lemma drop_player_related user r (T : Prop) :
  room_persists r (drop_player user r) ∧ status (drop_player user r) = status r
  ∧ (∀ v, v ≠ user → v ∈ players (drop_player user r) ↔ v ∈ players r)
  ∧ (user ∈ players (drop_player user r) → user ∈ players r)
  ∧ (T → user ∉ players (drop_player user r)).
Proof.
  split; [|split; [|split; [|split]]].
  - unfold drop_player. destruct (bool_decide _); by repeat split.
  - unfold drop_player. by destruct (bool_decide _).
  - intros v Hv. rewrite drop_player_players. tauto.
  - rewrite drop_player_players. tauto.
  - intros _. rewrite drop_player_players. tauto.
Qed.

Lemma kept_room_related user r (T : Prop) :
  ¬ T →
  room_persists r r ∧ status r = status r
  ∧ (∀ v, v ≠ user → v ∈ players r ↔ v ∈ players r)
  ∧ (user ∈ players r → user ∈ players r)
  ∧ (T → user ∉ players r).
Proof. intros HT. split; [apply room_persists_refl|]. repeat split; tauto. Qed.

End leave_facts.

(** X20.  [leave_room] for a user keeps every room, with its status
    and everything that persists of it, and the other players of each
    room; the user is gone from the room named, or from every room when
    none is named; and the reply is [ok] or [NOT_IN_ROOM], the latter
    leaving the table as it was. *)
Theorem leave_room_removes_only_the_user :
  ∀ username room_id user st,
    Py.given username = Some user →
    let resp := (Lobby.handle_leave_room username room_id st).1 in
    let st' := (Lobby.handle_leave_room username room_id st).2 in
    (∀ rid, match Lobby.rooms st !! rid, Lobby.rooms st' !! rid with
            | Some r, Some r' =>
                RoomTable.room_persists r r' ∧ Lobby.status r' = Lobby.status r
                ∧ (∀ v, v ≠ user → v ∈ Lobby.players r' ↔ v ∈ Lobby.players r)
                ∧ (user ∈ Lobby.players r' → user ∈ Lobby.players r)
                ∧ (Py.given room_id = None ∨ Py.given room_id = Some rid →
                   user ∉ Lobby.players r')
            | None, None => True
            | _, _ => False
            end)
    ∧ (resp = Lobby.make_error "leave_room" "NOT_IN_ROOM" → Lobby.rooms st' = Lobby.rooms st)
    ∧ (resp = Lobby.make_error "leave_room" "NOT_IN_ROOM"
       ∨ ∃ d, resp = Lobby.make_ok "leave_room" d).
Proof.
  intros username room_id user st Hu resp st'. subst resp st'.
  unfold Lobby.handle_leave_room. rewrite Hu.
  destruct (Py.given room_id) as [rid|] eqn:Hrid.
  - destruct (Lobby.rooms st !! rid) as [room|] eqn:Hroom.
    + assert (∀ rid0,
                match Lobby.rooms st !! rid0,
                      <[rid := Lobby.drop_player user room]> (Lobby.rooms st) !! rid0 with
                | Some r, Some r' =>
                    RoomTable.room_persists r r' ∧ Lobby.status r' = Lobby.status r
                    ∧ (∀ v, v ≠ user → v ∈ Lobby.players r' ↔ v ∈ Lobby.players r)
                    ∧ (user ∈ Lobby.players r' → user ∈ Lobby.players r)
                    ∧ (Some rid = None ∨ Some rid = Some rid0 → user ∉ Lobby.players r')
                | None, None => True
                | _, _ => False
                end) as Hrooms.
      { intros rid0. rewrite lookup_insert. destruct (decide (rid = rid0)) as [<-|Hne].
        - rewrite Hroom. apply drop_player_related.
        - destruct (Lobby.rooms st !! rid0) as [r|]; [|done].
          apply kept_room_related. intros [|[= ?]]; done. }
      destruct (decide (user ∈ Lobby.players room)) as [Hin|Hin].
      * rewrite (bool_decide_eq_true_2 _ Hin). cbn [fst snd Lobby.rooms Lobby.set_rooms].
        split; [done|]. split; [done|]. right. eauto.
      * rewrite (bool_decide_eq_false_2 _ Hin). cbn [fst snd Lobby.rooms Lobby.set_rooms].
        split; [done|]. split; [|by left].
        intros _. rewrite drop_player_absent by done. by apply insert_id.
    + cbn [fst snd]. split; [|split; [done|by left]].
      intros rid0. destruct (Lobby.rooms st !! rid0) as [r|] eqn:Hr0; [|done].
      apply kept_room_related. intros [|[= <-]]; [done|]. congruence.
  - assert (∀ rid0,
              match Lobby.rooms st !! rid0,
                    (Lobby.drop_player user <$> Lobby.rooms st) !! rid0 with
              | Some r, Some r' =>
                  RoomTable.room_persists r r' ∧ Lobby.status r' = Lobby.status r
                  ∧ (∀ v, v ≠ user → v ∈ Lobby.players r' ↔ v ∈ Lobby.players r)
                  ∧ (user ∈ Lobby.players r' → user ∈ Lobby.players r)
                  ∧ (@None string = None ∨ None = Some rid0 → user ∉ Lobby.players r')
              | None, None => True
              | _, _ => False
              end) as Hrooms.
    { intros rid0. rewrite lookup_fmap. destruct (Lobby.rooms st !! rid0) as [r|]; [|done].
      simpl. apply drop_player_related. }
    destruct (existsb _ (Lobby.values st)) eqn:Hex;
      cbn [fst snd Lobby.rooms Lobby.set_rooms].
    + split; [done|]. split; [done|]. right. eauto.
    + split; [done|]. split; [|by left]. intros _.
      apply map_eq. intros rid0. rewrite lookup_fmap.
      destruct (Lobby.rooms st !! rid0) as [r|] eqn:Hr0; [|done]. simpl. f_equal.
      apply drop_player_absent.
      pose proof (proj1 (existsb_values_false _ _) Hex rid0 r Hr0) as Hno.
      by apply bool_decide_eq_false in Hno.
Qed.

Lemma leave_room_removes_only_the_user_witness :
  Lobby.rooms (Lobby.handle_leave_room (Some "carol") None Scenario.room_of_two).2
  = Lobby.rooms Scenario.room_of_two.
Proof.
  apply (proj1 (proj2 (leave_room_removes_only_the_user (Some "carol") None "carol"
                         Scenario.room_of_two ltac:(reflexivity)))).
  vm_compute. reflexivity.
Defined.

(** ** The seating of a grid-game room *)

Section dict_facts.
Import Py TTT.
Context {V : Type}.

Lemma keys_set (k : string) (v : V) (d : dict V) :
  keys (set k v d) = if bool_decide (k ∈ keys d) then keys d else keys d ++ [k].
Proof.
  unfold keys. induction d as [|[k' v'] d IH]; [done|].
  cbn [set]. rewrite !fmap_cons. cbn [fst]. destruct (decide (k' = k)) as [->|Hne].
  - rewrite (bool_decide_eq_true_2 (k = k)) by done. rewrite fmap_cons.
    rewrite bool_decide_eq_true_2; [done|]. apply elem_of_cons. by left.
  - rewrite (bool_decide_eq_false_2 _ Hne). rewrite fmap_cons, IH. cbn [fst].
    destruct (decide (k ∈ d.*1)) as [Hin|Hin].
    + rewrite (bool_decide_eq_true_2 _ Hin).
      rewrite bool_decide_eq_true_2; [done|]. apply elem_of_cons. by right.
    + rewrite (bool_decide_eq_false_2 _ Hin).
      rewrite bool_decide_eq_false_2; [done|].
      intros [?|?]%elem_of_cons; [congruence|done].
Qed.

Lemma vals_set (k : string) (v : V) (d : dict V) x :
  x ∈ vals (set k v d) → x = v ∨ x ∈ vals d.
Proof.
  unfold vals. induction d as [|[k' v'] d IH]; simpl.
  - intros ->%list_elem_of_singleton. by left.
  - destruct (bool_decide (k' = k)); simpl.
    + intros [->|?]%elem_of_cons; [by left|]. right. apply elem_of_cons. by right.
    + intros [->|Hx]%elem_of_cons.
      * right. apply elem_of_cons. by left.
      * destruct (IH Hx); [by left|]. right. apply elem_of_cons. by right.
Qed.

Lemma keys_pop (k : string) (d : dict V) : keys (pop k d) = filter (λ u, u ≠ k) (keys d).
Proof.
  unfold keys, pop. induction d as [|[k' v'] d IH]; [done|].
  rewrite fmap_cons, !filter_cons. cbn [fst].
  destruct (decide (k' ≠ k)); rewrite ?fmap_cons, IH; done.
Qed.

Lemma vals_pop_sublist (k : string) (d : dict V) : vals (pop k d) `sublist_of` vals d.
Proof. unfold vals, pop. apply fmap_sublist, sublist_filter. Qed.

Lemma length_keys (d : dict V) : length (keys d) = length d.
Proof. unfold keys. apply length_fmap. Qed.

Lemma get_in_vals (k : string) (d : dict V) v : get k d = Some v → v ∈ vals d.
Proof.
  unfold get, vals. destruct (find _ d) as [kv|] eqn:Hf; [|done].
  intros [= <-]. apply find_some in Hf as [Hin _].
  apply list_elem_of_fmap. exists kv. split; [done|]. by apply list_elem_of_In.
Qed.

End dict_facts.

Section seating_facts.
Import Py TTT Seating.

Lemma pop_pop {V} (k : string) (d : dict V) : pop k (pop k d) = pop k d.
Proof.
  unfold pop. induction d as [|kv d IH]; [done|].
  rewrite filter_cons. destruct (decide (kv.1 ≠ k)) as [Hne|Hne]; [|done].
  rewrite filter_cons, decide_True by done. by rewrite IH.
Qed.

Lemma seating_same_seats s s' :
  players s' = players s → connections s' = connections s →
  board s' = board s → turn s' = turn s →
  seating_ok s → seating_ok s'.
Proof. unfold seating_ok. intros -> -> -> ->. done. Qed.

Lemma empty_board_cells c : c ∈ empty_board → c = "" ∨ c = "X" ∨ c = "O".
Proof. intros [-> _]%elem_of_replicate. by left. Qed.

Lemma add_player_keeps_seating username c s :
  username ≠ "" → seating_ok s → seating_ok (add_player username c s).2.
Proof.
  intros Hname (Hlen & Hk & Hv & Hm & He & Hc & Hb & Hcells & Ht).
  unfold add_player. case_bool_decide as Hfull; [done|]. cbn [snd].
  assert (∀ u, u ∈ keys (players s) → u ∈ keys (set username
            (if bool_decide ("X" ∉ vals (players s)) then "X" else "O") (players s)))
    as Hsub.
  { intros u Hu. rewrite keys_set. destruct (bool_decide _); [done|].
    apply elem_of_app. by left. }
  unfold seating_ok. cbn [players connections board turn].
  split; [|split; [|split; [|split; [|split; [|split; [|split; [done|split; [done|]]]]]]]].
  - rewrite <- length_keys, keys_set. destruct (bool_decide (username ∈ _)).
    + rewrite length_keys. lia.
    + rewrite length_app, length_keys. simpl. lia.
  - rewrite keys_set. destruct (decide (username ∈ keys (players s))) as [Hin|Hin].
    + by rewrite (bool_decide_eq_true_2 _ Hin).
    + rewrite (bool_decide_eq_false_2 _ Hin). apply NoDup_app. split; [done|].
      split; [|apply NoDup_singleton]. intros x Hx ->%list_elem_of_singleton. done.
  - destruct (players s) as [|[a m] [|? ?]] eqn:Hp; [| |simpl in Hfull; lia].
    + simpl. apply NoDup_singleton.
    + assert (m = "X" ∨ m = "O") as Hmark.
      { apply Hm. unfold vals. simpl. apply elem_of_cons. by left. }
      cbn [set]. destruct (bool_decide (a = username));
        destruct Hmark as [-> | ->]; vm_compute; repeat constructor;
        rewrite ?elem_of_cons, ?elem_of_nil; intros H; intuition congruence.
  - intros x [->|Hx]%vals_set; [|by apply Hm]. destruct (bool_decide _); eauto.
  - rewrite keys_set. destruct (bool_decide (username ∈ keys (players s))); [exact He|].
    intros [?|?%list_elem_of_singleton]%elem_of_app; [done|congruence].
  - rewrite !keys_set, Hc. done.
  - intros u. destruct (_ && _).
    + destruct (keys (set _ _ _)) as [|k ks]; [done|]. simpl. intros [= <-].
      apply elem_of_cons. by left.
    + intros Hu. by apply Hsub, Ht.
Qed.

Lemma remove_player_keeps_seating username s :
  seating_ok s → seating_ok (remove_player username s).
Proof.
  intros (Hlen & Hk & Hv & Hm & He & Hc & Hb & Hcells & Ht).
  unfold seating_ok, remove_player. cbn [players connections board turn].
  split; [|split; [|split; [|split; [|split; [|split; [|split; [done|split; [done|]]]]]]]].
  - unfold pop. pose proof (length_filter (λ kv : string * string, kv.1 ≠ username) (players s)).
    lia.
  - rewrite keys_pop. by apply NoDup_filter.
  - eapply sublist_NoDup; [exact Hv|apply vals_pop_sublist].
  - intros m Hin. apply Hm. eapply elem_of_sublist; [exact Hin|apply vals_pop_sublist].
  - rewrite keys_pop. intros [_ ?]%list_elem_of_filter. done.
  - rewrite !keys_pop, Hc. done.
  - intros u. case_bool_decide as Hturn; [done|]. intros Hu.
    rewrite keys_pop. apply list_elem_of_filter. split; [congruence|by apply Ht].
Qed.

Lemma cleared_keeps_seating s :
  seating_ok s →
  seating_ok (mkGame empty_board (players s) (connections s) None None (active s) []).
Proof.
  intros (Hlen & Hk & Hv & Hm & He & Hc & Hb & Hcells & Ht).
  unfold seating_ok. cbn [players connections board turn].
  repeat split; try done. apply empty_board_cells.
Qed.

Lemma drop_dead_keeps_seating dead s :
  seating_ok s →
  seating_ok
    (foldl (λ acc user,
              remove_player user
                (mkGame (board acc) (players acc) (pop user (connections acc))
                   (turn acc) (winner acc) (active acc) (play_again_votes acc)))
           s dead).
Proof.
  revert s. induction dead as [|user dead IH]; intros s Hs; [done|].
  simpl. apply IH.
  assert (remove_player user
            (mkGame (board s) (players s) (pop user (connections s)) (turn s) (winner s)
               (active s) (play_again_votes s)) = remove_player user s) as ->.
  { unfold remove_player. cbn [players connections board turn winner active
                                 play_again_votes]. by rewrite pop_pop. }
  by apply remove_player_keeps_seating.
Qed.

Lemma broadcast_keeps_seating send_ok payload s :
  seating_ok s → seating_ok (broadcast send_ok payload s).1.
Proof.
  intros Hs. unfold broadcast. cbn [fst].
  pose proof (drop_dead_keeps_seating
                (omap (λ uc : string * conn, if send_ok uc.2 then None else Some uc.1)
                   (connections s)) s Hs) as Hs1.
  revert Hs1.
  destruct (omap (λ uc : string * conn, if send_ok uc.2 then None else Some uc.1)
              (connections s)) as [|user dead]; [done|].
  intros Hs1. destruct (bool_decide _); [|done].
  by apply cleared_keeps_seating.
Qed.

Lemma apply_move_keeps_seating username idx s :
  seating_ok s → seating_ok (apply_move username idx s).
Proof.
  intros (Hlen & Hk & Hv & Hm & He & Hc & Hb & Hcells & Ht).
  assert (seating_ok
            (set_turn (head (filter (λ u, u ≠ username) (keys (players s))))
               (set_board (<[idx := default "" (get username (players s))]> (board s)) s)))
    as Hs.
  { unfold seating_ok. cbn [players connections board turn set_turn set_board].
    repeat split; try done.
    - by rewrite length_insert.
    - intros c Hin. apply list_elem_of_lookup in Hin as [i Hi].
      destruct (decide (i = idx)) as [->|Hne].
      + apply list_lookup_insert_Some in Hi as [(_ & <- & _)|[? _]]; [|done].
        destruct (get username (players s)) as [m|] eqn:Hg; [|by left].
        right. apply Hm. by eapply get_in_vals.
      + rewrite list_lookup_insert_ne in Hi by done.
        apply Hcells. by eapply list_elem_of_lookup_2.
    - intros u Hu. apply head_Some_elem_of in Hu.
      by apply list_elem_of_filter in Hu as [_ ?]. }
  unfold apply_move. cbn zeta.
  destruct (check_winner _).
  - destruct (find _ _); [|done]. revert Hs. by apply seating_same_seats.
  - destruct (board_full _); [|done]. revert Hs. by apply seating_same_seats.
Qed.

Lemma reset_keeps_seating s : seating_ok s → seating_ok (reset s).
Proof.
  intros (Hlen & Hk & Hv & Hm & He & Hc & Hb & Hcells & Ht).
  unfold seating_ok, reset. cbn [players connections board turn].
  repeat split; try done; [apply empty_board_cells|].
  intros u. destruct (find _ (players s)) as [kv|] eqn:Hf; simpl.
  - assert (kv.1 ∈ keys (players s)) as Hin.
    { apply find_some in Hf as [Hin _]. apply list_elem_of_fmap. exists kv.
      split; [done|]. by apply list_elem_of_In. }
    destruct (bool_decide (kv.1 = "")) eqn:Hempty; simpl.
    + destruct (players s) as [|[k v] ps]; [done|]. simpl. intros [= <-].
      apply elem_of_cons. by left.
    + by intros [= <-].
  - destruct (players s) as [|[k v] ps]; [done|]. simpl. intros [= <-].
    apply elem_of_cons. by left.
Qed.

Lemma send_state_keeps_seating send_ok s :
  seating_ok s → seating_ok (send_state send_ok s).1.
Proof. apply broadcast_keeps_seating. Qed.

Lemma finally_keeps_seating send_ok cl s :
  seating_ok s → seating_ok (handle_client_finally send_ok cl s).1.
Proof.
  intros Hs. unfold handle_client_finally. destruct (given _); [|done].
  by apply send_state_keeps_seating, remove_player_keeps_seating.
Qed.

Lemma handle_message_keeps_seating send_ok cl req s :
  seating_ok s → seating_ok (handle_message send_ok cl req s).1.1.2.
Proof.
  intros Hs. destruct req as [username|c|again|]; cbn [handle_message cl_conn]; [| | |exact Hs].
  - set (name := default "" _).
    assert (name ≠ "") as Hname.
    { subst name. unfold or_str. destruct username as [u|]; simpl; [|done].
      case_bool_decide; simpl; done. }
    pose proof (add_player_keeps_seating name (cl_conn cl) s Hname Hs) as Ha.
    destruct (add_player name (cl_conn cl) s) as [[symbol|] s1]; cbn [snd] in Ha.
    + cbn [cl_conn]. destruct (send_ok (cl_conn cl)); [|exact Ha].
      pose proof (send_state_keeps_seating send_ok s1 Ha) as Hb.
      destruct (send_state send_ok s1) as [s2 out2]. exact Hb.
    + cbn [cl_conn]. destruct (send_ok (cl_conn cl)); exact Ha.
  - destruct (given (cl_username cl)) as [username|]; [|exact Hs].
    destruct (int_or_default c (-1)) as [idx|]; [|exact Hs].
    repeat (match goal with |- context [if ?b then _ else _] => destruct b end; [exact Hs|]).
    pose proof (send_state_keeps_seating send_ok _
                  (apply_move_keeps_seating username (Z.to_nat idx) s Hs)) as Hb.
    destruct (send_state send_ok _) as [s2 out2]. exact Hb.
  - destruct (given (cl_username cl)) as [username|]; [|exact Hs].
    set (s1 := set_votes _ s).
    assert (seating_ok s1) as Hs1 by (revert Hs; by apply seating_same_seats).
    destruct (bool_decide _); [exact Hs1|].
    destruct (negb _); [revert Hs1; by apply seating_same_seats|].
    pose proof (send_state_keeps_seating send_ok _ (reset_keeps_seating s1 Hs1)) as Hb.
    destruct (send_state send_ok _) as [s2 out2]. exact Hb.
Qed.

Lemma step_keeps_seating send_ok ev r :
  seating_ok (game r) → seating_ok (game (step send_ok ev r).1).
Proof.
  intros Hs. destruct ev as [c req|c]; simpl.
  - pose proof (handle_message_keeps_seating send_ok
                  (default (mkClient c None) (clients r !! c)) req (game r) Hs) as Hm.
    destruct (handle_message _ _ _ _) as [[[cl' s1] out] next]. simpl in Hm.
    destruct next; [done| |].
    all: pose proof (finally_keeps_seating send_ok cl' s1 Hm) as Hf.
    all: by destruct (handle_client_finally _ _ _).
  - pose proof (finally_keeps_seating send_ok
                  (default (mkClient c None) (clients r !! c)) (game r) Hs) as Hf.
    by destruct (handle_client_finally _ _ _).
Qed.

Lemma init_seating : seating_ok init.
Proof.
  unfold seating_ok. simpl. repeat split; try done.
  - lia.
  - apply NoDup_nil_2.
  - apply NoDup_nil_2.
  - intros m Hm. by apply elem_of_nil in Hm.
  - intros H. by apply elem_of_nil in H.
  - apply empty_board_cells.
Qed.

Lemma run_keeps_seating send_ok evs :
  seating_ok (game (run send_ok evs start)).
Proof.
  unfold run.
  assert (seating_ok (game start)) as Hinit by apply init_seating.
  revert Hinit. generalize start.
  induction evs as [|ev evs IH]; intros r Hr; [done|].
  simpl. apply IH. by apply step_keeps_seating.
Qed.

End seating_facts.

(** ** Moves, results and rematches *)

Section move_facts.
Import Py TTT Seating.

Lemma two_seats (d : dict string) u :
  length d = 2%nat → NoDup (keys d) → u ∈ keys d →
  ∃ mark other,
    get u d = Some mark ∧ other ≠ u ∧ other ∈ keys d
    ∧ head (filter (λ v, v ≠ u) (keys d)) = Some other.
Proof.
  destruct d as [|[a ma] [|[b mb] [|? ?]]]; try done. intros _.
  unfold keys. simpl. intros Hnd Hu.
  apply NoDup_cons in Hnd as [Hab _].
  assert (a ≠ b) as Hne. { intros ->. apply Hab. apply elem_of_cons. by left. }
  apply elem_of_cons in Hu as [->|Hu].
  - exists ma, b. unfold get. simpl. rewrite bool_decide_eq_true_2 by done.
    split; [done|]. split; [congruence|]. split.
    + apply elem_of_cons. right. apply elem_of_cons. by left.
    + rewrite filter_cons, decide_False by tauto.
      rewrite filter_cons, decide_True by congruence. done.
  - apply elem_of_cons in Hu as [->|Hu]; [|by apply elem_of_nil in Hu].
    exists mb, a. unfold get. simpl. rewrite bool_decide_eq_false_2 by done.
    rewrite bool_decide_eq_true_2 by done.
    split; [done|]. split; [done|]. split.
    + apply elem_of_cons. by left.
    + rewrite filter_cons, decide_True by done. done.
Qed.

Lemma board_of_apply_move u idx s :
  board (apply_move u idx s) = <[idx := default "" (get u (players s))]> (board s)
  ∧ turn (apply_move u idx s) = head (filter (λ v, v ≠ u) (keys (players s)))
  ∧ players (apply_move u idx s) = players s
  ∧ connections (apply_move u idx s) = connections s.
Proof.
  unfold apply_move. cbn zeta.
  destruct (check_winner _).
  - by destruct (find _ _).
  - by destruct (board_full _).
Qed.

End move_facts.

(** X22.  In a reachable state, a [move] with an integer cell from a
    client that has joined as [u] is ignored, the state unchanged and
    nothing sent, unless two players are seated, the game is not over,
    the cell is within 0..8 and empty, and it is the turn of [u]; when it
    is legal, the cell takes the mark of [u], which is [X] or [O], the
    turn passes to the other seated player, and the new state is
    broadcast. *)
Theorem move_is_applied_only_when_legal :
  ∀ send_ok evs cl u idx,
    let s := TTT.game (TTT.run send_ok evs TTT.start) in
    Py.given (TTT.cl_username cl) = Some u →
    (Seating.legal_move u idx s = false →
     TTT.handle_message send_ok cl (TTT.move (Py.ArgInt idx)) s = (cl, s, [], TTT.continue))
    ∧ (Seating.legal_move u idx s = true →
       ∃ mark other,
         TTT.get u (TTT.players s) = Some mark ∧ (mark = "X" ∨ mark = "O")
         ∧ other ≠ u ∧ other ∈ TTT.keys (TTT.players s)
         ∧ TTT.handle_message send_ok cl (TTT.move (Py.ArgInt idx)) s
           = (cl, (TTT.send_state send_ok (TTT.apply_move u (Z.to_nat idx) s)).1,
              (TTT.send_state send_ok (TTT.apply_move u (Z.to_nat idx) s)).2, TTT.continue)
         ∧ TTT.board (TTT.apply_move u (Z.to_nat idx) s)
           = <[Z.to_nat idx := mark]> (TTT.board s)
         ∧ TTT.turn (TTT.apply_move u (Z.to_nat idx) s) = Some other
         ∧ TTT.players (TTT.apply_move u (Z.to_nat idx) s) = TTT.players s).
Proof.
  intros send_ok evs cl u idx s Hu.
  pose proof (run_keeps_seating send_ok evs) as Hseat. fold s in Hseat.
  destruct Hseat as (Hlen & Hk & Hv & Hm & He & Hc & Hb & Hcells & Ht).
  unfold Seating.legal_move. cbn [TTT.handle_message]. rewrite Hu. cbn [Py.int_or_default].
  split.
  - intros Hlegal.
    destruct (decide (length (TTT.players s) < 2)%nat) as [Hfew|Hfew].
    { by rewrite (bool_decide_eq_true_2 _ Hfew). }
    rewrite (bool_decide_eq_false_2 _ Hfew).
    rewrite (bool_decide_eq_true_2 (length (TTT.players s) = 2%nat)) in Hlegal by lia.
    destruct (Py.truthy_str (TTT.winner s) || TTT.board_full (TTT.board s)); [done|].
    destruct (decide (0 ≤ idx < 9)) as [Hidx|Hidx].
    2: { destruct (decide (idx < 0)) as [Hlt|Hlt].
         - by rewrite (bool_decide_eq_true_2 _ Hlt).
         - rewrite (bool_decide_eq_false_2 _ Hlt).
           by rewrite (bool_decide_eq_true_2 (idx >= 9)) by lia. }
    rewrite (bool_decide_eq_true_2 _ Hidx) in Hlegal.
    rewrite (bool_decide_eq_false_2 (idx < 0)) by lia.
    rewrite (bool_decide_eq_false_2 (idx >= 9)) by lia.
    destruct (bool_decide (TTT.turn s = Some u)); [|done].
    destruct (bool_decide (TTT.cell (TTT.board s) (Z.to_nat idx) = "")); done.
  - intros Hlegal.
    apply andb_true_iff in Hlegal as [Hlegal Hcell].
    apply andb_true_iff in Hlegal as [Hlegal Hturn].
    apply andb_true_iff in Hlegal as [Hlegal Hidx].
    apply andb_true_iff in Hlegal as [Htwo Hover].
    apply bool_decide_eq_true in Htwo, Hidx, Hturn.
    apply negb_true_iff in Hover.
    destruct (two_seats (TTT.players s) u Htwo Hk (Ht u Hturn))
      as (mark & other & Hget & Hne & Hin & Hhead).
    exists mark, other.
    split; [done|]. split; [by eapply Hm, get_in_vals|]. split; [done|]. split; [done|].
    destruct (board_of_apply_move u (Z.to_nat idx) s) as (Hboard & Hturn' & Hplayers & _).
    split.
    + rewrite (bool_decide_eq_false_2 (length (TTT.players s) < 2)%nat) by lia.
      rewrite Hover.
      rewrite (bool_decide_eq_false_2 (idx < 0)) by lia.
      rewrite (bool_decide_eq_false_2 (idx >= 9)) by lia.
      rewrite (bool_decide_eq_true_2 _ Hturn), Hcell. cbn [negb orb].
      by destruct (TTT.send_state send_ok _).
    + rewrite Hboard, Hturn', Hget, Hhead. done.
Qed.

Lemma move_is_applied_only_when_legal_witness :
  let s := TTT.game Scenario.seated in
  ∃ mark other,
    TTT.get "alice" (TTT.players s) = Some mark ∧ (mark = "X" ∨ mark = "O")
    ∧ other ≠ "alice" ∧ other ∈ TTT.keys (TTT.players s)
    ∧ TTT.handle_message Scenario.all_sent (TTT.mkClient 1%nat (Some "alice"))
        (TTT.move (Py.ArgInt 0)) s
      = (TTT.mkClient 1%nat (Some "alice"),
         (TTT.send_state Scenario.all_sent (TTT.apply_move "alice" (Z.to_nat 0) s)).1,
         (TTT.send_state Scenario.all_sent (TTT.apply_move "alice" (Z.to_nat 0) s)).2,
         TTT.continue)
    ∧ TTT.board (TTT.apply_move "alice" (Z.to_nat 0) s) = <[Z.to_nat 0 := mark]> (TTT.board s)
    ∧ TTT.turn (TTT.apply_move "alice" (Z.to_nat 0) s) = Some other
    ∧ TTT.players (TTT.apply_move "alice" (Z.to_nat 0) s) = TTT.players s.
Proof.
  intros s.
  apply (proj2 (move_is_applied_only_when_legal Scenario.all_sent
                  [TTT.Recv 1%nat (TTT.join (Some "alice"));
                   TTT.Recv 2%nat (TTT.join (Some "bob"))]
                  (TTT.mkClient 1%nat (Some "alice")) "alice" 0 ltac:(reflexivity))).
  vm_compute. reflexivity.
Defined.

Section result_facts.
Import Py TTT Seating.

Lemma check_winner_line b m :
  check_winner b = Some m →
  m ≠ "" ∧ ∃ i j k, (i, j, k) ∈ lines ∧ cell b i = m ∧ cell b j = m ∧ cell b k = m.
Proof.
  unfold check_winner. destruct (find _ lines) as [[[i j] k]|] eqn:Hf; [|done].
  intros [= <-]. apply find_some in Hf as [Hin Hl]. cbn [fst snd] in Hl.
  apply andb_true_iff in Hl as [Hl H2]. apply andb_true_iff in Hl as [H0 H1].
  apply negb_true_iff, bool_decide_eq_false in H0.
  apply bool_decide_eq_true in H1, H2.
  split; [done|]. exists i, j, k. split; [by apply list_elem_of_In|].
  split; [done|]. split; congruence.
Qed.

Lemma cell_mark b i m :
  (∀ c, c ∈ b → c = "" ∨ c = "X" ∨ c = "O") → cell b i = m → m ≠ "" → m = "X" ∨ m = "O".
Proof.
  intros Hcells Hc Hne. unfold cell in Hc.
  destruct (b !! i) as [c|] eqn:Hi; simpl in Hc; [|congruence]. subst c.
  destruct (Hcells m) as [?|?]; [by eapply list_elem_of_lookup_2|done|done].
Qed.

Lemma result_same s s' :
  board s' = board s → winner s' = winner s → result_ok s → result_ok s'.
Proof. unfold result_ok. intros -> ->. done. Qed.

Lemma result_none s : winner s = None → result_ok s.
Proof. intros Hw. unfold result_ok. rewrite Hw. split; [done|]. by intros w [=]. Qed.

Lemma drop_dead_same dead s :
  let s' := foldl (λ acc user,
                     remove_player user
                       (mkGame (board acc) (players acc) (pop user (connections acc))
                          (turn acc) (winner acc) (active acc) (play_again_votes acc)))
                  s dead in
  board s' = board s ∧ winner s' = winner s.
Proof.
  revert s. induction dead as [|user dead IH]; intros s; [done|].
  simpl. destruct (IH (remove_player user
                         (mkGame (board s) (players s) (pop user (connections s)) (turn s)
                            (winner s) (active s) (play_again_votes s)))) as [-> ->].
  done.
Qed.

Lemma send_state_keeps_result send_ok s :
  result_ok s → result_ok (send_state send_ok s).1.
Proof.
  intros Hs. unfold send_state, broadcast. cbn [fst].
  pose proof (drop_dead_same
                (omap (λ uc : string * conn, if send_ok uc.2 then None else Some uc.1)
                   (connections s)) s) as Hsame.
  cbn zeta in Hsame. revert Hsame.
  destruct (omap (λ uc : string * conn, if send_ok uc.2 then None else Some uc.1)
              (connections s)) as [|user dead]; [done|].
  intros [Hb Hw]. destruct (bool_decide _); [by apply result_none|].
  revert Hs. by apply result_same.
Qed.

Lemma apply_move_keeps_result u idx s :
  seating_ok s → winner s = None → result_ok (apply_move u idx s).
Proof.
  intros Hseat Hw.
  pose proof (apply_move_keeps_seating u idx s Hseat) as (_&_&_&_&He&_&_&Hcells&_).
  destruct (board_of_apply_move u idx s) as (Hboard & _ & Hplayers & _).
  rewrite Hboard in Hcells. rewrite Hplayers in He.
  revert He Hcells. unfold apply_move. cbn zeta.
  cbn [board set_turn set_board players].
  set (b' := <[idx := default "" (get u (players s))]> (board s)).
  intros He Hcells.
  destruct (check_winner b') as [sym|] eqn:Hcheck.
  - destruct (find _ (players s)) as [kv|] eqn:Hf.
    + unfold result_ok. cbn [winner board set_winner set_turn set_board].
      assert (kv.1 ≠ "") as Hname.
      { intros Heq. apply He. rewrite <- Heq. apply find_some in Hf as [Hin _].
        apply list_elem_of_fmap. exists kv. split; [done|]. by apply list_elem_of_In. }
      split; [intros [= ?]; done|]. intros w [= <-] _.
      apply check_winner_line in Hcheck as (Hne & i & j & k & Hin & Hi & Hj & Hk).
      exists sym, i, j, k. split; [done|]. split; [|done].
      by eapply cell_mark.
    + apply result_none. done.
  - destruct (board_full b') eqn:Hfull.
    + unfold result_ok. cbn [winner board set_winner set_turn set_board].
      split; [done|]. by intros w [= <-].
    + apply result_none. done.
Qed.

Lemma finally_keeps_result send_ok cl s :
  result_ok s → result_ok (handle_client_finally send_ok cl s).1.
Proof.
  intros Hs. unfold handle_client_finally. destruct (given _); [|done].
  apply send_state_keeps_result. revert Hs. by apply result_same.
Qed.

Lemma handle_message_keeps_result send_ok cl req s :
  seating_ok s → result_ok s → result_ok (handle_message send_ok cl req s).1.1.2.
Proof.
  intros Hseat Hs. destruct req as [username|c|again|]; cbn [handle_message cl_conn];
    [| | |exact Hs].
  - set (name := default "" _).
    assert (result_ok (add_player name (cl_conn cl) s).2) as Ha.
    { unfold add_player. destruct (bool_decide _); [done|].
      revert Hs. by apply result_same. }
    destruct (add_player name (cl_conn cl) s) as [[symbol|] s1]; cbn [snd] in Ha.
    + destruct (send_ok (cl_conn cl)); [|exact Ha].
      pose proof (send_state_keeps_result send_ok s1 Ha) as Hb.
      destruct (send_state send_ok s1) as [s2 out2]. exact Hb.
    + destruct (send_ok (cl_conn cl)); exact Ha.
  - destruct (given (cl_username cl)) as [username|]; [|exact Hs].
    destruct (int_or_default c (-1)) as [idx|]; [|exact Hs].
    destruct (bool_decide (length (players s) < 2)%nat); [exact Hs|].
    destruct (truthy_str (winner s) || board_full (board s)) eqn:Hover; [exact Hs|].
    repeat (match goal with |- context [if ?b then _ else _] => destruct b end; [exact Hs|]).
    apply orb_false_iff in Hover as [Hw Hfull].
    assert (winner s = None) as Hnone.
    { destruct (winner s) as [w|] eqn:Hwin; [|done]. simpl in Hw.
      apply negb_false_iff, bool_decide_eq_true in Hw. subst w.
      destruct Hs as [Hdraw _]. destruct (Hdraw Hwin) as [Hf _]. congruence. }
    pose proof (send_state_keeps_result send_ok _
                  (apply_move_keeps_result username (Z.to_nat idx) s Hseat Hnone)) as Hb.
    destruct (send_state send_ok _) as [s2 out2]. exact Hb.
  - destruct (given (cl_username cl)) as [username|]; [|exact Hs].
    set (s1 := set_votes _ s).
    assert (result_ok s1) as Hs1 by (revert Hs; by apply result_same).
    destruct (bool_decide _); [exact Hs1|].
    destruct (negb _); [revert Hs1; by apply result_same|].
    pose proof (send_state_keeps_result send_ok (reset s1)
                  (result_none (reset s1) eq_refl)) as Hb.
    destruct (send_state send_ok _) as [s2 out2]. exact Hb.
Qed.

Lemma step_keeps_result send_ok ev r :
  seating_ok (game r) → result_ok (game r) → result_ok (game (step send_ok ev r).1).
Proof.
  intros Hseat Hs. destruct ev as [c req|c]; simpl.
  - pose proof (handle_message_keeps_result send_ok
                  (default (mkClient c None) (clients r !! c)) req (game r) Hseat Hs) as Hm.
    destruct (handle_message _ _ _ _) as [[[cl' s1] out] next]. simpl in Hm.
    destruct next; [done| |].
    all: pose proof (finally_keeps_result send_ok cl' s1 Hm) as Hf.
    all: by destruct (handle_client_finally _ _ _).
  - pose proof (finally_keeps_result send_ok
                  (default (mkClient c None) (clients r !! c)) (game r) Hs) as Hf.
    by destruct (handle_client_finally _ _ _).
Qed.

End result_facts.

Section play_facts.
Import Py TTT Seating.

Lemma step_closing_keeps_seating send_ok closing ev r :
  seating_ok (game r) → seating_ok (game (step_closing send_ok closing ev r).1).
Proof.
  intros Hs. destruct ev as [c req|c]; cbn [step_closing].
  - pose proof (handle_message_keeps_seating send_ok
                  (default (mkClient c None) (clients r !! c)) req (game r) Hs) as Hm.
    destruct (handle_message _ _ _ _) as [[[cl' s1] out] next]. simpl in Hm.
    destruct next; [done| |].
    all: pose proof (finally_keeps_seating (closed c closing) cl' s1 Hm) as Hf.
    all: by destruct (handle_client_finally _ _ _).
  - pose proof (finally_keeps_seating (closed c closing)
                  (default (mkClient c None) (clients r !! c)) (game r) Hs) as Hf.
    by destruct (handle_client_finally _ _ _).
Qed.

Lemma step_closing_keeps_result send_ok closing ev r :
  seating_ok (game r) → result_ok (game r) →
  result_ok (game (step_closing send_ok closing ev r).1).
Proof.
  intros Hseat Hs. destruct ev as [c req|c]; cbn [step_closing].
  - pose proof (handle_message_keeps_result send_ok
                  (default (mkClient c None) (clients r !! c)) req (game r) Hseat Hs) as Hm.
    destruct (handle_message _ _ _ _) as [[[cl' s1] out] next]. simpl in Hm.
    destruct next; [done| |].
    all: pose proof (finally_keeps_result (closed c closing) cl' s1 Hm) as Hf.
    all: by destruct (handle_client_finally _ _ _).
  - pose proof (finally_keeps_result (closed c closing)
                  (default (mkClient c None) (clients r !! c)) (game r) Hs) as Hf.
    by destruct (handle_client_finally _ _ _).
Qed.

Lemma play_keeps_seating_and_result evs r :
  seating_ok (game r) ∧ result_ok (game r) →
  seating_ok (game (play evs r)) ∧ result_ok (game (play evs r)).
Proof.
  unfold play. revert r. induction evs as [|[[send_ok closing] ev] evs IH]; intros r [Hs Hr];
    [done|].
  cbn [foldl fst snd]. apply IH.
  split; [by apply step_closing_keeps_seating|by apply step_closing_keeps_result].
Qed.

Lemma start_seating_and_result : seating_ok (game start) ∧ result_ok (game start).
Proof. split; [apply init_seating|by apply result_none]. Qed.

End play_facts.

(** A send that fails during a broadcast unseats its player and clears
    the board: bob joins after alice, alice moves, and the state that
    follows bob's next message does not reach alice. *)
Example failed_send_unseats_the_player :
  let r := TTT.play
             [(Scenario.all_sent, Scenario.all_sent,
               TTT.Recv 1%nat (TTT.join (Some "alice")));
              (Scenario.all_sent, Scenario.all_sent,
               TTT.Recv 2%nat (TTT.join (Some "bob")));
              (Scenario.all_sent, Scenario.all_sent,
               TTT.Recv 1%nat (TTT.move (Py.ArgInt 0)));
              (λ c, bool_decide (c = 2%nat), Scenario.all_sent,
               TTT.Recv 2%nat (TTT.move (Py.ArgInt 4)))]
             TTT.start in
  TTT.keys (TTT.players (TTT.game r)) = ["bob"]
  ∧ TTT.board (TTT.game r) = TTT.empty_board
  ∧ TTT.turn (TTT.game r) = None.
Proof. repeat split; vm_compute; reflexivity. Qed.

(** X21.  In every state a grid-game room reaches from its start,
    whichever sends fail at whichever event, at most two players are
    seated, under distinct non-empty names and with distinct marks
    among [X] and [O]; the connections are those of the seated players;
    the board has nine cells, each empty or a mark; and the turn, when
    set, is a seated player's. *)
Theorem room_keeps_its_seating :
  ∀ evs, Seating.seating_ok (TTT.game (TTT.play evs TTT.start)).
Proof.
  intros evs.
  by destruct (play_keeps_seating_and_result evs TTT.start start_seating_and_result).
Qed.

(** X23.  In every state a grid-game room reaches from its start,
    whichever sends fail at whichever event, a declared draw (the
    empty name as winner) comes with a full board without a line, and a
    declared winner with a line of three equal marks on the board. *)
Theorem declared_result_matches_board :
  ∀ evs, Seating.result_ok (TTT.game (TTT.play evs TTT.start)).
Proof.
  intros evs.
  by destruct (play_keeps_seating_and_result evs TTT.start start_seating_and_result).
Qed.

Section refusal_facts.
Import Py TTT Seating.




End refusal_facts.



Section rematch_facts.
Import Py TTT Seating.

Lemma x_is_seated (d : dict string) :
  length d = 2%nat → NoDup (keys d) → NoDup (vals d) →
  (∀ m, m ∈ vals d → m = "X" ∨ m = "O") →
  ∃ kv, find (λ kv : string * string, bool_decide (kv.2 = "X")) d = Some kv
        ∧ get kv.1 d = Some "X".
Proof.
  destruct d as [|[a ma] [|[b mb] [|? ?]]]; try done. intros _.
  unfold keys, vals, get. simpl. intros Hk Hv Hm.
  apply NoDup_cons in Hk as [Hab _]. apply NoDup_cons in Hv as [Hmab _].
  assert (a ≠ b) as Hne. { intros ->. apply Hab. apply elem_of_cons. by left. }
  assert (ma ≠ mb) as Hmne. { intros ->. apply Hmab. apply elem_of_cons. by left. }
  assert (ma = "X" ∨ ma = "O") as Hma. { apply Hm. apply elem_of_cons. by left. }
  assert (mb = "X" ∨ mb = "O") as Hmb.
  { apply Hm. apply elem_of_cons. right. apply elem_of_cons. by left. }
  destruct Hma as [-> | ->], Hmb as [-> | ->]; try done.
  - exists (a, "X"). simpl. by rewrite bool_decide_eq_true_2.
  - exists (b, "X"). simpl. split; [done|].
    rewrite bool_decide_eq_false_2 by done. by rewrite bool_decide_eq_true_2.
Qed.

End rematch_facts.

(** X25.  In a reachable state with two players seated, the
    [play_again] vote that completes a unanimous vote resets the game:
    the board is emptied, the winner and the votes are cleared, the
    players stay, the turn goes to the player who holds [X], and the new
    state is broadcast. *)
Theorem rematch_clears_board_and_x_starts :
  ∀ send_ok evs cl u again,
    let s := TTT.game (TTT.run send_ok evs TTT.start) in
    let s1 := TTT.set_votes (TTT.set u again (TTT.play_again_votes s)) s in
    Py.given (TTT.cl_username cl) = Some u →
    length (TTT.players s) = 2%nat →
    (length (TTT.players s) ≤ length (TTT.play_again_votes s1))%nat →
    forallb id (TTT.vals (TTT.play_again_votes s1)) = true →
    TTT.handle_message send_ok cl (TTT.play_again again) s
    = (cl, (TTT.send_state send_ok (TTT.reset s1)).1,
       (TTT.send_state send_ok (TTT.reset s1)).2, TTT.continue)
    ∧ TTT.board (TTT.reset s1) = TTT.empty_board
    ∧ TTT.winner (TTT.reset s1) = None
    ∧ TTT.play_again_votes (TTT.reset s1) = []
    ∧ TTT.players (TTT.reset s1) = TTT.players s
    ∧ ∃ x, TTT.get x (TTT.players s) = Some "X" ∧ TTT.turn (TTT.reset s1) = Some x.
Proof.
  intros send_ok evs cl u again s s1 Hu Htwo Hvotes Hall.
  pose proof (run_keeps_seating send_ok evs) as Hseat. fold s in Hseat.
  destruct Hseat as (_ & Hk & Hv & Hm & He & _).
  split.
  { cbn [TTT.handle_message]. rewrite Hu. fold s1.
    assert (¬ (length (TTT.play_again_votes s1) < length (TTT.players s1))%nat) as Hge.
    { subst s1. cbn [TTT.players TTT.set_votes] in *. lia. }
    rewrite (bool_decide_eq_false_2 _ Hge).
    rewrite Hall. cbn [negb]. by destruct (TTT.send_state send_ok _). }
  split; [done|]. split; [done|]. split; [done|]. split; [done|].
  destruct (x_is_seated (TTT.players s) Htwo Hk Hv Hm) as (kv & Hfind & Hget).
  exists kv.1. split; [done|].
  subst s1. unfold TTT.reset. cbn [TTT.turn TTT.players TTT.set_votes]. rewrite Hfind.
  cbn [fmap option_fmap option_map].
  assert (kv.1 ≠ "") as Hname.
  { intros Heq. apply He. rewrite <- Heq. apply find_some in Hfind as [Hin _].
    apply list_elem_of_fmap. exists kv. split; [done|]. by apply list_elem_of_In. }
  cbn [Py.truthy_str]. by rewrite bool_decide_eq_false_2.
Qed.

Lemma rematch_clears_board_and_x_starts_witness :
  let evs := [TTT.Recv 1%nat (TTT.join (Some "alice")); TTT.Recv 2%nat (TTT.join (Some "bob"));
              TTT.Recv 1%nat (TTT.move (Py.ArgInt 0));
              TTT.Recv 1%nat (TTT.play_again true)] in
  let s := TTT.game (TTT.run Scenario.all_sent evs TTT.start) in
  let s1 := TTT.set_votes (TTT.set "bob" true (TTT.play_again_votes s)) s in
  TTT.board (TTT.reset s1) = TTT.empty_board
  ∧ ∃ x, TTT.get x (TTT.players s) = Some "X" ∧ TTT.turn (TTT.reset s1) = Some x.
Proof.
  intros evs s s1.
  destruct (rematch_clears_board_and_x_starts Scenario.all_sent evs
              (TTT.mkClient 2%nat (Some "bob")) "bob" true
              ltac:(reflexivity) ltac:(vm_compute; reflexivity)
              ltac:(apply Nat.leb_le; vm_compute; reflexivity)
              ltac:(vm_compute; reflexivity))
    as (_ & Hb & _ & _ & _ & Hx).
  split; [exact Hb|exact Hx].
Defined.
